(** * Jepsh runtime: the reactive store (core/atom.ts) and the tree
      reconciler (dom/vdom.ts, dom/diff.ts)

    The development embeds the TypeScript sources as Rocq functions and
    states the properties of the runtime over them.

    - [JS]       the JavaScript values the two subsystems compare and store;
                 numbers are doubles, and [String(n)] is the host's;
    - [Dom]      [h] of dom/vdom.ts and [diff], [diffNode], [diffProps],
                 [diffChildren] of dom/diff.ts;
    - [Reactive] the module state of core/atom.ts with [Atom] and
                 [AtomEffect];
    - [Renderer] [_patchReorderChildren] of dom/WebShellRenderer.ts over
                 the child list of one DOM parent. *)

From stdpp Require Import gmap strings list sorting.
From Stdlib Require Import ZArith Lia Sorted Floats.

Local Open Scope Z_scope.
Local Set Warnings "-register-all".

(* ===================================================================== *)
(** ** JavaScript values *)
(* ===================================================================== *)

Module JS.

(** A number is an IEEE 754 double, as in the language: the integers, the
    fractions, the two zeros, the two infinities and NaN. *)
Definition Number := float.

Definition NaN : Number := nan.

(** Objects and functions are known by their identity only. *)
Inductive Value :=
  | VUndefined
  | VNull
  | VBool (b : bool)
  | VNumber (n : Number)
  | VString (s : string)
  | VObject (ref : positive)
  | VFunction (ref : positive).

(** Being the same double: [+0] and [-0] are two, NaN is one. *)
#[global] Instance Number_eq_dec : EqDecision Number.
Proof.
  intros x y. destruct (PrimFloat.Leibniz.eqb x y) eqn:E.
  - left. apply FloatAxioms.Leibniz.eqb_spec. exact E.
  - right. intros H. apply FloatAxioms.Leibniz.eqb_spec in H. congruence.
Defined.

#[global] Instance Value_eq_dec : EqDecision Value.
Proof. solve_decision. Defined.

(** [a === b]: on two numbers the comparison of IEEE 754, under which NaN
    is equal to nothing and the two zeros are equal; else being the same
    value. *)
Definition strict_eq (a b : Value) : bool :=
  match a, b with
  | VNumber x, VNumber y => PrimFloat.eqb x y
  | _, _ => bool_decide (a = b)
  end.

(** [a == null] *)
Definition is_nullish (a : Value) : bool :=
  match a with
  | VUndefined | VNull => true
  | _ => false
  end.

(** [typeof a === 'object'] ([typeof null] is ['object'] too) *)
Definition typeof_object (a : Value) : bool :=
  match a with
  | VNull | VObject _ => true
  | _ => false
  end.


(** [a instanceof Function] *)
Definition is_function (a : Value) : bool :=
  match a with
  | VFunction _ => true
  | _ => false
  end.

(** What the sources take from the language as it is: [String(n)] on a
    number, the decimal text the language prints a double with. *)
Class Host := { String_of_number : Number -> string }.

End JS.

(* ===================================================================== *)
(** ** dom/vdom.ts and dom/diff.ts *)
(* ===================================================================== *)

Module Dom.
Import JS.

(** A DOM [Node] is an opaque handle. *)
Definition Node := positive.

(** [type: string | Function | null] *)
Inductive VType :=
  | TNull
  | TTag (tag : string)
  | TFunction (ref : positive).

#[global] Instance VType_eq_dec : EqDecision VType.
Proof. solve_decision. Defined.

(** [key?: string | number] *)
Inductive Key :=
  | KString (s : string)
  | KNumber (n : Number).

(** [VNodeProps]: the own enumerable properties in enumeration order. *)
Definition VNodeProps := list (string * Value).

(** [interface VNode]. [key] and [_dom] are optional fields; [_component]
    is read by neither [h] nor [diff] and is left out. *)
Inductive VNode := mkVNode {
  type : VType;
  props : VNodeProps;
  children : list VNode;
  key : option Key;
  _dom : option Node;
}.

Inductive MoveType := INSERT | MOVE.

(** [interface ChildMove] *)
Record ChildMove := mkChildMove {
  move_type : MoveType;
  move_node : Node;
  move_index : Z;
}.

(** [type Patch] *)
Inductive Patch :=
  | CREATE (vnode : VNode) (parentDom : Node)
  | REMOVE (node : Node)
  | SET_PROP (node : Node) (name : string) (value : Value)
  | REMOVE_PROP (node : Node) (name : string) (value : Value)
  | REPLACE (oldNode : Node) (newVNode : VNode)
  | REORDER_CHILDREN (parentDom : Node) (moves : list ChildMove).

(** *** [h] *)

(** One element of the [children] argument of [h]:
    [VNode | string | number | boolean | null | undefined]. *)
Inductive Child :=
  | ChNull
  | ChUndefined
  | ChBool (b : bool)
  | ChString (s : string)
  | ChNumber (n : Number)
  | ChNode (v : VNode).

(** The argument may nest arrays one level deep, which [flat()] splices. *)
Inductive ChildArg :=
  | One (c : Child)
  | Nested (cs : list Child).

Definition flat (cs : list ChildArg) : list Child :=
  concat (map (fun c => match c with One x => [x] | Nested xs => xs end) cs).

Section WithHost.

Context {host : Host}.

(** The callback of [children.flat().map(...)]. *)
Definition normalize_child (child : Child) : VNode :=
  match child with
  | ChNull | ChUndefined | ChBool _ =>
      mkVNode TNull [] [] None None
  | ChString s =>
      mkVNode TNull [("nodeValue"%string, VString s)] [] None None
  | ChNumber n =>
      mkVNode TNull [("nodeValue"%string, VString (String_of_number n))] [] None None
  | ChNode v => v
  end.

Definition h (type : VType) (props : option VNodeProps)
    (children : list ChildArg) (key : option Key) : VNode :=
  let normalizedChildren := map normalize_child (flat children) in
  mkVNode type (default [] props) normalizedChildren key None.

(** *** [diffProps] *)

(** [props[name]] for a name the props hold, and for one they lack that is
    no member of [Object.prototype]: [undefined] then. Under the name of
    such a member, props that lack it give the member. *)
Fixpoint prop_get (ps : VNodeProps) (name : string) : Value :=
  match ps with
  | [] => VUndefined
  | (n, v) :: ps' => if bool_decide (n = name) then v else prop_get ps' name
  end.

(** [name in props], for a name that is no member of [Object.prototype];
    those are in every props object. *)
Fixpoint prop_in (name : string) (ps : VNodeProps) : bool :=
  match ps with
  | [] => false
  | (n, _) :: ps' => if bool_decide (n = name) then true else prop_in name ps'
  end.

(** The two [for (const name in ...)] loops; the names of an object are
    the first components of its list, and [hasOwnProperty] holds of each
    of them as long as no prop is itself called [hasOwnProperty]. *)
Definition diffProps (domNode : Node) (oldProps newProps : VNodeProps)
    (patches : list Patch) : list Patch :=
  let patches1 :=
    fold_left (fun acc name =>
      if negb (strict_eq (prop_get oldProps name) (prop_get newProps name))
      then acc ++ [SET_PROP domNode name (prop_get newProps name)]
      else acc) (map fst newProps) patches in
  fold_left (fun acc name =>
      if negb (prop_in name newProps)
      then acc ++ [REMOVE_PROP domNode name (prop_get oldProps name)]
      else acc) (map fst oldProps) patches1.

(** *** [diffNode] and [diffChildren] *)

(** [arr[i]] for an index variable of the loop; out of range reads give
    [undefined], here [None]. *)
Definition at_index {A} (arr : list A) (i : Z) : option A :=
  if i <? 0 then None else arr !! Z.to_nat i.

Definition key_value (k : option Key) : Value :=
  match k with
  | None => VUndefined
  | Some (KString s) => VString s
  | Some (KNumber n) => VNumber n
  end.

(** The property name a key is stored under in [oldKeyed]. *)
Definition key_name (k : Key) : string :=
  match k with
  | KString s => s
  | KNumber n => String_of_number n
  end.

(** [x && y && x.key === y.key] *)
Definition same_key (x y : option VNode) : bool :=
  match x, y with
  | Some a, Some b => strict_eq (key_value (key a)) (key_value (key b))
  | _, _ => false
  end.

(** The first loop of [diffChildren]: the table of keyed old children; a
    later child with the same key overwrites an earlier one. The table is
    an object literal, told here by the entries stored in it: under the
    name of a member of [Object.prototype] the source finds that member
    where nothing was stored, and stores nothing under [__proto__]. *)
Fixpoint build_oldKeyed (cs : list (option VNode)) (i : Z)
    (oldKeyed : gmap string (VNode * Z)) : gmap string (VNode * Z) :=
  match cs with
  | [] => oldKeyed
  | c :: cs' =>
      let oldKeyed' :=
        match c with
        | Some child =>
            match key child with
            | Some k => <[key_name k := (child, i)]> oldKeyed
            | None => oldKeyed
            end
        | None => oldKeyed
        end in
      build_oldKeyed cs' (i + 1) oldKeyed'
  end.

(** The variables of the [while] loop of [diffChildren]. [oldChildren] is
    the array the loop writes its tombstones into. *)
Record LoopState := mkLoop {
  oldChildren : list (option VNode);
  oldHead : Z;
  oldTail : Z;
  newHead : Z;
  newTail : Z;
  moves : list ChildMove;
  patches : list Patch;
}.

(** [newHead <= newTail || oldHead <= oldTail] *)
Definition loop_cond (st : LoopState) : bool :=
  (newHead st <=? newTail st) || (oldHead st <=? oldTail st).

Definition oldHeadVNode (st : LoopState) : option VNode :=
  if oldHead st <=? oldTail st
  then mjoin (at_index (oldChildren st) (oldHead st)) else None.

Definition oldTailVNode (st : LoopState) : option VNode :=
  if oldHead st <=? oldTail st
  then mjoin (at_index (oldChildren st) (oldTail st)) else None.

Definition newHeadVNode (newChildren : list VNode) (st : LoopState) : option VNode :=
  if newHead st <=? newTail st then at_index newChildren (newHead st) else None.

Definition newTailVNode (newChildren : list VNode) (st : LoopState) : option VNode :=
  if newHead st <=? newTail st then at_index newChildren (newTail st) else None.

(** The two loops after the [while]: a [REMOVE] for every entry of the old
    array that is not a tombstone and is bound, then the [REORDER_CHILDREN]
    patch when a move was recorded. *)
Definition remove_old (oldChildren : list (option VNode)) (patches : list Patch)
    : list Patch :=
  fold_left (fun acc oldChild =>
      match oldChild with
      | Some c =>
          match _dom c with
          | Some d => acc ++ [REMOVE d]
          | None => acc
          end
      | None => acc
      end) oldChildren patches.

Definition finish_children (parentDom : Node) (st : LoopState) : list Patch :=
  let patches1 := remove_old (oldChildren st) (patches st) in
  match moves st with
  | [] => patches1
  | _ :: _ => patches1 ++ [REORDER_CHILDREN parentDom (moves st)]
  end.

(** [diffChildren] around its [while] loop, which is given as [loop]: the
    table of keyed old children, the four indices, the loop, the removals
    and the reordering patch. *)
Definition diffChildren_body
    (loop : Node -> list VNode -> gmap string (VNode * Z) -> LoopState -> option LoopState)
    (parentDom : Node) (oldChildren newChildren : list VNode) (patches : list Patch)
    : option (list Patch) :=
  let olds := map Some oldChildren in
  let st0 := mkLoop olds 0 (Z.of_nat (length olds) - 1)
               0 (Z.of_nat (length newChildren) - 1) [] patches in
  match loop parentDom newChildren (build_oldKeyed olds 0 ∅) st0 with
  | Some st => Some (finish_children parentDom st)
  | None => None
  end.

(** [diffNode] and the [while] loop of [diffChildren] call each other, the
    loop runs for as long as its condition holds, and neither is structural:
    both take a step budget and answer [None] when it runs out. [patches]
    is the array every call pushes onto. The [console.warn] of case 4 has
    no part in the result.

    The loop writes its tombstones into the children array of the old node.
    Here each call of [diffChildren] works on its own copy of that array, as
    [children] gives it. The source differs when one array is reached twice
    in one call of [diff]: as old and new array at once (a node diffed
    against itself; [self_diff_loop] below shows that no tombstone is
    written then), or when a keyed old child is matched by two new siblings
    carrying the same key. *)
Fixpoint diffNode (fuel : nat) (oldVNode newVNode : option VNode)
    (parentDom : Node) (patches : list Patch) {struct fuel}
    : option (list Patch) :=
  match fuel with
  | O => None
  | S fuel' =>
      match newVNode with
      | None =>
          (* case 1: node removed *)
          match oldVNode with
          | Some o =>
              match _dom o with
              | Some d => Some (patches ++ [REMOVE d])
              | None => Some patches
              end
          | None => Some patches
          end
      | Some n =>
          match oldVNode with
          | None =>
              (* case 2: node added *)
              Some (patches ++ [CREATE n parentDom])
          | Some o =>
              if negb (bool_decide (type o = type n)) then
                (* case 3: type changed *)
                match _dom o with
                | Some d => Some (patches ++ [REPLACE d n])
                | None => Some patches
                end
              else
                (* case 4: same type *)
                match _dom o with
                | None => Some patches
                | Some domNode =>
                    let patches1 := diffProps domNode (props o) (props n) patches in
                    diffChildren_body (diffChildren_loop fuel')
                      domNode (children o) (children n) patches1
                end
          end
      end
  end
with diffChildren_loop (fuel : nat) (parentDom : Node) (newChildren : list VNode)
    (oldKeyed : gmap string (VNode * Z)) (st : LoopState) {struct fuel}
    : option LoopState :=
  match fuel with
  | O => None
  | S fuel' =>
      if negb (loop_cond st) then Some st else
      let oh := oldHeadVNode st in
      let ot := oldTailVNode st in
      let nh := newHeadVNode newChildren st in
      let nt := newTailVNode newChildren st in
      let continue (st' : option LoopState) :=
        match st' with
        | Some s => diffChildren_loop fuel' parentDom newChildren oldKeyed s
        | None => None
        end in
      let with_patches (ps : option (list Patch)) (f : list Patch -> LoopState) :=
        match ps with
        | Some ps' => Some (f ps')
        | None => None
        end in
      if same_key oh nh then
        continue (with_patches (diffNode fuel' oh nh parentDom (patches st))
          (fun ps => mkLoop (oldChildren st) (oldHead st + 1) (oldTail st)
                       (newHead st + 1) (newTail st) (moves st) ps))
      else if same_key ot nt then
        continue (with_patches (diffNode fuel' ot nt parentDom (patches st))
          (fun ps => mkLoop (oldChildren st) (oldHead st) (oldTail st - 1)
                       (newHead st) (newTail st - 1) (moves st) ps))
      else if same_key oh nt then
        continue (with_patches (diffNode fuel' oh nt parentDom (patches st))
          (fun ps => mkLoop (oldChildren st) (oldHead st + 1) (oldTail st)
                       (newHead st) (newTail st - 1) (moves st) ps))
      else if same_key ot nh then
        continue (with_patches (diffNode fuel' ot nh parentDom (patches st))
          (fun ps => mkLoop (oldChildren st) (oldHead st) (oldTail st - 1)
                       (newHead st + 1) (newTail st) (moves st) ps))
      else
        (* key mismatch or new node *)
        match nh with
        | Some n =>
            let matched :=
              match key n with
              | Some k => oldKeyed !! key_name k
              | None => None
              end in
            match matched with
            | Some (matchedOldVNode, index) =>
                continue (with_patches
                  (diffNode fuel' (Some matchedOldVNode) nh parentDom (patches st))
                  (fun ps =>
                     let olds' := <[Z.to_nat index := None]> (oldChildren st) in
                     let moves' :=
                       match _dom matchedOldVNode with
                       | Some d => moves st ++ [mkChildMove MOVE d (newHead st)]
                       | None => moves st
                       end in
                     mkLoop olds' (oldHead st) (oldTail st)
                       (newHead st + 1) (newTail st) moves' ps))
            | None =>
                continue (Some (mkLoop (oldChildren st) (oldHead st) (oldTail st)
                  (newHead st + 1) (newTail st) (moves st)
                  (patches st ++ [CREATE n parentDom])))
            end
        | None =>
            continue (Some (mkLoop (oldChildren st) (oldHead st) (oldTail st)
              (newHead st + 1) (newTail st) (moves st) (patches st)))
        end
  end.

(** [diffChildren(parentDom, oldChildren, newChildren, patches)] *)
Definition diffChildren (fuel : nat) (parentDom : Node)
    (oldChildren newChildren : list VNode) (patches : list Patch)
    : option (list Patch) :=
  diffChildren_body (diffChildren_loop fuel) parentDom oldChildren newChildren patches.

(** [diff(oldVNode, newVNode, parentDom)] *)
Definition diff (fuel : nat) (oldVNode newVNode : option VNode) (parentDom : Node)
    : option (list Patch) :=
  diffNode fuel oldVNode newVNode parentDom [].

End WithHost.

End Dom.

(* ===================================================================== *)
(** ** core/atom.ts *)
(* ===================================================================== *)

Module Reactive.
Import JS.

(** Atoms and effects are objects; an id stands for the identity of one. *)
Definition AtomId := positive.
Definition EffectId := positive.

(** [Atom<any> | AtomEffect] *)
Inductive Consumer :=
  | CAtom (a : AtomId)
  | CEffect (e : EffectId).

#[global] Instance Consumer_eq_dec : EqDecision Consumer.
Proof. solve_decision. Defined.

(** [interface DependencyNode] *)
Record DependencyNode := mkDependencyNode {
  atom : AtomId;
  dependency_order : Z;
}.

(** [interface DependentNode] *)
Record DependentNode := mkDependentNode {
  atomOrEffect : Consumer;
  order : Z;
}.

(** The fields of [class Atom]. The two [Map]s are kept as the list of
    their values in insertion order; the key of an entry is its
    [atomOrEffect], respectively its [atom]. *)
Record Atom := mkAtom {
  _value : Value;
  _dependents : list DependentNode;
  _dependencies : list DependencyNode;
  _isDirty : bool;
  _lastChangedEpoch : Z;
  _name : option string;
}.

(** The fields of [class AtomEffect] but [_fn]; [_deps] is the [Set] in
    insertion order. *)
Record AtomEffect := mkAtomEffect {
  _deps : list AtomId;
  _isDisposed : bool;
}.

(** [new Atom(undefined)] *)
#[global] Instance Atom_inhabited : Inhabited Atom :=
  populate (mkAtom VUndefined [] [] false 0 None).

#[global] Instance AtomEffect_inhabited : Inhabited AtomEffect :=
  populate (mkAtomEffect [] false).

(** The module-level variables of atom.ts and the objects of the two
    classes. [microtasks] counts the [flushPendingAtoms] callbacks handed to
    [queueMicrotask] and not yet run. [log] is what the effect functions
    have written outside the store. An id with no entry in [atoms] or
    [effects] reads as an object in the state its constructor leaves. *)
Record World := mkWorld {
  currentConsumer : option Consumer;
  consumerStack : list Consumer;
  globalEpoch : Z;
  pendingAtoms : list AtomId;
  isBatchScheduled : bool;
  microtasks : nat;
  atoms : gmap AtomId Atom;
  effects : gmap EffectId AtomEffect;
  log : list Value;
}.

Definition set_consumer (cur : option Consumer) (stack : list Consumer) (w : World) : World :=
  mkWorld cur stack (globalEpoch w) (pendingAtoms w) (isBatchScheduled w)
    (microtasks w) (atoms w) (effects w) (log w).

Definition set_globalEpoch (n : Z) (w : World) : World :=
  mkWorld (currentConsumer w) (consumerStack w) n (pendingAtoms w)
    (isBatchScheduled w) (microtasks w) (atoms w) (effects w) (log w).

Definition set_pendingAtoms (p : list AtomId) (w : World) : World :=
  mkWorld (currentConsumer w) (consumerStack w) (globalEpoch w) p
    (isBatchScheduled w) (microtasks w) (atoms w) (effects w) (log w).

Definition set_isBatchScheduled (b : bool) (w : World) : World :=
  mkWorld (currentConsumer w) (consumerStack w) (globalEpoch w) (pendingAtoms w)
    b (microtasks w) (atoms w) (effects w) (log w).

Definition set_microtasks (n : nat) (w : World) : World :=
  mkWorld (currentConsumer w) (consumerStack w) (globalEpoch w) (pendingAtoms w)
    (isBatchScheduled w) n (atoms w) (effects w) (log w).

Definition set_atom (a : AtomId) (obj : Atom) (w : World) : World :=
  mkWorld (currentConsumer w) (consumerStack w) (globalEpoch w) (pendingAtoms w)
    (isBatchScheduled w) (microtasks w) (<[a := obj]> (atoms w)) (effects w) (log w).

Definition set_effect (e : EffectId) (obj : AtomEffect) (w : World) : World :=
  mkWorld (currentConsumer w) (consumerStack w) (globalEpoch w) (pendingAtoms w)
    (isBatchScheduled w) (microtasks w) (atoms w) (<[e := obj]> (effects w)) (log w).

Definition set_log (l : list Value) (w : World) : World :=
  mkWorld (currentConsumer w) (consumerStack w) (globalEpoch w) (pendingAtoms w)
    (isBatchScheduled w) (microtasks w) (atoms w) (effects w) l.

Definition atom_at (w : World) (a : AtomId) : Atom := atoms w !!! a.
Definition effect_at (w : World) (e : EffectId) : AtomEffect := effects w !!! e.

(** *** Computations that may throw *)

(** How a call ends: it returns, or it throws a value. *)
Inductive Completion (A : Type) :=
  | Normal (a : A)
  | Throw (exn : Value).
Arguments Normal {A} a.
Arguments Throw {A} exn.

(** A call runs on the world and leaves a world behind, also when it
    throws. *)
Definition M (A : Type) : Type := World -> Completion A * World.

Definition ret {A} (a : A) : M A := fun w => (Normal a, w).

Definition bind {A B} (c : M A) (k : A -> M B) : M B := fun w =>
  match c w with
  | (Normal a, w1) => k a w1
  | (Throw x, w1) => (Throw x, w1)
  end.

Definition throw {A} (x : Value) : M A := fun w => (Throw x, w).

(** A call that only changes the world. *)
Definition modify (f : World -> World) : M unit := fun w => (Normal tt, f w).

(** [try { body } finally { cleanup }], for a cleanup that does not throw. *)
Definition try_finally {A} (body : M A) (cleanup : World -> World) : M A := fun w =>
  match body w with
  | (r, w1) => (r, cleanup w1)
  end.

Notation "'let*' x ':=' c1 'in' c2" := (bind c1 (fun x => c2))
  (at level 10, x name, c1 at level 100, c2 at level 200).
Notation "c1 >>> c2" := (bind c1 (fun _ => c2))
  (at level 65, right associativity).

(** [for (const x of xs) { body(x) }]: a throw leaves the loop. *)
Fixpoint for_of {X} (xs : list X) (body : X -> M unit) : M unit :=
  match xs with
  | [] => ret tt
  | x :: xs' => body x >>> for_of xs' body
  end.

(** [Array.prototype.sort] with the comparator [(a, b) => f a - f b]: stable. *)
Fixpoint sort_insert {X} (f : X -> Z) (x : X) (l : list X) : list X :=
  match l with
  | [] => [x]
  | y :: l' => if f x <=? f y then x :: y :: l' else y :: sort_insert f x l'
  end.

Definition sort_by {X} (f : X -> Z) (l : list X) : list X :=
  foldr (sort_insert f) [] l.

(** *** Module functions *)

Definition setCurrentConsumer (consumer : option Consumer) (w : World) : World :=
  let stack :=
    match consumer with
    | Some c => consumerStack w ++ [c]
    | None =>
        if (0 <? length (consumerStack w))%nat
        then removelast (consumerStack w)
        else consumerStack w
    end in
  set_consumer (last stack) stack w.

Definition scheduleFlush (w : World) : World :=
  if isBatchScheduled w then w
  else set_microtasks (S (microtasks w)) (set_isBatchScheduled true w).

(** *** [class Atom], the methods the effects call *)

Definition has_dependent (dependent : Consumer) (obj : Atom) : bool :=
  bool_decide (dependent ∈ map atomOrEffect (_dependents obj)).

Definition with_dependents (ds : list DependentNode) (obj : Atom) : Atom :=
  mkAtom (_value obj) ds (_dependencies obj) (_isDirty obj)
    (_lastChangedEpoch obj) (_name obj).

Definition with_dependencies (ds : list DependencyNode) (obj : Atom) : Atom :=
  mkAtom (_value obj) (_dependents obj) ds (_isDirty obj)
    (_lastChangedEpoch obj) (_name obj).

Definition with_isDirty (b : bool) (obj : Atom) : Atom :=
  mkAtom (_value obj) (_dependents obj) (_dependencies obj) b
    (_lastChangedEpoch obj) (_name obj).

(** [_addDependent(dependent)]; [order: globalEpoch++] *)
Definition Atom__addDependent (self : AtomId) (dependent : Consumer) (w : World) : World :=
  let obj := atom_at w self in
  if has_dependent dependent obj then w
  else
    let node := mkDependentNode dependent (globalEpoch w) in
    set_globalEpoch (globalEpoch w + 1)
      (set_atom self (with_dependents (_dependents obj ++ [node]) obj) w).

(** [_removeDependent(dependent)] *)
Definition Atom__removeDependent (self : AtomId) (dependent : Consumer) (w : World) : World :=
  let obj := atom_at w self in
  set_atom self
    (with_dependents
       (filter (fun n => atomOrEffect n ≠ dependent) (_dependents obj)) obj) w.

(** [Atom._addDependency(dependency)] *)
Definition Atom__addDependency (self : AtomId) (dependency : AtomId) (w : World) : World :=
  let obj := atom_at w self in
  if bool_decide (dependency ∈ map atom (_dependencies obj)) then w
  else
    let node := mkDependencyNode dependency (globalEpoch w) in
    let w1 := set_globalEpoch (globalEpoch w + 1)
                (set_atom self (with_dependencies (_dependencies obj ++ [node]) obj) w) in
    Atom__addDependent dependency (CAtom self) w1.

(** [Atom._removeDependency(dependency)] *)
Definition Atom__removeDependency (self : AtomId) (dependency : AtomId) (w : World) : World :=
  let obj := atom_at w self in
  if bool_decide (dependency ∈ map atom (_dependencies obj)) then
    let w1 := set_atom self
                (with_dependencies
                   (filter (fun n => atom n ≠ dependency) (_dependencies obj)) obj) w in
    Atom__removeDependent dependency (CAtom self) w1
  else w.

(** *** [class AtomEffect] *)

Definition with_deps (ds : list AtomId) (eff : AtomEffect) : AtomEffect :=
  mkAtomEffect ds (_isDisposed eff).

(** [AtomEffect._addDependency(atom)] *)
Definition AtomEffect__addDependency (self : EffectId) (a : AtomId) (w : World) : World :=
  let eff := effect_at w self in
  if bool_decide (a ∈ _deps eff) then w
  else
    Atom__addDependent a (CEffect self)
      (set_effect self (with_deps (_deps eff ++ [a]) eff) w).

(** [AtomEffect._removeDependency(atom)] *)
Definition AtomEffect__removeDependency (self : EffectId) (a : AtomId) (w : World) : World :=
  let eff := effect_at w self in
  set_effect self (with_deps (filter (fun d => d ≠ a) (_deps eff)) eff) w.

(** The loop [for (const dep of this._deps) dep._removeDependent(this)]
    followed by [this._deps.clear()]. *)
Definition unsubscribe (self : EffectId) (w : World) : World :=
  let w1 := fold_left (fun acc dep => Atom__removeDependent dep (CEffect self) acc)
              (_deps (effect_at w self)) w in
  set_effect self (with_deps [] (effect_at w1 self)) w1.

(** [_execute()], with the closure [this._fn] given as [_fn]. *)
Definition AtomEffect__execute (self : EffectId) (_fn : M unit) : M unit := fun w =>
  if _isDisposed (effect_at w self) then (Normal tt, w)
  else
    let w1 := unsubscribe self w in
    let previousConsumer := currentConsumer w1 in
    let w2 := setCurrentConsumer (Some (CEffect self)) w1 in
    try_finally _fn (setCurrentConsumer previousConsumer) w2.

(** [new AtomEffect(fn)]; [self] is the identity of the new object. *)
Definition new_AtomEffect (self : EffectId) (fn : M unit) : M unit :=
  modify (set_effect self (mkAtomEffect [] false)) >>>
  AtomEffect__execute self fn.

(** [dispose()] *)
Definition AtomEffect_dispose (self : EffectId) : M unit := fun w =>
  if _isDisposed (effect_at w self) then (Normal tt, w)
  else
    let w1 := set_effect self (mkAtomEffect (_deps (effect_at w self)) true) w in
    (Normal tt, unsubscribe self w1).

(** *** [class Atom], the public methods *)

(** [new Atom(initialValue, name)]; [self] is the identity of the new
    object. *)
Definition new_Atom (self : AtomId) (initialValue : Value) (name : option string) : M unit :=
  modify (set_atom self (mkAtom initialValue [] [] false 0 name)).

(** [get()] *)
Definition Atom_get (self : AtomId) : M Value := fun w =>
  let w1 :=
    match currentConsumer w with
    | Some (CAtom c) => Atom__addDependency c self w
    | Some (CEffect c) => AtomEffect__addDependency c self w
    | None => w
    end in
  (Normal (_value (atom_at w1 self)), w1).


(** [getName()] *)
Definition Atom_getName (self : AtomId) : M (option string) := fun w =>
  (Normal (_name (atom_at w self)), w).

(** [_pull()]: empty in the base class. *)
Definition Atom__pull (self : AtomId) : M unit := ret tt.

Section WithHost.

(** [JSON.stringify] of the host: [None] when it throws, [Some None] when
    it returns [undefined], else the text. *)
Variable JSON_stringify : Value -> option (option string).

(** What calling a function value with one argument does, [f(arg)], for
    the function known by its identity: it may return or throw, and may
    use the store on the way. *)
Variable call : positive -> Value -> M Value.

(** [_isEqual(a, b)] *)
Definition Atom__isEqual (a b : Value) : bool :=
  if strict_eq a b then true
  else if is_nullish a || is_nullish b then strict_eq a b
  else if negb (typeof_object a) || negb (typeof_object b) then strict_eq a b
  else
    match JSON_stringify a, JSON_stringify b with
    | Some x, Some y => bool_decide (x = y)
    | _, _ => strict_eq a b
    end.

(** [newValue instanceof Function ? newValue(this._value) : newValue]: a
    function is always called, never stored. *)
Definition resolve (self : AtomId) (newValue : Value) : M Value := fun w =>
  match newValue with
  | VFunction f => call f (_value (atom_at w self)) w
  | _ => (Normal newValue, w)
  end.

(** The rest of [set], once the final value is there. *)
Definition set_resolved (self : AtomId) (finalValue : Value) : M unit := fun w =>
  let obj := atom_at w self in
  if negb (Atom__isEqual (_value obj) finalValue) then
    let epoch := globalEpoch w + 1 in
    let obj' := mkAtom finalValue (_dependents obj) (_dependencies obj) true
                  epoch (_name obj) in
    let w1 := set_globalEpoch epoch (set_atom self obj' w) in
    let w2 := if bool_decide (self ∈ pendingAtoms w1) then w1
              else set_pendingAtoms (pendingAtoms w1 ++ [self]) w1 in
    (Normal tt, scheduleFlush w2)
  else (Normal tt, w).

(** [set(newValue)] *)
Definition Atom_set (self : AtomId) (newValue : Value) : M unit :=
  let* finalValue := resolve self newValue in
  set_resolved self finalValue.

End WithHost.

Section WithEffects.

(** The closure [_fn] each effect was constructed with. *)
Variable fns : EffectId -> M unit.

(** [run()] *)
Definition AtomEffect_run (self : EffectId) : M unit :=
  AtomEffect__execute self (fns self).

(** The body of the loop over [sortedDependents]. *)
Definition notify_dependent (dependent : Consumer) : M unit :=
  match dependent with
  | CAtom a => Atom__pull a
  | CEffect e => AtomEffect_run e
  end.

Definition sortedDependents (obj : Atom) : list Consumer :=
  map atomOrEffect (sort_by order (_dependents obj)).

(** [_notifyDependents()] *)
Definition Atom__notifyDependents (self : AtomId) : M unit := fun w =>
  let obj := atom_at w self in
  if _isDirty obj then
    let w1 := set_atom self (with_isDirty false obj) w in
    for_of (sortedDependents obj) notify_dependent w1
  else (Normal tt, w).

(** [flushPendingAtoms()] *)
Definition flushPendingAtoms : M unit := fun w =>
  let w1 := set_isBatchScheduled false w in
  let atomsToNotify :=
    sort_by (fun a => _lastChangedEpoch (atom_at w1 a)) (pendingAtoms w1) in
  let w2 := set_pendingAtoms [] w1 in
  for_of atomsToNotify Atom__notifyDependents w2.

(** The host takes one queued [flushPendingAtoms] callback and runs it on an
    empty call stack; [None] when nothing is queued. *)
Definition run_microtask (w : World) : option (Completion unit * World) :=
  match microtasks w with
  | O => None
  | S n => Some (flushPendingAtoms (set_microtasks n w))
  end.

End WithEffects.

End Reactive.

(* ===================================================================== *)
(** ** Inputs used by the statements below *)
(* ===================================================================== *)

Module Scenarios.
Import JS Dom.

(** A keyed [li] without props or children. *)
Definition li (k : string) (dom : option Node) : VNode :=
  mkVNode (TTag "li") [] [] (Some (KString k)) dom.

(** A [ul] around a list of children. *)
Definition ul (cs : list VNode) (dom : option Node) : VNode :=
  mkVNode (TTag "ul") [] cs None dom.

(** old = [[{key:a},{key:b},{key:c}]], committed: every node is bound. *)
Definition old_abc : VNode :=
  ul [li "a" (Some 1%positive); li "b" (Some 2%positive); li "c" (Some 3%positive)]
     (Some 10%positive).

(** new = [[{key:c},{key:a},{key:b}]], with whatever bindings. *)
Definition new_cab (dc da db dr : option Node) : VNode :=
  ul [li "c" dc; li "a" da; li "b" db] dr.

(** The props [{id: '1', title: 't'}] and [{id: '2'}]. *)
Definition props_id_title : VNodeProps :=
  [("id"%string, VString "1"); ("title"%string, VString "t")].

Definition props_id : VNodeProps := [("id"%string, VString "2")].

(** A committed tree with one child. *)
Definition one_child : VNode :=
  ul [li "a" (Some 1%positive)] (Some 10%positive).

Section WithHost.

Context {host : Host}.

(** What the children of [h]'s result would be if [null], [undefined] and
    booleans were dropped, as the interface description of the
    tree-construction primitive words it. *)
Definition children_dropping_empty (cs : list Child) : list VNode :=
  omap (fun c =>
    match c with
    | ChNull | ChUndefined | ChBool _ => None
    | ChString s => Some (mkVNode TNull [("nodeValue"%string, VString s)] [] None None)
    | ChNumber n =>
        Some (mkVNode TNull [("nodeValue"%string, VString (String_of_number n))] [] None None)
    | ChNode v => Some v
    end) cs.

(** What one child of the argument becomes in the result of [h]. *)
Inductive child_becomes : Child -> VNode -> Prop :=
  | becomes_text_of_string s :
      child_becomes (ChString s)
        (mkVNode TNull [("nodeValue"%string, VString s)] [] None None)
  | becomes_text_of_number n :
      child_becomes (ChNumber n)
        (mkVNode TNull [("nodeValue"%string, VString (String_of_number n))] [] None None)
  | becomes_placeholder_null :
      child_becomes ChNull (mkVNode TNull [] [] None None)
  | becomes_placeholder_undefined :
      child_becomes ChUndefined (mkVNode TNull [] [] None None)
  | becomes_placeholder_bool b :
      child_becomes (ChBool b) (mkVNode TNull [] [] None None)
  | becomes_itself v :
      child_becomes (ChNode v) v.

End WithHost.

(** The inputs evaluated below carry no number, neither as a key nor as a
    child: [String(n)] is never called on them, and this host answers it
    with the empty text. *)
Definition host_for_strings : Host := {| String_of_number := fun _ => ""%string |}.

(** The patches [diff] finds between a tree and itself: below every bound
    node, a [REMOVE] for each bound child. *)
Fixpoint self_diff (t : VNode) : list Patch :=
  match t with
  | mkVNode _ _ cs _ d =>
      match d with
      | None => []
      | Some _ =>
          concat (map self_diff cs) ++
          omap (fun c => option_map REMOVE (_dom c)) cs
      end
  end.

(** No NaN among the keys and the prop values of a tree. *)
Fixpoint NaN_free (t : VNode) : bool :=
  match t with
  | mkVNode _ ps cs k _ =>
      negb (bool_decide (key_value k = VNumber NaN)) &&
      forallb (fun p => negb (bool_decide (p.2 = VNumber NaN))) ps &&
      forallb NaN_free cs
  end.

End Scenarios.

(* ===================================================================== *)
(** ** Worlds and effect functions used by the statements below *)
(* ===================================================================== *)

Module ReactiveScenarios.
Import JS Reactive.

(** The module as loaded: nothing constructed, nothing scheduled. *)
Definition empty_world : World := mkWorld None [] 0 [] false 0 ∅ ∅ [].

(** A host whose [JSON.stringify] always throws: [_isEqual] is then
    reference equality on objects. *)
Definition no_JSON : Value -> option (option string) := fun _ => None.

(** A host in which no function value is ever called: the scenarios below
    pass [set] values only. *)
Definition no_calls : positive -> Value -> M Value := fun _ _ => throw VUndefined.

Definition num (x : Number) : Value := VNumber x.
Arguments num x%_float.

(** What an effect function does to record what it saw. *)
Definition console_log (v : Value) : M unit :=
  modify (fun w => set_log (log w ++ [v]) w).


(** Two atoms and two effects. *)
Definition atom_a : AtomId := 1%positive.
Definition atom_b : AtomId := 2%positive.
Definition effect_1 : EffectId := 1%positive.
Definition effect_2 : EffectId := 2%positive.

(** An effect that reads [a] and logs it. *)
Definition log_a : M unit :=
  let* v := Atom_get atom_a in console_log v.

(** An effect that reads [b] and logs it. *)
Definition log_b : M unit :=
  let* v := Atom_get atom_b in console_log v.


(** An effect that reads [a] and throws when it is 1. *)
Definition throw_when_a_is_1 : M unit :=
  let* v := Atom_get atom_a in
  if strict_eq v (num 1) then throw (VString "boom") else ret tt.

(** [a = Atom(0)]; an effect logging [a]; [a.set(1); a.set(2)]. *)
Definition two_writes_turn : M unit :=
  new_Atom atom_a (num 0) None >>>
  new_AtomEffect effect_1 log_a >>>
  Atom_set no_JSON no_calls atom_a (num 1) >>>
  Atom_set no_JSON no_calls atom_a (num 2).


(** Two atoms, an effect on each, the first one throwing on its re-run;
    both atoms written in one turn. *)
Definition throwing_turn : M unit :=
  new_Atom atom_a (num 0) None >>>
  new_Atom atom_b (num 0) None >>>
  new_AtomEffect effect_1 throw_when_a_is_1 >>>
  new_AtomEffect effect_2 log_b >>>
  Atom_set no_JSON no_calls atom_a (num 1) >>>
  Atom_set no_JSON no_calls atom_b (num 1).

Definition throwing_fns (e : EffectId) : M unit :=
  if bool_decide (e = effect_1) then throw_when_a_is_1 else log_b.



(** The world the function of a first effect starts in, constructed after
    [a = Atom(false)]: [_execute] has made the effect the current
    consumer. *)
Definition inside_effect_1 : World :=
  setCurrentConsumer (Some (CEffect effect_1))
    (unsubscribe effect_1
       (set_effect effect_1 (mkAtomEffect [] false)
          (snd (new_Atom atom_a (VBool false) None empty_world)))).

(** No atom carries a stamp above the global epoch. *)
Definition stamps_bounded (w : World) : Prop :=
  forall x, _lastChangedEpoch (atom_at w x) <= globalEpoch w.

End ReactiveScenarios.

(* ===================================================================== *)
(** ** What a patch refers to *)
(* ===================================================================== *)

Module DomInvariants.
Import JS Dom.

(** The DOM nodes a tree is bound to. *)
Fixpoint bindings (t : VNode) : list Node :=
  match t with
  | mkVNode _ _ cs _ d => option_list d ++ concat (map bindings cs)
  end.

(** The DOM nodes a patch names: the ones the applier will touch. *)
Definition patch_nodes (p : Patch) : list Node :=
  match p with
  | CREATE _ parentDom => [parentDom]
  | REMOVE node => [node]
  | SET_PROP node _ _ => [node]
  | REMOVE_PROP node _ _ => [node]
  | REPLACE oldNode _ => [oldNode]
  | REORDER_CHILDREN parentDom moves => parentDom :: map move_node moves
  end.

(** Every DOM node the patches of [ps] name satisfies [A]. *)
Definition names_only (A : Node -> Prop) (ps : list Patch) : Prop :=
  forall patch x, patch ∈ ps -> x ∈ patch_nodes patch -> A x.

(** The same for what the loop of [diffChildren] holds: its patches, the
    old children that are left, the moves, and the table of keyed old
    children. *)
Definition loop_names_only (A : Node -> Prop)
    (keyed : gmap string (VNode * Z)) (st : LoopState) : Prop :=
  names_only A (patches st) /\
  (forall c x, Some c ∈ oldChildren st -> x ∈ bindings c -> A x) /\
  (forall mv, mv ∈ moves st -> A (move_node mv)) /\
  (forall name v i x, keyed !! name = Some (v, i) -> x ∈ bindings v -> A x).

(** The loop state with [ps] in front of its patches. *)
Definition with_patches_before (ps : list Patch) (st : LoopState) : LoopState :=
  mkLoop (oldChildren st) (oldHead st) (oldTail st) (newHead st) (newTail st)
    (moves st) (ps ++ patches st).

(** *** Names that every object inherits *)

(** The members of [Object.prototype]. An object literal answers to these
    names without holding them: [name in props] and [props[name]] find
    them in props that lack them, [oldKeyed[key]] finds them in the empty
    table, a prop of its own called [hasOwnProperty] hides the method
    [diffProps] calls, and an assignment to [__proto__] stores nothing.
    The embedding of [diffProps] and of the table [oldKeyed] tells what
    the code does on names that are none of these. *)
Definition Object_prototype_names : list string :=
  ["constructor"; "hasOwnProperty"; "isPrototypeOf"; "propertyIsEnumerable";
   "toLocaleString"; "toString"; "valueOf"; "__proto__";
   "__defineGetter__"; "__defineSetter__"; "__lookupGetter__";
   "__lookupSetter__"]%string.

Definition plain_name (name : string) : bool :=
  negb (bool_decide (name ∈ Object_prototype_names)).

(** *** Runs of the loop that end *)

Section WithHost.

Context {host : Host}.

(** The key of the node, if it has one, is stored in [oldKeyed] under a
    plain name. *)
Definition plain_key (t : VNode) : bool :=
  match key t with
  | Some k => plain_name (key_name k)
  | None => true
  end.

(** The props and the keys of the whole tree have plain names. *)
Fixpoint plain_names (t : VNode) : bool :=
  match t with
  | mkVNode _ ps cs k _ =>
      forallb plain_name (map fst ps) &&
      match k with
      | Some k' => plain_name (key_name k')
      | None => true
      end &&
      forallb plain_names cs
  end.

(** Numbers that compare equal have the same text: of two different
    numbers that do, the two zeros, the language prints both as [0]. *)
Definition String_respects_eq : Prop :=
  forall x y : Number, PrimFloat.eqb x y = true -> String_of_number x = String_of_number y.

(** Siblings of the tree carry pairwise different keys, as property names
    of [oldKeyed], at every level. *)
Fixpoint distinct_keys (t : VNode) : bool :=
  match t with
  | mkVNode _ _ cs _ _ =>
      bool_decide (NoDup (map key_name (omap key cs))) && forallb distinct_keys cs
  end.

Definition is_reorder (p : Patch) : bool :=
  match p with
  | REORDER_CHILDREN _ _ => true
  | _ => false
  end.

Definition no_reorder (ps : list Patch) : Prop :=
  Forall (fun q => is_reorder q = false) ps.

(** What [build_oldKeyed] leaves in the table: under a name, a child of
    the old list that carries a key of that name, with its index. *)
Definition keyed_ok (olds : list VNode) (keyed : gmap string (VNode * Z)) : Prop :=
  forall name v idx, keyed !! name = Some (v, idx) ->
    at_index olds idx = Some v /\ exists k, key v = Some k /\ key_name k = name.

(** The state of a run of the loop that has written no tombstone and
    recorded no move: the indices are within the two lists, and every old
    child outside the old window was paired, by [===] of the keys, with a
    new child outside the new window. *)
Definition ends_matched (olds news : list VNode) (st : LoopState) : Prop :=
  oldChildren st = map Some olds /\
  moves st = [] /\
  no_reorder (patches st) /\
  0 <= oldHead st /\ oldTail st < Z.of_nat (length olds) /\
  0 <= newHead st /\ newTail st < Z.of_nat (length news) /\
  forall i o, i < oldHead st \/ oldTail st < i -> at_index olds i = Some o ->
    exists j n, (j < newHead st \/ newTail st < j) /\ at_index news j = Some n /\
      strict_eq (key_value (key o)) (key_value (key n)) = true.

End WithHost.

End DomInvariants.

(* ===================================================================== *)
(** ** Invariants of the reactive store *)
(* ===================================================================== *)

Module ReactiveInvariants.
Import JS Reactive.

(** Every edge between an effect and an atom is held on both sides: the
    atom lists the effect among its dependents exactly when the effect
    lists the atom among its [_deps]. *)
Definition linked (w : World) : Prop :=
  forall a e,
    has_dependent (CEffect e) (atom_at w a) = true <-> a ∈ _deps (effect_at w e).

(** The dependents of every atom are distinct, carry strictly increasing
    [order] numbers in insertion order, and every number is below the
    global epoch. *)
Definition registration_ordered (w : World) : Prop :=
  forall a,
    NoDup (map atomOrEffect (_dependents (atom_at w a))) /\
    StronglySorted Z.lt (map order (_dependents (atom_at w a))) /\
    Forall (fun n => order n < globalEpoch w) (_dependents (atom_at w a)).

(** The store is well formed: the edges are two-sided, the dependents are
    in registration order, and no stamp exceeds the global epoch. *)
Definition store_ok (w : World) : Prop :=
  linked w /\ registration_ordered w /\ ReactiveScenarios.stamps_bounded w.

(** An effect function that reads the atoms of [l], one after the other. *)
Definition reads (l : list AtomId) : M unit :=
  for_of l (fun a => let* _ := Atom_get a in ret tt).

(** *** The contract of [set], in the words of its description *)





(** *** The writes of a turn *)








(** No write is left without a flush: a pending atom means the batch flag
    is up, the flag up means a [flushPendingAtoms] callback is queued, and
    the pending set holds an atom once. *)
Definition schedule_ok (w : World) : Prop :=
  (pendingAtoms w <> [] -> isBatchScheduled w = true) /\
  (isBatchScheduled w = true -> (0 < microtasks w)%nat) /\
  NoDup (pendingAtoms w).

End ReactiveInvariants.

(* ===================================================================== *)
(** ** Reordering the children of a DOM node (dom/WebShellRenderer.ts) *)
(* ===================================================================== *)

Module Renderer.
Import JS Dom.

(** The state [_patchReorderChildren] works on is [parentDom.childNodes],
    the children of the one parent in document order, a [list Node].  The
    DOM keeps a node's [parentNode] and its parent's [childNodes] in step,
    so [node.parentNode === parentDom] is membership in that list. *)

(** [Array.prototype.indexOf], counting from [i]; [-1] when absent. *)
Fixpoint indexOf (node : Node) (cs : list Node) (i : Z) : Z :=
  match cs with
  | [] => -1
  | c :: cs' => if decide (c = node) then i else indexOf node cs' (i + 1)
  end.

(** [node] put in front of the child [ref]; [None] when [ref] is no child. *)
Fixpoint insert_before (node ref : Node) (cs : list Node) : option (list Node) :=
  match cs with
  | [] => None
  | c :: cs' =>
      if decide (c = ref) then Some (node :: c :: cs')
      else option_map (cons c) (insert_before node ref cs')
  end.

(** [parentDom.insertBefore(node, child)] of the DOM: [node] leaves the
    place it has and goes in front of [child], or to the end when [child]
    is [null]; with [child] being [node] itself nothing moves.  [None] is
    the [NotFoundError] the DOM throws when [child] is not a child of the
    parent. *)
Definition insertBefore (node : Node) (child : option Node) (cs : list Node)
    : option (list Node) :=
  match child with
  | None => Some (filter (fun c => c <> node) cs ++ [node])
  | Some r =>
      if decide (r = node) then
        if bool_decide (node ∈ cs) then Some cs else None
      else insert_before node r (filter (fun c => c <> node) cs)
  end.

(** One turn of the loop of [_patchReorderChildren]. *)
Definition reorder_move (mv : ChildMove) (cs : list Node) : option (list Node) :=
  let node := move_node mv in
  let index := move_index mv in
  if negb (bool_decide (node ∈ cs)) then Some cs
  else
    let currentIndex := indexOf node cs 0 in
    if currentIndex =? -1 then Some cs
    else if negb (currentIndex =? index) then
      let refNode := at_index cs index in
      insertBefore node refNode cs
    else Some cs.

(** [_patchReorderChildren] on the children of [parentDom]. *)
Fixpoint _patchReorderChildren (moves : list ChildMove) (cs : list Node)
    : option (list Node) :=
  match moves with
  | [] => Some cs
  | mv :: moves' =>
      match reorder_move mv cs with
      | Some cs' => _patchReorderChildren moves' cs'
      | None => None
      end
  end.

(** Where a move of the child at [i] to [index] leaves it among the other
    [len - 1] children. *)
Definition landing (len i : nat) (index : Z) : nat :=
  if (index <? 0) || (Z.of_nat len <=? index) then (len - 1)%nat
  else if index <=? Z.of_nat i then Z.to_nat index
  else (Z.to_nat index - 1)%nat.

End Renderer.

(* ===================================================================== *)
(** ** Properties of [===] *)
(* ===================================================================== *)

Module JSProperties.
Import JS.

Lemma SFcompare_refl (f : spec_float) : f <> S754_nan -> SFcompare f f = Some Eq.
Proof.
  destruct f as [s|s| |s m e]; intros H; try reflexivity;
    [destruct s; reflexivity|congruence|].
  cbn. rewrite Z.compare_refl.
  assert (Hc : Pos.compare_cont Eq m m = Eq) by apply Pos.compare_cont_refl.
  change PosDef.Pos.compare_cont with Pos.compare_cont. rewrite Hc.
  destruct s; reflexivity.
Qed.

(** Every number but NaN compares equal to itself. *)
Lemma Number_eqb_refl (x : Number) : x <> NaN -> PrimFloat.eqb x x = true.
Proof.
  intros H. rewrite eqb_spec. unfold SFeqb. rewrite SFcompare_refl; [reflexivity|].
  intros Hn. apply H. rewrite <- (SF2Prim_Prim2SF x), Hn. reflexivity.
Qed.


Lemma Number_eqb_NaN_r (x : Number) : PrimFloat.eqb x NaN = false.
Proof.
  rewrite eqb_spec. unfold SFeqb.
  change (Prim2SF NaN) with S754_nan. destruct (Prim2SF x); reflexivity.
Qed.


(** Every value but NaN is [===] to itself. *)
Lemma strict_eq_refl (v : Value) : v <> VNumber NaN -> strict_eq v v = true.
Proof.
  intros H. destruct v as [| |b|x|s|r|r]; cbn; try apply bool_decide_eq_true_2;
    try reflexivity.
  apply Number_eqb_refl. congruence.
Qed.

(** Two values that are [===] are the same value, or two numbers that
    compare equal. *)
Lemma strict_eq_eq (a b : Value) :
  strict_eq a b = true ->
  a = b \/ exists x y, a = VNumber x /\ b = VNumber y /\ PrimFloat.eqb x y = true.
Proof.
  destruct a as [| |x|x|x|x|x], b as [| |y|y|y|y|y]; cbn;
    intros H; try discriminate; try (left; apply bool_decide_eq_true in H; exact H).
  right. eauto.
Qed.

(** What is not a number is [===] only to itself. *)
Lemma strict_eq_eq_other (a b : Value) :
  (forall x, a <> VNumber x) -> strict_eq a b = true -> a = b.
Proof.
  intros Ha H. apply strict_eq_eq in H as [H|(x & y & -> & _)]; [exact H|].
  exfalso. eapply Ha. reflexivity.
Qed.

End JSProperties.

(* ===================================================================== *)
(** ** Properties of the reconciler *)
(* ===================================================================== *)

Module DomProperties.
Import JS Dom Scenarios JSProperties.

Section WithHost.

Context {host : Host}.

(** *** The step budget *)

(** A result obtained within a budget is the result for every larger one. *)
Lemma fuel_S (fuel : nat) :
  (forall o n p ps r,
      diffNode fuel o n p ps = Some r -> diffNode (S fuel) o n p ps = Some r) /\
  (forall p news keyed st r,
      diffChildren_loop fuel p news keyed st = Some r ->
      diffChildren_loop (S fuel) p news keyed st = Some r).
Proof.
  induction fuel as [|fuel [IHn IHl]]; [split; intros; discriminate|].
  split.
  - intros o n p ps r H.
    remember (S fuel) as f eqn:Hf.
    rewrite Hf in H at 1. cbn [diffNode] in H.
    cbn [diffNode].
    destruct n as [n|]; [|exact H].
    destruct o as [o|]; [|exact H].
    destruct (negb (bool_decide (type o = type n))); [exact H|].
    destruct (_dom o) as [d|]; [|exact H].
    unfold diffChildren_body in *.
    match type of H with
    | context [diffChildren_loop fuel ?a ?b ?c ?d] =>
        destruct (diffChildren_loop fuel a b c d) eqn:E; [|discriminate]
    end.
    apply IHl in E. rewrite E. exact H.
  - intros p news keyed st r H.
    remember (S fuel) as f eqn:Hf.
    rewrite Hf in H at 1. cbn [diffChildren_loop] in H.
    cbn [diffChildren_loop].
    destruct (negb (loop_cond st)); [exact H|].
    repeat match type of H with
    | context [if ?c then _ else _] => destruct c
    | context [match diffNode fuel ?a ?b ?c ?d with _ => _ end] =>
        let E := fresh "E" in
        destruct (diffNode fuel a b c d) eqn:E;
          [apply IHn in E; rewrite E|discriminate]
    | context [match newHeadVNode ?a ?b with _ => _ end] =>
        destruct (newHeadVNode a b)
    | context [match key ?a with _ => _ end] => destruct (key a)
    | context [match ?m !! ?k with _ => _ end] => destruct (m !! k) as [[? ?]|]
    end; try (apply IHl in H; exact H).
Qed.

Lemma diffNode_fuel_add (extra fuel : nat) o n p ps r :
  diffNode fuel o n p ps = Some r -> diffNode (extra + fuel) o n p ps = Some r.
Proof.
  intros H. induction extra as [|extra IH]; [exact H|].
  cbn [Nat.add]. apply (proj1 (fuel_S _)). exact IH.
Qed.

Lemma diffChildren_loop_fuel_add (extra fuel : nat) p news keyed st r :
  diffChildren_loop fuel p news keyed st = Some r ->
  diffChildren_loop (extra + fuel) p news keyed st = Some r.
Proof.
  intros H. induction extra as [|extra IH]; [exact H|].
  cbn [Nat.add]. apply (proj2 (fuel_S _)). exact IH.
Qed.

Lemma diff_fuel_add (extra fuel : nat) o n p r :
  diff fuel o n p = Some r -> diff (extra + fuel) o n p = Some r.
Proof. apply diffNode_fuel_add. Qed.

(** *** The [while] loop of [diffChildren] *)

Lemma same_key_None_r x : same_key x None = false.
Proof. destruct x; reflexivity. Qed.

(** Once the new range is used up while the old range is not, an iteration
    only increments [newHead]: the condition of the loop stays true, and no
    budget is enough to leave it. *)
Lemma loop_stuck (fuel : nat) p news keyed st :
  newTail st < newHead st ->
  oldHead st <= oldTail st ->
  diffChildren_loop fuel p news keyed st = None.
Proof.
  revert st. induction fuel as [|fuel IH]; intros st Hnew Hold; [reflexivity|].
  cbn [diffChildren_loop].
  assert (Hc : loop_cond st = true).
  { unfold loop_cond. apply orb_true_iff. right. lia. }
  rewrite Hc. cbn [negb].
  assert (Hnh : newHeadVNode news st = None).
  { unfold newHeadVNode. destruct (newHead st <=? newTail st) eqn:E; [lia|reflexivity]. }
  assert (Hnt : newTailVNode news st = None).
  { unfold newTailVNode. destruct (newHead st <=? newTail st) eqn:E; [lia|reflexivity]. }
  rewrite Hnh, Hnt, !same_key_None_r.
  apply IH; cbn; lia.
Qed.

(** C3. The keyed child-diff loop does not terminate for every pair of
    child lists: with at least one old child and no new child,
    [diffChildren] has no result, whatever the step budget; the ranges are
    never both exhausted and no [REMOVE] is ever produced. *)
Theorem diffChildren_old_without_new_diverges
    (fuel : nat) (parentDom : Node) (o : VNode) (olds : list VNode)
    (patches : list Patch) :
  diffChildren fuel parentDom (o :: olds) [] patches = None.
Proof.
  unfold diffChildren, diffChildren_body.
  rewrite loop_stuck; [reflexivity| |]; cbn [newTail newHead oldHead oldTail].
  - cbn. lia.
  - rewrite length_map. cbn [length]. lia.
Qed.

(** The same through [diff]: removing the last child of a committed node. *)
Lemma diff_child_removed_diverges (fuel : nat) (parentDom : Node) :
  diff fuel (Some one_child) (Some (ul [] None)) parentDom = None.
Proof.
  destruct fuel as [|fuel]; [reflexivity|].
  unfold diff. cbn [diffNode]. unfold diffChildren_body. cbn -[diffChildren_loop].
  rewrite loop_stuck; [reflexivity| |]; cbn; lia.
Qed.

(** *** The node rules on small inputs *)

(** Props [{class:"x", id:"1"}] against [{class:"y"}]. *)
Lemma diffProps_set_and_remove (d : Node) :
  diffProps d [("class", VString "x"); ("id", VString "1")]%string
              [("class", VString "y")]%string []
  = [SET_PROP d "class" (VString "y"); REMOVE_PROP d "id" (VString "1")].
Proof. reflexivity. Qed.

(** A bound [Button] against a [Text]: one [REPLACE], no prop patch. *)
Lemma diff_type_change (d parentDom : Node) (ps ps' : VNodeProps) :
  diff 1 (Some (mkVNode (TTag "Button") ps [] None (Some d)))
         (Some (mkVNode (TTag "Text") ps' [] None None)) parentDom
  = Some [REPLACE d (mkVNode (TTag "Text") ps' [] None None)].
Proof. reflexivity. Qed.

(** *** Unbound old nodes *)

(** C10. When the old node is not null and has no binding, [diffNode]
    pushes nothing, whether the new node is null (removal), of another type
    (replacement) or of the same type; so [diff] returns the empty list. *)
Theorem diff_unbound_old_no_patch
    (fuel : nat) (old : VNode) (new : option VNode) (parentDom : Node) :
  _dom old = None ->
  diff (S fuel) (Some old) new parentDom = Some [] /\
  forall patches, diffNode (S fuel) (Some old) new parentDom patches = Some patches.
Proof.
  intros Hd.
  assert (H : forall patches,
             diffNode (S fuel) (Some old) new parentDom patches = Some patches).
  { intros ps. cbn [diffNode]. rewrite Hd.
    destruct new as [n|]; [|reflexivity].
    destruct (negb (bool_decide (type old = type n))); reflexivity. }
  split; [apply H|exact H].
Qed.


(** *** Identical trees *)

Lemma VNode_children_ind (P : VNode -> Prop) :
  (forall ty ps cs k d, Forall P cs -> P (mkVNode ty ps cs k d)) ->
  forall t, P t.
Proof.
  intros H. fix IH 1. intros [ty ps cs k d]. apply H.
  induction cs as [|c cs IHcs]; constructor; [apply IH|exact IHcs].
Qed.

Lemma diffNode_fuel_le (fuel fuel' : nat) o n p ps r :
  (fuel <= fuel')%nat ->
  diffNode fuel o n p ps = Some r -> diffNode fuel' o n p ps = Some r.
Proof.
  intros Hle H. replace fuel' with ((fuel' - fuel) + fuel)%nat by lia.
  apply diffNode_fuel_add. exact H.
Qed.

Lemma diffChildren_loop_fuel_le (fuel fuel' : nat) p news keyed st r :
  (fuel <= fuel')%nat ->
  diffChildren_loop fuel p news keyed st = Some r ->
  diffChildren_loop fuel' p news keyed st = Some r.
Proof.
  intros Hle H. replace fuel' with ((fuel' - fuel) + fuel)%nat by lia.
  apply diffChildren_loop_fuel_add. exact H.
Qed.

Lemma prop_get_not_NaN (ps : VNodeProps) (name : string) :
  forallb (fun p => negb (bool_decide (p.2 = VNumber NaN))) ps = true ->
  prop_get ps name <> VNumber NaN.
Proof.
  induction ps as [|[n v] ps IH]; cbn; [discriminate|].
  intros H. apply andb_true_iff in H as [Hv Hps].
  apply negb_true_iff, bool_decide_eq_false in Hv.
  destruct (bool_decide (n = name)); [exact Hv|apply IH; exact Hps].
Qed.

Lemma prop_in_elem (ps : VNodeProps) (name : string) :
  name ∈ map fst ps -> prop_in name ps = true.
Proof.
  induction ps as [|[n v] ps IH]; cbn; [intros H; inversion H|].
  intros H. case_bool_decide as E; [reflexivity|].
  apply elem_of_cons in H as [->|H]; [congruence|apply IH; exact H].
Qed.

(** The props of a node against themselves give no patch. *)
Lemma diffProps_same (d : Node) (ps : VNodeProps) (acc : list Patch) :
  forallb (fun p => negb (bool_decide (p.2 = VNumber NaN))) ps = true ->
  diffProps d ps ps acc = acc.
Proof.
  intros H. unfold diffProps.
  assert (H1 : forall names acc0,
    fold_left (fun acc name =>
      if negb (strict_eq (prop_get ps name) (prop_get ps name))
      then acc ++ [SET_PROP d name (prop_get ps name)] else acc) names acc0 = acc0).
  { induction names as [|n names IH]; intros acc0; [reflexivity|].
    cbn [fold_left]. rewrite strict_eq_refl by (apply prop_get_not_NaN; exact H).
    apply IH. }
  rewrite H1.
  assert (H2 : forall names acc0, (forall n, n ∈ names -> n ∈ map fst ps) ->
    fold_left (fun acc name =>
      if negb (prop_in name ps)
      then acc ++ [REMOVE_PROP d name (prop_get ps name)] else acc) names acc0 = acc0).
  { induction names as [|n names IH]; intros acc0 Hin; [reflexivity|].
    cbn [fold_left]. rewrite prop_in_elem by (apply Hin; left).
    apply IH. intros m Hm. apply Hin. right. exact Hm. }
  apply H2. auto.
Qed.

Lemma remove_old_app (olds : list (option VNode)) (acc : list Patch) :
  remove_old olds acc =
  acc ++ omap (fun o => match o with
                        | Some c => option_map REMOVE (_dom c)
                        | None => None
                        end) olds.
Proof.
  unfold remove_old. revert acc.
  induction olds as [|o olds IH]; intros acc;
    [cbn; rewrite app_nil_r; reflexivity|].
  cbn [fold_left]. rewrite IH.
  destruct o as [c|]; [|reflexivity].
  cbn. destruct (_dom c) as [d|]; cbn; [rewrite <- app_assoc|]; reflexivity.
Qed.

Lemma remove_old_Some (cs : list VNode) (acc : list Patch) :
  remove_old (map Some cs) acc = acc ++ omap (fun c => option_map REMOVE (_dom c)) cs.
Proof.
  rewrite remove_old_app. f_equal.
  induction cs as [|c cs IH]; [reflexivity|]. cbn. rewrite IH. reflexivity.
Qed.

Lemma at_index_middle {A} (pre : list A) (x : A) (post : list A) :
  at_index (pre ++ x :: post) (Z.of_nat (length pre)) = Some x.
Proof.
  unfold at_index. destruct (Z.ltb_spec (Z.of_nat (length pre)) 0) as [E|E]; [lia|].
  rewrite Nat2Z.id. apply list_lookup_middle. reflexivity.
Qed.

(** The loop on the children of a node against themselves, from the point
    where [pre] has been consumed: it consumes [post] head to head, writes
    no tombstone and records no move. *)
Lemma self_diff_loop (p : Node) keyed (post : list VNode) :
  Forall (fun c => NaN_free c = true /\
            exists fuel, forall q ps,
              diffNode fuel (Some c) (Some c) q ps = Some (ps ++ self_diff c)) post ->
  forall pre,
  let cs := pre ++ post in
  let n := Z.of_nat (length cs) in
  let i := Z.of_nat (length pre) in
  exists fuel, forall ps,
    diffChildren_loop fuel p cs keyed (mkLoop (map Some cs) i (n - 1) i (n - 1) [] ps)
    = Some (mkLoop (map Some cs) n (n - 1) n (n - 1) []
              (ps ++ concat (map self_diff post))).
Proof.
  induction 1 as [|c post [Hc [fc Hfc]] Hpost IH]; intros pre cs n i.
  - exists 1%nat. intros ps. cbn [diffChildren_loop].
    subst cs n i. rewrite app_nil_r.
    unfold loop_cond. cbn [newHead newTail oldHead oldTail].
    replace (Z.of_nat (length pre) <=? Z.of_nat (length pre) - 1) with false
      by (symmetry; apply Z.leb_gt; lia).
    cbn. rewrite app_nil_r. reflexivity.
  - specialize (IH (pre ++ [c])).
    cbn zeta in IH. rewrite <- app_assoc in IH. cbn [app] in IH. fold cs in IH.
    destruct IH as [fr Hfr].
    exists (S (Nat.max fc fr)). intros ps. cbn [diffChildren_loop].
    assert (Hlen : n = i + 1 + Z.of_nat (length post)).
    { subst n i cs. rewrite length_app. cbn [length]. lia. }
    unfold loop_cond. cbn [newHead newTail oldHead oldTail].
    replace (i <=? n - 1) with true by (symmetry; apply Z.leb_le; lia). cbn [orb negb].
    assert (Hoh : oldHeadVNode (mkLoop (map Some cs) i (n - 1) i (n - 1) [] ps) = Some c).
    { unfold oldHeadVNode. cbn [oldHead oldTail oldChildren].
      replace (i <=? n - 1) with true by (symmetry; apply Z.leb_le; lia).
      subst cs i. rewrite map_app. cbn [map].
      rewrite <- (length_map Some pre), at_index_middle. reflexivity. }
    assert (Hnh : newHeadVNode cs (mkLoop (map Some cs) i (n - 1) i (n - 1) [] ps) = Some c).
    { unfold newHeadVNode. cbn [newHead newTail].
      replace (i <=? n - 1) with true by (symmetry; apply Z.leb_le; lia).
      subst cs i. apply at_index_middle. }
    rewrite Hoh, Hnh.
    assert (Hk : same_key (Some c) (Some c) = true).
    { cbn [same_key]. apply strict_eq_refl.
      destruct c as [ty pps ccs k d]. cbn in Hc |- *.
      apply andb_true_iff in Hc as [Hc _]. apply andb_true_iff in Hc as [Hc _].
      apply negb_true_iff, bool_decide_eq_false in Hc. exact Hc. }
    rewrite Hk. cbn [patches oldChildren oldHead oldTail newHead newTail moves].
    rewrite (diffNode_fuel_le fc (Nat.max fc fr) _ _ _ _ _ (Nat.le_max_l _ _) (Hfc p ps)).
    apply (diffChildren_loop_fuel_le fr); [apply Nat.le_max_r|].
    replace (Z.of_nat (length (pre ++ [c]))) with (i + 1) in Hfr
      by (subst i; rewrite length_app; cbn [length]; lia).
    rewrite Hfr. cbn [map concat]. rewrite <- app_assoc. reflexivity.
Qed.

(** [diff(T, T)] for a tree without NaN: some budget is enough, and the
    result is [self_diff T]. *)
Lemma diffNode_same_tree (t : VNode) :
  NaN_free t = true ->
  exists fuel, forall q ps,
    diffNode fuel (Some t) (Some t) q ps = Some (ps ++ self_diff t).
Proof.
  induction t as [ty pps cs k d IH] using VNode_children_ind. intros Hfree.
  cbn in Hfree. apply andb_true_iff in Hfree as [Hfree Hcs].
  apply andb_true_iff in Hfree as [Hk Hps].
  destruct d as [d|].
  2:{ exists 1%nat. intros q ps. cbn. rewrite bool_decide_eq_true_2 by reflexivity.
      cbn. rewrite app_nil_r. reflexivity. }
  assert (Hall : Forall (fun c => NaN_free c = true /\
            exists fuel, forall q ps,
              diffNode fuel (Some c) (Some c) q ps = Some (ps ++ self_diff c)) cs).
  { apply Forall_forall. intros c Hin. 
    assert (Hc : NaN_free c = true).
    { rewrite forallb_forall in Hcs. apply Hcs. apply list_elem_of_In. exact Hin. }
    split; [exact Hc|]. rewrite Forall_forall in IH. apply IH; assumption. }
  destruct (self_diff_loop d (build_oldKeyed (map Some cs) 0 ∅) cs Hall [])
    as [fl Hloop].
  cbn zeta in Hloop. cbn [app length] in Hloop.
  exists (S fl). intros q ps. cbn [diffNode type _dom props children].
  unfold diffChildren_body.
  rewrite bool_decide_eq_true_2 by reflexivity. cbn [negb].
  rewrite diffProps_same by exact Hps.
  rewrite length_map. change (Z.of_nat 0) with 0 in Hloop.
  rewrite Hloop. unfold finish_children. cbn [moves oldChildren patches].
  rewrite remove_old_Some, <- app_assoc. reflexivity.
Qed.

Lemma diff_same_tree (t : VNode) (parentDom : Node) :
  NaN_free t = true ->
  exists fuel, forall extra,
    diff (extra + fuel) (Some t) (Some t) parentDom = Some (self_diff t).
Proof.
  intros H. destruct (diffNode_same_tree t H) as [fuel Hf].
  exists fuel. intros extra. apply diff_fuel_add. apply (Hf parentDom []).
Qed.

(** A bound node with a bound child: [diff(T, T)] is not empty. *)
Lemma diff_same_tree_not_empty (t c : VNode) (parentDom : Node) :
  NaN_free t = true ->
  is_Some (_dom t) -> c ∈ children t -> is_Some (_dom c) ->
  exists fuel r, diff fuel (Some t) (Some t) parentDom = Some r /\ r <> [].
Proof.
  intros Hfree [d Hd] Hin [dc Hdc].
  destruct (diff_same_tree t parentDom Hfree) as [fuel Hf].
  exists fuel, (self_diff t). split; [apply (Hf 0%nat)|].
  destruct t as [ty pps cs k dt]. cbn in Hd, Hin |- *. subst dt.
  intros Habs. apply app_eq_nil in Habs as [_ Habs].
  assert (Hr : REMOVE dc ∈ omap (fun c0 => option_map REMOVE (_dom c0)) cs).
  { apply list_elem_of_omap. exists c. split; [exact Hin|]. rewrite Hdc. reflexivity. }
  rewrite Habs in Hr. inversion Hr.
Qed.

(** C2. [diff(T, T)] is not empty for every tree: for the committed tree
    [one_child], whose only child is bound, it holds a [REMOVE] of that
    child. The loop after the [while] visits every old child that is not a
    tombstone, also those the [while] loop matched. *)
Theorem diff_same_tree_removes_bound_child (fuel : nat) (parentDom : Node) :
  diff (4 + fuel) (Some one_child) (Some one_child) parentDom
  = Some [REMOVE 1%positive].
Proof.
  rewrite Nat.add_comm. apply diff_fuel_add. reflexivity.
Qed.

(** *** The reordering scenario *)

(** C4. For old children a, b, c and new children c, a, b the patches are
    three [REMOVE]s, one per bound old child, and no [REORDER_CHILDREN]:
    the old-tail/new-head match records no move, and the remaining
    children match head to head. *)
Theorem diff_rotation_patches
    (fuel : nat) (dc da db dr : option Node) (parentDom : Node) :
  diff (6 + fuel) (Some old_abc) (Some (new_cab dc da db dr)) parentDom
  = Some [REMOVE 1%positive; REMOVE 2%positive; REMOVE 3%positive].
Proof.
  rewrite Nat.add_comm. apply diff_fuel_add. reflexivity.
Qed.

(** *** [h] *)

(** C7. [h] drops no child. For the children [[null, 'x']] the result has
    two entries, an empty placeholder node for [null] and the text node of
    ['x'], and so differs from the list with the empty children dropped,
    which the comment above the [map] announces. *)
Theorem h_keeps_null_child :
  children (h (TTag "div") None [One ChNull; One (ChString "x")] None)
  = [mkVNode TNull [] [] None None;
     mkVNode TNull [("nodeValue"%string, VString "x")] [] None None]
  /\ children (h (TTag "div") None [One ChNull; One (ChString "x")] None)
     <> children_dropping_empty (flat [One ChNull; One (ChString "x")]).
Proof. split; [reflexivity|discriminate]. Qed.

(** What [h] does instead: the children of the result have one entry for
    every child of the flattened argument, in order: a text node holding
    [String(child)] for a string or a number, an empty placeholder text
    node for [null], [undefined], [true] and [false], and the node itself
    for a node. *)
Lemma h_children_one_per_child
    (ty : VType) (ps : option VNodeProps) (cs : list ChildArg) (k : option Key) :
  length (children (h ty ps cs k)) = length (flat cs) /\
  Forall2 child_becomes (flat cs) (children (h ty ps cs k)).
Proof.
  cbn [h children]. split; [apply length_map|].
  induction (flat cs) as [|c l IH]; [constructor|].
  cbn [map]. constructor; [|exact IH].
  destruct c; constructor.
Qed.

End WithHost.

(** *** The theorems at inputs *)

#[local] Existing Instance host_for_strings.

(** An unbound [li] against a [ul]. *)
Lemma diff_unbound_old_no_patch_witness :
  _dom (li "a" None) = None /\
  diff 1 (Some (li "a" None)) (Some (ul [] None)) 7%positive = Some [].
Proof.
  split; [reflexivity|].
  apply (diff_unbound_old_no_patch 0 (li "a" None) (Some (ul [] None)) 7%positive).
  reflexivity.
Defined.

End DomProperties.


(* ===================================================================== *)
(** ** Properties of the reactive store *)
(* ===================================================================== *)

Module ReactiveProperties.
Import JS Reactive ReactiveScenarios ReactiveInvariants JSProperties.

(** *** What the helpers leave alone *)

Lemma setCurrentConsumer_stack c w :
  consumerStack (setCurrentConsumer c w) =
  match c with
  | Some x => consumerStack w ++ [x]
  | None => removelast (consumerStack w)
  end.
Proof.
  unfold setCurrentConsumer. destruct c as [x|]; cbn; [reflexivity|].
  destruct (consumerStack w); reflexivity.
Qed.

Lemma setCurrentConsumer_current c w :
  currentConsumer (setCurrentConsumer c w) = last (consumerStack (setCurrentConsumer c w)).
Proof. reflexivity. Qed.

Lemma removeDependent_context a d w :
  consumerStack (Atom__removeDependent a d w) = consumerStack w /\
  currentConsumer (Atom__removeDependent a d w) = currentConsumer w /\
  effects (Atom__removeDependent a d w) = effects w.
Proof. repeat split. Qed.

Lemma unsubscribe_context e w :
  consumerStack (unsubscribe e w) = consumerStack w /\
  currentConsumer (unsubscribe e w) = currentConsumer w.
Proof.
  unfold unsubscribe. cbn.
  generalize (_deps (effect_at w e)). intros l. revert w.
  induction l as [|d l IH]; intros w; [split; reflexivity|].
  cbn [fold_left]. destruct (IH (Atom__removeDependent d (CEffect e) w)) as [H1 H2].
  rewrite H1, H2. split; reflexivity.
Qed.

(** *** The consumer stack around an execution *)

(** From an empty stack, an execution whose function leaves the stack as it
    found it ends with the stack empty again, whether the function returns
    or throws. *)
Lemma execute_top_level_restores (e : EffectId) (fn : M unit) (w : World) :
  consumerStack w = [] ->
  currentConsumer w = None ->
  (forall w', consumerStack (snd (fn w')) = consumerStack w') ->
  consumerStack (snd (AtomEffect__execute e fn w)) = [] /\
  currentConsumer (snd (AtomEffect__execute e fn w)) = None.
Proof.
  intros Hs Hc Hfn. unfold AtomEffect__execute.
  destruct (_isDisposed (effect_at w e)); [split; assumption|].
  unfold try_finally.
  destruct (unsubscribe_context e w) as [Hus Huc].
  rewrite Huc, Hc.
  match goal with |- context [fn ?x] => specialize (Hfn x); destruct (fn x) as [r w1] end.
  cbn [snd] in *.
  rewrite setCurrentConsumer_stack, Hus, Hs in Hfn. cbn in Hfn.
  rewrite setCurrentConsumer_current, setCurrentConsumer_stack, Hfn.
  split; reflexivity.
Qed.

(** Under an active consumer [c], the [finally] block pushes [c] instead of
    popping: the execution leaves two more entries on the stack. *)
Lemma execute_nested_grows_stack (e : EffectId) (fn : M unit) (w : World) (c : Consumer) :
  _isDisposed (effect_at w e) = false ->
  currentConsumer w = Some c ->
  (forall w', consumerStack (snd (fn w')) = consumerStack w') ->
  consumerStack (snd (AtomEffect__execute e fn w)) = consumerStack w ++ [CEffect e; c].
Proof.
  intros Hd Hc Hfn. unfold AtomEffect__execute. rewrite Hd.
  unfold try_finally.
  destruct (unsubscribe_context e w) as [Hus Huc].
  rewrite Huc, Hc.
  match goal with |- context [fn ?x] => specialize (Hfn x); destruct (fn x) as [r w1] end.
  cbn [snd] in *.
  rewrite setCurrentConsumer_stack, Hus in Hfn.
  rewrite setCurrentConsumer_stack, Hfn, <- app_assoc. reflexivity.
Qed.

(** C9. The consumer stack is not restored by every execution: when effect
    1 constructs effect 2 in its function, the construction of effect 1 from
    an empty stack returns with both effects on the stack and effect 2 as
    the current consumer. *)
Theorem nested_effect_leaves_consumer_stack :
  let w := snd (new_AtomEffect 1%positive (new_AtomEffect 2%positive (ret tt)) empty_world) in
  consumerStack empty_world = [] /\
  consumerStack w = [CEffect 1%positive; CEffect 2%positive] /\
  currentConsumer w = Some (CEffect 2%positive).
Proof. repeat split. Qed.

(** *** [set] *)

(** The two ways a [set] ends: nothing touched, or the value stored, the
    atom dirty and stamped with the incremented epoch, pending, and a flush
    scheduled. *)
Lemma set_resolved_cases
    (JSON_stringify : Value -> option (option string))
    (w : World) (a : AtomId) (finalValue : Value) :
  let obj := atom_at w a in
  let w' := snd (set_resolved JSON_stringify a finalValue w) in
  fst (set_resolved JSON_stringify a finalValue w) = Normal tt /\
  if Atom__isEqual JSON_stringify (_value obj) finalValue
  then w' = w
  else
    atom_at w' a = mkAtom finalValue (_dependents obj) (_dependencies obj) true
                     (globalEpoch w') (_name obj) /\
    globalEpoch w' = globalEpoch w + 1 /\
    globalEpoch w < _lastChangedEpoch (atom_at w' a) /\
    pendingAtoms w' =
      (if bool_decide (a ∈ pendingAtoms w) then pendingAtoms w
       else pendingAtoms w ++ [a]) /\
    a ∈ pendingAtoms w' /\
    isBatchScheduled w' = true /\
    microtasks w' =
      (if isBatchScheduled w then microtasks w else S (microtasks w)).
Proof.
  intros obj w'. subst w'. unfold set_resolved.
  fold obj.
  destruct (Atom__isEqual JSON_stringify (_value obj) finalValue); cbn [negb].
  - split; reflexivity.
  - split; [reflexivity|]. cbn [snd].
    unfold scheduleFlush.
    assert (Hat : forall w0 : World, atom_at w0 a = atoms w0 !!! a) by reflexivity.
    destruct (isBatchScheduled w) eqn:Hb; case_bool_decide as Hin; cbn in Hin;
      cbn; rewrite ?Hb; cbn; rewrite ?Hat; cbn; rewrite ?lookup_total_insert_eq;
      rewrite ?(bool_decide_eq_true_2 _ Hin), ?(bool_decide_eq_false_2 _ Hin);
      repeat split; cbn; try lia; try assumption.
    all: apply elem_of_app; right; apply list_elem_of_singleton; reflexivity.
Qed.

(** [set] is the resolution of its argument followed by the rest. *)
Lemma Atom_set_unfold
    (JSON_stringify : Value -> option (option string))
    (call : positive -> Value -> M Value)
    (a : AtomId) (newValue : Value) (w : World) :
  Atom_set JSON_stringify call a newValue w =
  match resolve call a newValue w with
  | (Normal v, w1) => set_resolved JSON_stringify a v w1
  | (Throw x, w1) => (Throw x, w1)
  end.
Proof. reflexivity. Qed.

Lemma resolve_value (call : positive -> Value -> M Value)
    (a : AtomId) (v : Value) (w : World) :
  is_function v = false -> resolve call a v w = (Normal v, w).
Proof. destruct v; intros H; try discriminate; reflexivity. Qed.

(** With a value that is no function, [set] is the rest alone. *)
Lemma Atom_set_value
    (JSON_stringify : Value -> option (option string))
    (call : positive -> Value -> M Value)
    (a : AtomId) (v : Value) (w : World) :
  is_function v = false ->
  Atom_set JSON_stringify call a v w = set_resolved JSON_stringify a v w.
Proof. intros H. rewrite Atom_set_unfold, (resolve_value call a v w H). reflexivity. Qed.

(** What holds of the world through every call of a function and through
    the rest of [set] holds through [set]. *)
Lemma Atom_set_invariant (P : World -> Prop)
    (JSON_stringify : Value -> option (option string))
    (call : positive -> Value -> M Value)
    (a : AtomId) (newValue : Value) (w : World) :
  (forall f v w0, P w0 -> P (snd (call f v w0))) ->
  (forall v w0, P w0 -> P (snd (set_resolved JSON_stringify a v w0))) ->
  P w -> P (snd (Atom_set JSON_stringify call a newValue w)).
Proof.
  intros Hcall Hset Hw. rewrite Atom_set_unfold.
  destruct newValue as [| |b|x|s|r|f]; cbn [resolve]; try (apply Hset; exact Hw).
  specialize (Hcall f (_value (atom_at w a)) w Hw).
  destruct (call f (_value (atom_at w a)) w) as [[v|x] w1]; cbn [snd] in *;
    [apply Hset|]; exact Hcall.
Qed.

(** *** [get] *)

Lemma addDependent_has a d w :
  has_dependent d (atom_at (Atom__addDependent a d w) a) = true.
Proof.
  unfold Atom__addDependent.
  destruct (has_dependent d (atom_at w a)) eqn:E; [exact E|].
  unfold atom_at. cbn. rewrite lookup_total_insert_eq.
  unfold has_dependent. cbn. apply bool_decide_eq_true_2.
  rewrite map_app. apply elem_of_app. right. cbn. apply list_elem_of_singleton. reflexivity.
Qed.

Lemma addDependent_frame a d w x :
  _value (atom_at (Atom__addDependent a d w) x) = _value (atom_at w x) /\
  _dependencies (atom_at (Atom__addDependent a d w) x) = _dependencies (atom_at w x) /\
  effects (Atom__addDependent a d w) = effects w.
Proof.
  unfold Atom__addDependent.
  destruct (has_dependent d (atom_at w a)); [repeat split|].
  unfold atom_at. cbn.
  destruct (decide (a = x)) as [->|Hne].
  - rewrite lookup_total_insert_eq. repeat split.
  - rewrite lookup_total_insert_ne by exact Hne. repeat split.
Qed.


(** [inside_effect_1] is where [new AtomEffect(fn)] runs [fn]. *)
Lemma inside_effect_1_reached (fn : M unit) :
  (new_Atom atom_a (VBool false) None >>> new_AtomEffect effect_1 fn) empty_world
  = try_finally fn (setCurrentConsumer None) inside_effect_1.
Proof. reflexivity. Qed.



(** *** A throw during the flush *)

Lemma unsubscribe_effects_at e w x :
  _isDisposed (effect_at (unsubscribe e w) x) = _isDisposed (effect_at w x).
Proof.
  unfold unsubscribe.
  assert (H : forall l w0, effects (fold_left
              (fun acc dep => Atom__removeDependent dep (CEffect e) acc) l w0) = effects w0).
  { induction l as [|d l IH]; intros w0; [reflexivity|]. cbn [fold_left]. rewrite IH. reflexivity. }
  unfold effect_at. cbn. rewrite !H.
  destruct (decide (e = x)) as [->|Hne].
  - rewrite lookup_total_insert_eq. reflexivity.
  - rewrite lookup_total_insert_ne by exact Hne. reflexivity.
Qed.

(** An execution whose function throws ends by throwing, after the
    [finally] block has run on the world the function left. *)
Lemma execute_throw (e : EffectId) (fn : M unit) (w : World) (x : Value) :
  _isDisposed (effect_at w e) = false ->
  let ws := setCurrentConsumer (Some (CEffect e)) (unsubscribe e w) in
  fst (fn ws) = Throw x ->
  AtomEffect__execute e fn w = (Throw x, setCurrentConsumer (currentConsumer w) (snd (fn ws))).
Proof.
  intros Hd ws Hx. unfold AtomEffect__execute. rewrite Hd.
  unfold try_finally. fold ws.
  destruct (fn ws) as [r wf]. cbn [fst snd] in *. subst r.
  rewrite (proj2 (unsubscribe_context e w)). reflexivity.
Qed.

(** C1, amended. When the function of the first effect notified in a flush
    throws, [flushPendingAtoms] does not catch it: the flush ends by
    throwing the same value, in the world the function left behind with the
    consumer reset by the [finally] block. Nothing that comes later in the
    flush is notified: neither the other dependents of the atom nor the
    other pending atoms, so their effects do not run in this flush. *)
Theorem flush_stops_at_throwing_effect
    (fns : EffectId -> M unit) (w : World) (a : AtomId) (rest : list AtomId)
    (e : EffectId) (more : list Consumer) (x : Value) :
  let w0 := set_atom a (with_isDirty false (atom_at w a))
              (set_pendingAtoms [] (set_isBatchScheduled false w)) in
  let ws := setCurrentConsumer (Some (CEffect e)) (unsubscribe e w0) in
  sort_by (fun a => _lastChangedEpoch (atom_at w a)) (pendingAtoms w) = a :: rest ->
  _isDirty (atom_at w a) = true ->
  sortedDependents (atom_at w a) = CEffect e :: more ->
  _isDisposed (effect_at w e) = false ->
  fst (fns e ws) = Throw x ->
  flushPendingAtoms fns w =
    (Throw x, setCurrentConsumer (currentConsumer w) (snd (fns e ws))).
Proof.
  intros w0 ws Hsort Hdirty Hdeps Hdisp Hthrow.
  unfold flushPendingAtoms.
  change (pendingAtoms (set_isBatchScheduled false w)) with (pendingAtoms w).
  change (fun a0 => _lastChangedEpoch (atom_at (set_isBatchScheduled false w) a0))
    with (fun a0 => _lastChangedEpoch (atom_at w a0)).
  rewrite Hsort. cbn [for_of]. unfold bind at 1.
  unfold Atom__notifyDependents at 1.
  change (atom_at (set_pendingAtoms [] (set_isBatchScheduled false w)) a) with (atom_at w a).
  rewrite Hdirty, Hdeps. fold w0. cbn [for_of]. unfold bind at 1.
  cbn [notify_dependent]. unfold AtomEffect_run.
  rewrite (execute_throw e (fns e) w0 x); [reflexivity| |exact Hthrow].
  exact Hdisp.
Qed.

(** The flush after [throwing_turn]. *)
Lemma flush_stops_at_throwing_effect_witness :
  let w := snd (throwing_turn empty_world) in
  sort_by (fun a => _lastChangedEpoch (atom_at w a)) (pendingAtoms w) = [atom_a; atom_b] /\
  sortedDependents (atom_at w atom_a) = [CEffect effect_1] /\
  fst (flushPendingAtoms throwing_fns w) = Throw (VString "boom").
Proof.
  split; [reflexivity|]. split; [reflexivity|].
  rewrite (flush_stops_at_throwing_effect throwing_fns (snd (throwing_turn empty_world))
             atom_a [atom_b] effect_1 [] (VString "boom"));
    reflexivity.
Defined.

(** C1, as the claim has it. After [throwing_turn] the atoms [a] and [b] are
    pending, effect 1 depends on [a] and effect 2 on [b]. The flush ends by
    throwing what effect 1 threw; effect 2 has logged nothing, its atom is
    still dirty and no longer pending. *)
Lemma flush_throw_skips_other_effect :
  let w := snd (throwing_turn empty_world) in
  let r := flushPendingAtoms throwing_fns w in
  pendingAtoms w = [atom_a; atom_b] /\
  sortedDependents (atom_at w atom_a) = [CEffect effect_1] /\
  sortedDependents (atom_at w atom_b) = [CEffect effect_2] /\
  log w = [num 0] /\
  fst r = Throw (VString "boom") /\
  log (snd r) = [num 0] /\
  _isDirty (atom_at (snd r) atom_b) = true /\
  pendingAtoms (snd r) = [].
Proof. repeat split. Qed.

(** *** Writes of one turn and the flush that follows *)

Lemma sort_insert_perm {X} (f : X -> Z) (x : X) (l : list X) :
  sort_insert f x l ≡ₚ x :: l.
Proof.
  induction l as [|y l IH]; [reflexivity|]. cbn.
  destruct (f x <=? f y); [reflexivity|].
  rewrite IH. apply perm_swap.
Qed.

Lemma sort_by_perm {X} (f : X -> Z) (l : list X) : sort_by f l ≡ₚ l.
Proof.
  induction l as [|x l IH]; [reflexivity|].
  cbn. rewrite sort_insert_perm, IH. reflexivity.
Qed.


Lemma bind_ret_tt (c : M unit) (w : World) : (c >>> ret tt) w = c w.
Proof. unfold bind, ret. destruct (c w) as [[[]|x] w1]; reflexivity. Qed.

(** The scenario [a.set(1); a.set(2)]: one flush is queued, and it re-runs
    the effect once, which logs 2. *)
Lemma two_writes_one_rerun :
  let w := snd (two_writes_turn empty_world) in
  log w = [num 0] /\
  microtasks w = 1%nat /\
  option_map (fun r => (fst r, log (snd r), microtasks (snd r)))
    (run_microtask (fun _ => log_a) w)
  = Some (Normal tt, [num 0; num 2], 0%nat).
Proof. repeat split. Qed.


(** *** The epoch *)

Lemma stamps_bounded_empty : stamps_bounded empty_world.
Proof. intros x. reflexivity. Qed.

Lemma addDependent_epoch a d w x :
  _lastChangedEpoch (atom_at (Atom__addDependent a d w) x) = _lastChangedEpoch (atom_at w x) /\
  globalEpoch w <= globalEpoch (Atom__addDependent a d w).
Proof.
  unfold Atom__addDependent.
  destruct (has_dependent d (atom_at w a)); [split; [reflexivity|lia]|].
  unfold atom_at. cbn. split; [|lia].
  destruct (decide (a = x)) as [->|Hne].
  - rewrite lookup_total_insert_eq. reflexivity.
  - rewrite lookup_total_insert_ne by exact Hne. reflexivity.
Qed.

Lemma get_epoch a w x :
  _lastChangedEpoch (atom_at (snd (Atom_get a w)) x) = _lastChangedEpoch (atom_at w x) /\
  globalEpoch w <= globalEpoch (snd (Atom_get a w)).
Proof.
  unfold Atom_get. cbn [snd].
  destruct (currentConsumer w) as [[c|e]|]; [| |split; [reflexivity|lia]].
  - unfold Atom__addDependency. case_bool_decide; [split; [reflexivity|lia]|].
    match goal with |- context [Atom__addDependent a (CAtom c) ?w1] =>
      destruct (addDependent_epoch a (CAtom c) w1 x) as [H1 H2] end.
    rewrite H1. cbn in H2. split; [|lia].
    unfold atom_at. cbn. destruct (decide (c = x)) as [->|Hne].
    + rewrite lookup_total_insert_eq. reflexivity.
    + rewrite lookup_total_insert_ne by exact Hne. reflexivity.
  - unfold AtomEffect__addDependency. case_bool_decide; [split; [reflexivity|lia]|].
    match goal with |- context [Atom__addDependent a (CEffect e) ?w1] =>
      destruct (addDependent_epoch a (CEffect e) w1 x) as [H1 H2] end.
    rewrite H1. cbn in H2. split; [reflexivity|lia].
Qed.

(** Reading keeps the stamps below the epoch. *)
Lemma get_keeps_stamps_bounded a w :
  stamps_bounded w -> stamps_bounded (snd (Atom_get a w)).
Proof.
  intros H x. destruct (get_epoch a w x) as [H1 H2]. rewrite H1. specialize (H x). lia.
Qed.

(** The rest of [set] keeps the stamps below the epoch, and when it changes
    the value gives the atom a stamp above every stamp handed out before. *)
Lemma set_resolved_keeps_stamps_bounded JSON a v w :
  stamps_bounded w -> stamps_bounded (snd (set_resolved JSON a v w)).
Proof.
  intros H x.
  destruct (set_resolved_cases JSON w a v) as [_ Hc]. cbn zeta in Hc.
  destruct (Atom__isEqual JSON _ _) eqn:E; [rewrite Hc; apply H|].
  destruct Hc as (Hat & Hep & _).
  destruct (decide (a = x)) as [->|Hne].
  - rewrite Hat. cbn. lia.
  - rewrite Hep. specialize (H x).
    assert (Hx : atom_at (snd (set_resolved JSON a v w)) x = atom_at w x).
    { unfold set_resolved. rewrite E. cbn [negb snd]. unfold scheduleFlush, atom_at.
      cbn. destruct (bool_decide (a ∈ pendingAtoms w)); cbn;
        destruct (isBatchScheduled w); cbn;
        rewrite lookup_total_insert_ne by exact Hne; reflexivity. }
    rewrite Hx. lia.
Qed.

Lemma set_keeps_stamps_bounded JSON call a nv w :
  (forall f v w0, stamps_bounded w0 -> stamps_bounded (snd (call f v w0))) ->
  stamps_bounded w -> stamps_bounded (snd (Atom_set JSON call a nv w)).
Proof.
  intros Hcall. apply Atom_set_invariant; [exact Hcall|].
  intros v w0. apply set_resolved_keeps_stamps_bounded.
Qed.


(** *** What [_isEqual] decides *)

(** Every value but NaN is equal to itself. *)
Lemma isEqual_same JSON (v : Value) :
  v <> VNumber NaN -> Atom__isEqual JSON v v = true.
Proof. intros H. unfold Atom__isEqual. rewrite strict_eq_refl by exact H. reflexivity. Qed.

(** NaN is not: writing NaN over NaN counts as a change. *)
Lemma isEqual_NaN JSON : Atom__isEqual JSON (VNumber NaN) (VNumber NaN) = false.
Proof. reflexivity. Qed.



(** *** The contract of [set] *)





End ReactiveProperties.

(* ===================================================================== *)
(** ** The patches of the reconciler *)
(* ===================================================================== *)

Module DomExtra.
Import JS Dom Scenarios DomInvariants JSProperties DomProperties.

Section WithHost.

Context {host : Host}.

(** *** Patches are only ever appended *)

Lemma fold_append {X} (c : X -> bool) (g : X -> Patch) (l : list X) (acc : list Patch) :
  fold_left (fun acc x => if c x then acc ++ [g x] else acc) l acc =
  acc ++ omap (fun x => if c x then Some (g x) else None) l.
Proof.
  revert acc. induction l as [|x l IH]; intros acc; [cbn; rewrite app_nil_r; reflexivity|].
  cbn [fold_left omap list_omap]. rewrite IH. destruct (c x); [|reflexivity].
  rewrite <- app_assoc. reflexivity.
Qed.

(** [diffProps] as a list: the changed names of the new props, then the
    names of the old props that are gone. *)
Lemma diffProps_list d o n acc :
  diffProps d o n acc =
  acc ++
  omap (fun name =>
          if negb (strict_eq (prop_get o name) (prop_get n name))
          then Some (SET_PROP d name (prop_get n name)) else None) (map fst n) ++
  omap (fun name =>
          if negb (prop_in name n)
          then Some (REMOVE_PROP d name (prop_get o name)) else None) (map fst o).
Proof.
  unfold diffProps.
  rewrite (fold_append (fun name => negb (prop_in name n))
             (fun name => REMOVE_PROP d name (prop_get o name))).
  rewrite (fold_append (fun name => negb (strict_eq (prop_get o name) (prop_get n name)))
             (fun name => SET_PROP d name (prop_get n name))).
  rewrite <- app_assoc. reflexivity.
Qed.

Lemma diffProps_list_elem d o n patch :
  patch ∈ diffProps d o n [] ->
  (exists name, patch = SET_PROP d name (prop_get n name)) \/
  (exists name, patch = REMOVE_PROP d name (prop_get o name)).
Proof.
  rewrite diffProps_list. cbn [app]. rewrite elem_of_app, !list_elem_of_omap.
  intros [(name & _ & H)|(name & _ & H)].
  - left. exists name. destruct (negb _); [|discriminate]. injection H as <-. reflexivity.
  - right. exists name. destruct (negb _); [|discriminate]. injection H as <-. reflexivity.
Qed.

Lemma diffProps_acc d o n acc : diffProps d o n acc = acc ++ diffProps d o n [].
Proof. rewrite (diffProps_list d o n acc), (diffProps_list d o n []). reflexivity. Qed.

Lemma finish_children_acc p ps st :
  finish_children p (with_patches_before ps st) = ps ++ finish_children p st.
Proof.
  unfold finish_children. cbn [oldChildren patches moves with_patches_before].
  rewrite !remove_old_app. destruct (moves st); rewrite <- ?app_assoc; reflexivity.
Qed.

Lemma accumulate (fuel : nat) :
  (forall o n p ps qs,
      diffNode fuel o n p (ps ++ qs) = option_map (app ps) (diffNode fuel o n p qs)) /\
  (forall p news keyed ps st,
      diffChildren_loop fuel p news keyed (with_patches_before ps st) =
      option_map (with_patches_before ps) (diffChildren_loop fuel p news keyed st)).
Proof.
  induction fuel as [|fuel [IHn IHl]]; [split; reflexivity|].
  split.
  - intros o n p ps qs. cbn [diffNode].
    destruct n as [n|].
    2:{ destruct o as [o|]; [|reflexivity].
        destruct (_dom o); cbn [option_map]; rewrite <- ?(app_assoc ps); reflexivity. }
    destruct o as [o|]; [|cbn [option_map]; rewrite <- (app_assoc ps); reflexivity].
    destruct (negb (bool_decide (type o = type n))).
    { destruct (_dom o); cbn [option_map]; rewrite <- ?(app_assoc ps); reflexivity. }
    destruct (_dom o) as [d|]; [|reflexivity].
    unfold diffChildren_body.
    rewrite (diffProps_acc d _ _ (ps ++ qs)), (diffProps_acc d _ _ qs), <- app_assoc.
    match goal with |- context [mkLoop ?a ?b ?c ?e ?f ?g (ps ++ ?h)] =>
      change (mkLoop a b c e f g (ps ++ h))
        with (with_patches_before ps (mkLoop a b c e f g h)) end.
    rewrite IHl.
    match goal with |- context [diffChildren_loop fuel ?a ?b ?c ?e] =>
      destruct (diffChildren_loop fuel a b c e) as [st|] end; [|reflexivity].
    cbn [option_map]. rewrite finish_children_acc. reflexivity.
  - intros p news keyed ps st. cbn [diffChildren_loop].
    change (loop_cond (with_patches_before ps st)) with (loop_cond st).
    change (oldHeadVNode (with_patches_before ps st)) with (oldHeadVNode st).
    change (oldTailVNode (with_patches_before ps st)) with (oldTailVNode st).
    change (newHeadVNode news (with_patches_before ps st)) with (newHeadVNode news st).
    change (newTailVNode news (with_patches_before ps st)) with (newTailVNode news st).
    cbn [patches oldChildren oldHead oldTail newHead newTail moves with_patches_before].
    destruct (negb (loop_cond st)); [reflexivity|].
    repeat match goal with
    | |- context [if same_key ?a ?b then _ else _] => destruct (same_key a b)
    | |- context [diffNode fuel ?a ?b ?c (ps ++ ?q)] =>
        rewrite (IHn a b c ps q); destruct (diffNode fuel a b c q); cbn [option_map]
    | |- context [match newHeadVNode ?a ?b with _ => _ end] =>
        destruct (newHeadVNode a b)
    | |- context [match key ?a with _ => _ end] => destruct (key a)
    | |- context [match ?m !! ?k with _ => _ end] => destruct (m !! k) as [[? ?]|]
    end;
    try reflexivity;
    rewrite <- ?(app_assoc ps);
    match goal with |- context [mkLoop ?a ?b ?c ?e ?f ?g (ps ++ ?h)] =>
      change (mkLoop a b c e f g (ps ++ h))
        with (with_patches_before ps (mkLoop a b c e f g h)) end; apply IHl.
Qed.

(** X13. [diffNode] only appends: when it returns, the list it was handed
    is still in front, unchanged, followed by what [diff] returns for the
    same trees. *)
Theorem diffNode_appends (fuel : nat) (o n : option VNode) (p : Node) (ps : list Patch) :
  diffNode fuel o n p ps = option_map (app ps) (diff fuel o n p).
Proof.
  unfold diff. rewrite <- (app_nil_r ps) at 1. apply (proj1 (accumulate fuel)).
Qed.

(** *** What [diffProps] emits *)

Lemma prop_in_spec (name : string) (ps : VNodeProps) :
  prop_in name ps = true <-> name ∈ map fst ps.
Proof.
  induction ps as [|[n v] ps IH]; cbn.
  - split; [discriminate|]. intros H. inversion H.
  - rewrite elem_of_cons. case_bool_decide as E.
    + split; [auto|reflexivity].
    + rewrite IH. split; [auto|]. intros [->|H]; [congruence|exact H].
Qed.

(** X14. The patches of [diffProps], for old and new props whose names
    are plain, none of them the name of a member of [Object.prototype]: a
    [SET_PROP] with the new value for each name of the new props whose old
    and new values are not [===], a [REMOVE_PROP] with the old value for
    each name of the old props that the new props lack, and nothing
    else. *)
Theorem diffProps_spec (d : Node) (o n : VNodeProps) (patch : Patch) :
  forallb plain_name (map fst o ++ map fst n) = true ->
  patch ∈ diffProps d o n [] <->
  (exists name, name ∈ map fst n /\
                strict_eq (prop_get o name) (prop_get n name) = false /\
                patch = SET_PROP d name (prop_get n name)) \/
  (exists name, name ∈ map fst o /\ (name ∉ map fst n) /\
                patch = REMOVE_PROP d name (prop_get o name)).
Proof.
  intros _. rewrite diffProps_list. cbn [app]. rewrite elem_of_app, !list_elem_of_omap.
  split.
  - intros [(name & Hin & H)|(name & Hin & H)].
    + left. exists name. destruct (strict_eq _ _) eqn:E; [discriminate|].
      cbn in H. injection H as <-. auto.
    + right. exists name. destruct (prop_in name n) eqn:E; [discriminate|].
      cbn in H. injection H as <-. split; [exact Hin|]. split; [|reflexivity].
      intros Hc. apply prop_in_spec in Hc. congruence.
  - intros [(name & Hin & E & ->)|(name & Hin & Hn & ->)].
    + left. exists name. rewrite E. auto.
    + right. exists name. split; [exact Hin|].
      destruct (prop_in name n) eqn:E; [|reflexivity].
      apply prop_in_spec in E. contradiction.
Qed.

(** *** Appending children *)

Lemma build_oldKeyed_absent (name : string) (cs : list (option VNode)) (i : Z)
    (m : gmap string (VNode * Z)) :
  m !! name = None ->
  name ∉ map key_name (omap key (omap id cs)) ->
  build_oldKeyed cs i m !! name = None.
Proof.
  revert i m. induction cs as [|c cs IH]; intros i m Hm Hn; [exact Hm|].
  cbn [build_oldKeyed]. destruct c as [c|]; cbn in Hn; [|apply IH; assumption].
  destruct (key c) as [k|] eqn:Ek; cbn in Hn; [|apply IH; assumption].
  apply not_elem_of_cons in Hn as [Hk Hn].
  apply IH; [|exact Hn]. rewrite lookup_insert_ne by congruence. exact Hm.
Qed.

Lemma omap_id_Some {X} (l : list X) : omap id (map Some l) = l.
Proof. induction l as [|x l IH]; [reflexivity|]. cbn. f_equal. exact IH. Qed.

Lemma same_key_None_l y : same_key None y = false.
Proof. reflexivity. Qed.

(** With the old range used up, the loop creates what is left of the new
    children whose keys the old children do not carry. *)
Lemma create_loop (p : Node) keyed (olds : list (option VNode)) (oh ot : Z)
    (ms : list ChildMove) (rest : list VNode) :
  ot < oh ->
  (forall x k, x ∈ rest -> key x = Some k -> keyed !! key_name k = None) ->
  forall front ps,
  let news := front ++ rest in
  diffChildren_loop (S (length rest)) p news keyed
    (mkLoop olds oh ot (Z.of_nat (length front)) (Z.of_nat (length news) - 1) ms ps)
  = Some (mkLoop olds oh ot (Z.of_nat (length news)) (Z.of_nat (length news) - 1) ms
            (ps ++ map (fun n => CREATE n p) rest)).
Proof.
  intros Hold. induction rest as [|x rest IH]; intros Hk front ps news.
  - subst news. rewrite app_nil_r. cbn [length diffChildren_loop].
    unfold loop_cond. cbn [newHead newTail oldHead oldTail].
    replace (Z.of_nat (length front) <=? Z.of_nat (length front) - 1) with false
      by (symmetry; apply Z.leb_gt; lia).
    replace (oh <=? ot) with false by (symmetry; apply Z.leb_gt; lia).
    cbn. rewrite app_nil_r. reflexivity.
  - cbn [length]. remember (S (length rest)) as f eqn:Hf. cbn [diffChildren_loop].
    assert (Hlen : Z.of_nat (length news) = Z.of_nat (length front) + 1 + Z.of_nat (length rest)).
    { subst news. rewrite length_app. cbn [length]. lia. }
    unfold loop_cond. cbn [newHead newTail oldHead oldTail].
    replace (Z.of_nat (length front) <=? Z.of_nat (length news) - 1) with true
      by (symmetry; apply Z.leb_le; lia).
    cbn [orb negb].
    unfold oldHeadVNode, oldTailVNode, newHeadVNode, newTailVNode.
    cbn [newHead newTail oldHead oldTail oldChildren].
    replace (oh <=? ot) with false by (symmetry; apply Z.leb_gt; lia).
    replace (Z.of_nat (length front) <=? Z.of_nat (length news) - 1) with true
      by (symmetry; apply Z.leb_le; lia).
    rewrite !same_key_None_l.
    subst news. rewrite at_index_middle.
    assert (Hx : match key x with
                 | Some k => keyed !! key_name k
                 | None => None
                 end = None).
    { destruct (key x) as [k|] eqn:Ek; [|reflexivity]. apply (Hk x k); [left|exact Ek]. }
    rewrite Hx. cbn [patches moves].
    specialize (IH (fun y k Hy => Hk y k (list_elem_of_further _ _ _ Hy)) (front ++ [x])
                  (ps ++ [CREATE x p])).
    cbn zeta in IH. rewrite <- app_assoc in IH. cbn [app] in IH.
    replace (Z.of_nat (length (front ++ [x]))) with (Z.of_nat (length front) + 1) in IH
      by (rewrite length_app; cbn [length]; lia).
    rewrite IH. cbn [map]. rewrite <- app_assoc. reflexivity.
Qed.

(** The loop on a list of children against the same list followed by
    [extra], from the point where [pre] has been consumed: it consumes
    [post] head to head and goes on from there. *)
Lemma prefix_loop (p : Node) keyed (post extra : list VNode) :
  Forall (fun c => NaN_free c = true /\
            exists fuel, forall q ps,
              diffNode fuel (Some c) (Some c) q ps = Some (ps ++ self_diff c)) post ->
  forall pre,
  let cs := pre ++ post in
  let n := Z.of_nat (length cs) in
  let m := Z.of_nat (length (cs ++ extra)) in
  let i := Z.of_nat (length pre) in
  exists fuel, forall ps k r,
    diffChildren_loop k p (cs ++ extra) keyed
      (mkLoop (map Some cs) n (n - 1) n (m - 1) []
         (ps ++ concat (map self_diff post))) = Some r ->
    diffChildren_loop (fuel + k) p (cs ++ extra) keyed
      (mkLoop (map Some cs) i (n - 1) i (m - 1) [] ps) = Some r.
Proof.
  induction 1 as [|c post [Hc [fc Hfc]] Hpost IH]; intros pre cs n m i.
  - exists 0%nat. intros ps k r.
    subst cs n m i. cbn [map concat]. rewrite !app_nil_r. auto.
  - specialize (IH (pre ++ [c])).
    cbn zeta in IH.
    replace ((pre ++ [c]) ++ post) with cs in IH
      by (subst cs; rewrite <- app_assoc; reflexivity).
    destruct IH as [fr Hfr].
    exists (S (Nat.max fc fr)). intros ps k r Hr.
    cbn [Nat.add diffChildren_loop].
    assert (Hlen : n = i + 1 + Z.of_nat (length post)).
    { subst n i cs. rewrite length_app. cbn [length]. lia. }
    assert (Hm : n <= m).
    { subst n m. rewrite (length_app cs). lia. }
    unfold loop_cond. cbn [newHead newTail oldHead oldTail].
    replace (i <=? n - 1) with true by (symmetry; apply Z.leb_le; lia).
    rewrite orb_true_r. cbn [negb].
    assert (Hoh : oldHeadVNode (mkLoop (map Some cs) i (n - 1) i (m - 1) [] ps) = Some c).
    { unfold oldHeadVNode. cbn [oldHead oldTail oldChildren].
      replace (i <=? n - 1) with true by (symmetry; apply Z.leb_le; lia).
      subst cs i. rewrite map_app. cbn [map].
      rewrite <- (length_map Some pre), at_index_middle. reflexivity. }
    assert (Hnh : newHeadVNode (cs ++ extra)
                    (mkLoop (map Some cs) i (n - 1) i (m - 1) [] ps) = Some c).
    { unfold newHeadVNode. cbn [newHead newTail].
      replace (i <=? m - 1) with true by (symmetry; apply Z.leb_le; lia).
      subst cs i. rewrite <- app_assoc. cbn [app]. apply at_index_middle. }
    rewrite Hoh, Hnh.
    assert (Hk : same_key (Some c) (Some c) = true).
    { cbn [same_key]. apply strict_eq_refl.
      destruct c as [ty pps ccs k0 d]. cbn in Hc |- *.
      apply andb_true_iff in Hc as [Hc _]. apply andb_true_iff in Hc as [Hc _].
      apply negb_true_iff, bool_decide_eq_false in Hc. exact Hc. }
    rewrite Hk. cbn [patches oldChildren oldHead oldTail newHead newTail moves].
    rewrite (diffNode_fuel_le fc (Nat.max fc fr + k) _ _ _ _ _ ltac:(lia) (Hfc p ps)).
    replace (Z.of_nat (length (pre ++ [c]))) with (i + 1) in Hfr
      by (subst i; rewrite length_app; cbn [length]; lia).
    apply (diffChildren_loop_fuel_le (fr + k)); [lia|].
    apply Hfr. cbn [map concat] in Hr. rewrite (app_assoc ps) in Hr. exact Hr.
Qed.

Lemma forallb_NaN_free_children (cs : list VNode) :
  forallb NaN_free cs = true ->
  Forall (fun c => NaN_free c = true /\
            exists fuel, forall q ps,
              diffNode fuel (Some c) (Some c) q ps = Some (ps ++ self_diff c)) cs.
Proof.
  intros H. apply Forall_forall. intros c Hc.
  rewrite forallb_forall in H. specialize (H c (proj1 (list_elem_of_In _ _) Hc)).
  split; [exact H|apply diffNode_same_tree; exact H].
Qed.

(** X15. Old children free of NaN, with plain names for their props and
    keys all the way down, against the same children followed by new ones
    whose keys have plain names that no key of an old child has:
    [diffChildren] returns, with the patches of each old child against
    itself, then a [CREATE] under the parent for each new child in order,
    then a [REMOVE] for every bound old child. *)
Theorem diffChildren_appended (p : Node) (cs extra : list VNode) :
  forallb NaN_free cs = true ->
  forallb plain_names cs = true ->
  forallb plain_key extra = true ->
  (forall x k, x ∈ extra -> key x = Some k ->
     key_name k ∉ map key_name (omap key cs)) ->
  exists fuel, forall more ps,
    diffChildren (more + fuel) p cs (cs ++ extra) ps =
    Some (ps ++ concat (map self_diff cs) ++
          map (fun n => CREATE n p) extra ++
          omap (fun c => option_map REMOVE (_dom c)) cs).
Proof.
  intros Hfree _ _ Hkeys.
  destruct (prefix_loop p (build_oldKeyed (map Some cs) 0 ∅) cs extra
              (forallb_NaN_free_children cs Hfree) []) as [f1 Hf1].
  cbn zeta in Hf1. cbn [app length] in Hf1. change (Z.of_nat 0) with 0 in Hf1.
  exists (f1 + S (length extra))%nat. intros more ps.
  unfold diffChildren, diffChildren_body.
  rewrite length_map.
  erewrite (diffChildren_loop_fuel_add more); [|apply Hf1].
  2:{ apply (create_loop p _ (map Some cs) _ _ [] extra); [lia|].
      intros x k Hx Hk. apply build_oldKeyed_absent; [apply lookup_empty|].
      rewrite omap_id_Some. apply (Hkeys x k Hx Hk). }
  unfold finish_children. cbn [moves oldChildren patches].
  rewrite remove_old_Some, <- !app_assoc. reflexivity.
Qed.


(** *** The nodes a patch may name *)

Lemma names_only_app A ps qs :
  names_only A ps -> names_only A qs -> names_only A (ps ++ qs).
Proof.
  intros H1 H2 patch x Hp Hx. apply elem_of_app in Hp as [Hp|Hp]; eauto.
Qed.

Lemma names_only_one A patch :
  (forall x, x ∈ patch_nodes patch -> A x) -> names_only A [patch].
Proof. intros H q x Hq Hx. apply list_elem_of_singleton in Hq. subst q. auto. Qed.

Lemma diffProps_names_only A d o n ps :
  A d -> names_only A ps -> names_only A (diffProps d o n ps).
Proof.
  intros Hd Hps. rewrite diffProps_acc. apply names_only_app; [exact Hps|].
  intros patch x Hp Hx. apply diffProps_list_elem in Hp as [(name & ->)|(name & ->)];
    cbn in Hx; apply list_elem_of_singleton in Hx; subst x; exact Hd.
Qed.

Lemma bindings_dom (t : VNode) (d : Node) : _dom t = Some d -> d ∈ bindings t.
Proof. destruct t as [ty ps cs k dd]. cbn. intros ->. left. Qed.

Lemma bindings_child (t c : VNode) (x : Node) :
  c ∈ children t -> x ∈ bindings c -> x ∈ bindings t.
Proof.
  destruct t as [ty ps cs k dd]. cbn. intros Hc Hx.
  apply elem_of_app. right. apply list_elem_of_In, in_concat.
  exists (bindings c). split; [apply in_map|]; apply list_elem_of_In; assumption.
Qed.

Lemma build_oldKeyed_elem (cs : list (option VNode)) (i : Z)
    (m : gmap string (VNode * Z)) name v j :
  build_oldKeyed cs i m !! name = Some (v, j) ->
  Some v ∈ cs \/ m !! name = Some (v, j).
Proof.
  revert i m. induction cs as [|c cs IH]; intros i m H; [right; exact H|].
  cbn [build_oldKeyed] in H. apply IH in H as [H|H]; [left; right; exact H|].
  destruct c as [c|]; [|right; exact H].
  destruct (key c) as [k|]; [|right; exact H].
  destruct (decide (key_name k = name)) as [<-|Hne].
  - rewrite lookup_insert_eq in H. injection H as <- <-. left. left.
  - rewrite lookup_insert_ne in H by exact Hne. right. exact H.
Qed.

Lemma at_index_elem {X} (l : list X) (i : Z) (x : X) : at_index l i = Some x -> x ∈ l.
Proof.
  unfold at_index. destruct (i <? 0); [discriminate|].
  intros H. apply list_elem_of_lookup. eauto.
Qed.

Lemma oldHeadVNode_elem st c : oldHeadVNode st = Some c -> Some c ∈ oldChildren st.
Proof.
  unfold oldHeadVNode. destruct (oldHead st <=? oldTail st); [|discriminate].
  destruct (at_index (oldChildren st) (oldHead st)) as [o|] eqn:E; [|discriminate].
  cbn. intros ->. apply (at_index_elem _ _ _ E).
Qed.

Lemma oldTailVNode_elem st c : oldTailVNode st = Some c -> Some c ∈ oldChildren st.
Proof.
  unfold oldTailVNode. destruct (oldHead st <=? oldTail st); [|discriminate].
  destruct (at_index (oldChildren st) (oldTail st)) as [o|] eqn:E; [|discriminate].
  cbn. intros ->. apply (at_index_elem _ _ _ E).
Qed.

Lemma tombstone_elem (olds : list (option VNode)) (i : nat) (c : VNode) :
  Some c ∈ <[i := None]> olds -> Some c ∈ olds.
Proof.
  intros H. apply list_elem_of_lookup in H as [j Hj].
  destruct (decide (i = j)) as [->|Hne].
  - destruct (decide (j < length olds)%nat) as [Hlt|Hge].
    + rewrite list_lookup_insert_eq in Hj by exact Hlt. discriminate.
    + rewrite list_insert_ge in Hj by lia. apply list_elem_of_lookup. eauto.
  - rewrite list_lookup_insert_ne in Hj by exact Hne. apply list_elem_of_lookup. eauto.
Qed.

Lemma finish_children_names_only A keyed p st :
  A p -> loop_names_only A keyed st -> names_only A (finish_children p st).
Proof.
  intros Hp (H1 & H2 & H3 & _). unfold finish_children.
  assert (Hr : names_only A (remove_old (oldChildren st) (patches st))).
  { rewrite remove_old_app. apply names_only_app; [exact H1|].
    intros patch x Hpatch Hx. apply list_elem_of_omap in Hpatch as (o & Ho & Hpatch).
    destruct o as [c|]; [|discriminate].
    destruct (_dom c) as [d|] eqn:Ed; [|discriminate]. cbn in Hpatch.
    injection Hpatch as <-. cbn in Hx. apply list_elem_of_singleton in Hx. subst x.
    apply (H2 c d Ho). apply bindings_dom. exact Ed. }
  assert (Hre : names_only A [REORDER_CHILDREN p (moves st)]).
  { apply names_only_one. cbn [patch_nodes]. intros x Hx.
    apply elem_of_cons in Hx as [->|Hx]; [exact Hp|].
    apply list_elem_of_fmap in Hx as (m0 & -> & Hm0). apply H3. exact Hm0. }
  destruct (moves st) as [|mv ms]; [exact Hr|].
  apply names_only_app; [exact Hr|exact Hre].
Qed.

Lemma names_only_nodes (fuel : nat) :
  (forall o n p ps r (A : Node -> Prop),
      A p ->
      (forall t x, o = Some t -> x ∈ bindings t -> A x) ->
      names_only A ps ->
      diffNode fuel o n p ps = Some r -> names_only A r) /\
  (forall p news keyed st r (A : Node -> Prop),
      A p ->
      loop_names_only A keyed st ->
      diffChildren_loop fuel p news keyed st = Some r ->
      loop_names_only A keyed r).
Proof.
  induction fuel as [|fuel [IHn IHl]]; [split; intros; discriminate|].
  split.
  - intros o n p ps r A Hp Ho Hps H. cbn [diffNode] in H.
    destruct n as [n|].
    2:{ destruct o as [o|]; [|injection H as <-; exact Hps].
        destruct (_dom o) as [d|] eqn:Ed; injection H as <-; [|exact Hps].
        apply names_only_app; [exact Hps|]. apply names_only_one. cbn. intros x Hx.
        apply list_elem_of_singleton in Hx. subst x.
        apply (Ho o d eq_refl), bindings_dom, Ed. }
    destruct o as [o|].
    2:{ injection H as <-. apply names_only_app; [exact Hps|].
        apply names_only_one. cbn. intros x Hx.
        apply list_elem_of_singleton in Hx. subst x. exact Hp. }
    destruct (negb (bool_decide (type o = type n))).
    { destruct (_dom o) as [d|] eqn:Ed; injection H as <-; [|exact Hps].
      apply names_only_app; [exact Hps|]. apply names_only_one. cbn. intros x Hx.
      apply list_elem_of_singleton in Hx. subst x.
      apply (Ho o d eq_refl), bindings_dom, Ed. }
    destruct (_dom o) as [d|] eqn:Ed; [|injection H as <-; exact Hps].
    assert (Hd : A d) by (apply (Ho o d eq_refl), bindings_dom, Ed).
    unfold diffChildren_body in H.
    match type of H with
    | context [diffChildren_loop fuel ?a ?b ?c ?e] =>
        destruct (diffChildren_loop fuel a b c e) as [st|] eqn:E; [|discriminate]
    end.
    injection H as <-.
    apply (finish_children_names_only A (build_oldKeyed (map Some (children o)) 0 ∅));
      [exact Hd|].
    apply (IHl _ _ _ _ _ A Hd) in E; [exact E|].
    assert (Hchild : forall c x, Some c ∈ map Some (children o) -> x ∈ bindings c -> A x).
    { intros c x Hc Hx. apply list_elem_of_fmap in Hc as (c' & [= ->] & Hc').
      apply (Ho o x eq_refl). apply (bindings_child o c' x Hc' Hx). }
    split; [|split; [|split]]; cbn [patches oldChildren moves].
    + apply diffProps_names_only; assumption.
    + exact Hchild.
    + intros mv Hmv. inversion Hmv.
    + intros name v i x Hk Hx. apply build_oldKeyed_elem in Hk as [Hk|Hk].
      * apply (Hchild v x Hk Hx).
      * rewrite lookup_empty in Hk. discriminate.
  - intros p news keyed st r A Hp Hinv H. cbn [diffChildren_loop] in H.
    destruct (negb (loop_cond st)); [injection H as <-; exact Hinv|].
    destruct Hinv as (I1 & I2 & I3 & I4).
    assert (Hoh : forall t x, oldHeadVNode st = Some t -> x ∈ bindings t -> A x).
    { intros t x Ht. apply I2, oldHeadVNode_elem, Ht. }
    assert (Hot : forall t x, oldTailVNode st = Some t -> x ∈ bindings t -> A x).
    { intros t x Ht. apply I2, oldTailVNode_elem, Ht. }
    repeat match type of H with
    | context [if same_key ?a ?b then _ else _] => destruct (same_key a b)
    | context [match diffNode fuel ?a ?b ?c ?d with _ => _ end] =>
        let E := fresh "E" in
        destruct (diffNode fuel a b c d) eqn:E; [|discriminate]
    | context [match newHeadVNode ?a ?b with _ => _ end] =>
        destruct (newHeadVNode a b)
    | context [match key ?a with _ => _ end] => destruct (key a)
    | context [match ?m !! ?k with _ => _ end] =>
        let Ek := fresh "Ek" in destruct (m !! k) as [[? ?]|] eqn:Ek
    end;
    (apply (IHl _ _ _ _ _ A Hp) in H; [exact H|]);
    (split; [|split; [|split]]); cbn [patches oldChildren moves]; try assumption.
    all: try (eapply (IHn _ _ _ _ _ A Hp); [| |eassumption]; assumption).
    all: try (apply names_only_app; [exact I1|]; apply names_only_one; cbn;
              intros x Hx; apply list_elem_of_singleton in Hx; subst x; exact Hp).
    + eapply (IHn _ _ _ _ _ A Hp); [|exact I1|eassumption].
      intros t x [= <-] Hx. exact (I4 _ _ _ _ Ek Hx).
    + intros c x Hc. apply I2. eapply tombstone_elem, Hc.
    + intros mv Hmv. destruct (_dom v0) as [d|] eqn:Ed; [|apply I3, Hmv].
      apply elem_of_app in Hmv as [Hmv|Hmv]; [apply I3, Hmv|].
      apply list_elem_of_singleton in Hmv. subst mv. cbn.
      apply (I4 _ _ _ _ Ek), bindings_dom, Ed.
Qed.

(** X16. Every DOM node a patch of [diff] names is the parent [diff] was
    given or a node the old tree is bound to; a binding of the new tree
    alone is never touched. *)
Theorem diff_names_old_bindings (fuel : nat) (o n : option VNode) (p : Node)
    (r : list Patch) (patch : Patch) (x : Node) :
  diff fuel o n p = Some r ->
  patch ∈ r -> x ∈ patch_nodes patch ->
  x = p \/ exists t, o = Some t /\ x ∈ bindings t.
Proof.
  intros H Hpatch Hx. unfold diff in H.
  apply (proj1 (names_only_nodes fuel) o n p [] r
           (fun x => x = p \/ exists t, o = Some t /\ x ∈ bindings t)) in H.
  - exact (H patch x Hpatch Hx).
  - left. reflexivity.
  - intros t y -> Hy. right. eauto.
  - intros q y Hq. inversion Hq.
Qed.


(** *** Lists that shrink *)

Lemma shrinking_loop (fuel : nat) p news keyed st :
  0 <= newTail st - newHead st + 1 < oldTail st - oldHead st + 1 ->
  diffChildren_loop fuel p news keyed st = None.
Proof.
  revert st. induction fuel as [|fuel IH]; intros st H; [reflexivity|].
  destruct (decide (newTail st < newHead st)) as [Hn|Hn].
  { apply loop_stuck; lia. }
  cbn [diffChildren_loop].
  assert (Hc : loop_cond st = true).
  { unfold loop_cond. apply orb_true_iff. right. apply Z.leb_le. lia. }
  rewrite Hc. cbn [negb].
  repeat match goal with
  | |- context [if same_key ?a ?b then _ else _] => destruct (same_key a b)
  | |- context [match diffNode ?f ?a ?b ?c ?d with _ => _ end] =>
      destruct (diffNode f a b c d)
  | |- context [match newHeadVNode ?a ?b with _ => _ end] => destruct (newHeadVNode a b)
  | |- context [match key ?a with _ => _ end] => destruct (key a)
  | |- context [match ?m !! ?k with _ => _ end] => destruct (m !! k) as [[? ?]|]
  end; try reflexivity; apply IH; cbn; lia.
Qed.

(** X19. A node whose list of children got shorter: when the old node is
    bound and the types agree, [diff] has no result, whatever the step
    budget. *)
Theorem diff_fewer_children_diverges (fuel : nat) (o n : VNode) (d p : Node) :
  type o = type n -> _dom o = Some d ->
  (length (children n) < length (children o))%nat ->
  diff fuel (Some o) (Some n) p = None.
Proof.
  intros Ht Hd Hlen. unfold diff. destruct fuel as [|fuel]; [reflexivity|].
  cbn [diffNode]. rewrite bool_decide_eq_true_2 by exact Ht. cbn [negb]. rewrite Hd.
  unfold diffChildren_body. rewrite shrinking_loop; [reflexivity|].
  cbn [newTail newHead oldTail oldHead]. rewrite length_map. lia.
Qed.


(** *** Tombstones *)

Lemma tombstone_loop (fuel : nat) p news keyed st (i : Z) :
  oldHead st <= i <= oldTail st ->
  at_index (oldChildren st) i = Some None ->
  diffChildren_loop fuel p news keyed st = None.
Proof.
  revert st. induction fuel as [|fuel IH]; intros st Hi Hnull; [reflexivity|].
  cbn [diffChildren_loop].
  assert (Hc : loop_cond st = true).
  { unfold loop_cond. apply orb_true_iff. right. apply Z.leb_le. lia. }
  rewrite Hc. cbn [negb].
  assert (Hoh : forall y, same_key (oldHeadVNode st) y = true -> oldHead st <> i).
  { intros y Hs E. unfold oldHeadVNode in Hs. rewrite E, Hnull in Hs.
    destruct (i <=? oldTail st); discriminate. }
  assert (Hot : forall y, same_key (oldTailVNode st) y = true -> oldTail st <> i).
  { intros y Hs E. unfold oldTailVNode in Hs. rewrite E, Hnull in Hs.
    destruct (oldHead st <=? i); discriminate. }
  assert (Hins : forall idx : Z,
            at_index (<[Z.to_nat idx := None]> (oldChildren st)) i = Some None).
  { intros idx. unfold at_index in *. destruct (i <? 0); [discriminate|].
    destruct (decide (Z.to_nat idx = Z.to_nat i)) as [E|E].
    - rewrite E. apply list_lookup_insert_eq. apply lookup_lt_is_Some. eauto.
    - rewrite list_lookup_insert_ne by exact E. exact Hnull. }
  repeat match goal with
  | |- context [if same_key ?a ?b then _ else _] =>
      let E := fresh "E" in destruct (same_key a b) eqn:E
  | |- context [match diffNode ?f ?a ?b ?c ?d with _ => _ end] =>
      destruct (diffNode f a b c d)
  | |- context [match newHeadVNode ?a ?b with _ => _ end] => destruct (newHeadVNode a b)
  | |- context [match key ?a with _ => _ end] => destruct (key a)
  | |- context [match ?m !! ?k with _ => _ end] => destruct (m !! k) as [[? ?]|]
  end; try reflexivity; apply IH; cbn [oldHead oldTail oldChildren];
    try exact Hnull; try apply Hins;
    repeat match goal with
    | E : same_key (oldHeadVNode st) _ = true |- _ => apply Hoh in E
    | E : same_key (oldTailVNode st) _ = true |- _ => apply Hot in E
    end; lia.
Qed.

(** X20. Once the loop has put a tombstone between [oldHead] and [oldTail],
    no step budget is enough for it to end. *)
Theorem tombstone_in_window_diverges (fuel : nat) (p : Node) (news : list VNode)
    (keyed : gmap string (VNode * Z)) (st : LoopState) (i : Z) :
  oldHead st <= i <= oldTail st ->
  at_index (oldChildren st) i = Some None ->
  diffChildren_loop fuel p news keyed st = None.
Proof. apply tombstone_loop. Qed.


(** *** Runs that end record no move *)

Lemma no_reorder_app ps qs : no_reorder ps -> no_reorder qs -> no_reorder (ps ++ qs).
Proof. apply Forall_app_2. Qed.

Lemma diffProps_no_reorder d o n ps : no_reorder ps -> no_reorder (diffProps d o n ps).
Proof.
  intros H. rewrite diffProps_acc. apply no_reorder_app; [exact H|].
  apply Forall_forall. intros q Hq.
  apply diffProps_list_elem in Hq as [(name & ->)|(name & ->)]; reflexivity.
Qed.

Lemma remove_old_no_reorder olds ps : no_reorder ps -> no_reorder (remove_old olds ps).
Proof.
  intros H. rewrite remove_old_app. apply no_reorder_app; [exact H|].
  apply Forall_forall. intros q Hq. apply list_elem_of_omap in Hq as (o & _ & Hq).
  destruct o as [c|]; [|discriminate]. destruct (_dom c); [|discriminate].
  injection Hq as <-. reflexivity.
Qed.

Lemma at_index_Some {X} (l : list X) (i : Z) :
  mjoin (at_index (map Some l) i) = at_index l i.
Proof.
  unfold at_index. destruct (i <? 0); [reflexivity|].
  change (map Some l) with (Some <$> l). rewrite list_lookup_fmap.
  destruct (l !! Z.to_nat i); reflexivity.
Qed.

Lemma at_index_inj {X} (l : list X) (i j : Z) :
  0 <= i -> 0 <= j -> Z.to_nat i = Z.to_nat j -> i = j.
Proof. lia. Qed.

Lemma at_index_range {X} (l : list X) (i : Z) (x : X) :
  at_index l i = Some x -> 0 <= i < Z.of_nat (length l).
Proof.
  unfold at_index. destruct (Z.ltb_spec i 0) as [Hneg|Hpos]; [discriminate|]. intros Hx.
  apply lookup_lt_Some in Hx. lia.
Qed.

Lemma same_key_true x y :
  same_key x y = true ->
  exists a b, x = Some a /\ y = Some b /\
    strict_eq (key_value (key a)) (key_value (key b)) = true.
Proof. destruct x as [a|], y as [b|]; try discriminate. cbn. eauto. Qed.

Lemma same_key_name (k1 : Key) (ko : option Key) :
  String_respects_eq ->
  strict_eq (key_value (Some k1)) (key_value ko) = true ->
  exists k2, ko = Some k2 /\ key_name k1 = key_name k2.
Proof.
  intros HS H. destruct k1 as [s1|n1], ko as [[s2|n2]|]; cbn in H; try discriminate.
  - apply bool_decide_eq_true in H. injection H as ->. eauto.
  - exists (KNumber n2). split; [reflexivity|]. cbn. apply HS, H.
Qed.

Lemma build_oldKeyed_keyed_ok (pre cs : list VNode) (m : gmap string (VNode * Z)) :
  keyed_ok (pre ++ cs) m ->
  keyed_ok (pre ++ cs) (build_oldKeyed (map Some cs) (Z.of_nat (length pre)) m).
Proof.
  revert pre m. induction cs as [|c cs IH]; intros pre m Hm; [exact Hm|].
  cbn [map build_oldKeyed].
  replace (Z.of_nat (length pre) + 1) with (Z.of_nat (length (pre ++ [c])))
    by (rewrite length_app; cbn; lia).
  replace (pre ++ c :: cs) with ((pre ++ [c]) ++ cs) in * by (rewrite <- app_assoc; reflexivity).
  apply IH. destruct (key c) as [k|] eqn:Ek; [|exact Hm].
  intros name v idx H. destruct (decide (key_name k = name)) as [<-|Hne].
  - rewrite lookup_insert_eq in H. injection H as <- <-. split; [|eauto].
    unfold at_index. replace (Z.of_nat (length pre) <? 0) with false
      by (symmetry; apply Z.ltb_ge; lia).
    rewrite Nat2Z.id, <- app_assoc. cbn. apply list_lookup_middle. reflexivity.
  - rewrite lookup_insert_ne in H by exact Hne. apply Hm, H.
Qed.

Lemma NoDup_key_names (news : list VNode) (i j : nat) (a b : VNode) (ka kb : Key) :
  NoDup (map key_name (omap key news)) ->
  news !! i = Some a -> news !! j = Some b ->
  key a = Some ka -> key b = Some kb -> key_name ka = key_name kb -> i = j.
Proof.
  revert i j. induction news as [|c news IH]; intros i j Hnd Hi Hj Ha Hb Hn; [discriminate|].
  assert (Hin : forall x kx m, news !! m = Some x -> key x = Some kx ->
                  key_name kx ∈ map key_name (omap key news)).
  { intros x kx m Hm Hx. apply list_elem_of_fmap. exists kx. split; [reflexivity|].
    apply list_elem_of_omap. exists x. split; [|exact Hx].
    apply list_elem_of_lookup. eauto. }
  destruct i as [|i], j as [|j]; cbn in Hi, Hj.
  - reflexivity.
  - injection Hi as ->. cbn [omap list_omap] in Hnd. rewrite Ha in Hnd. cbn in Hnd.
    apply NoDup_cons in Hnd as [Hnot _]. exfalso. apply Hnot. rewrite Hn.
    apply (Hin b kb j Hj Hb).
  - injection Hj as ->. cbn [omap list_omap] in Hnd. rewrite Hb in Hnd. cbn in Hnd.
    apply NoDup_cons in Hnd as [Hnot _]. exfalso. apply Hnot. rewrite <- Hn.
    apply (Hin a ka i Hi Ha).
  - f_equal. apply IH; try assumption.
    cbn [omap list_omap] in Hnd. destruct (key c); [|exact Hnd].
    cbn in Hnd. apply NoDup_cons in Hnd as [_ Hnd]. exact Hnd.
Qed.

Lemma ends_matched_step (olds news : list VNode) (st : LoopState)
    (oh' ot' nh' nt' io jn : Z) (a n : VNode) (ps : list Patch) :
  ends_matched olds news st ->
  at_index olds io = Some a -> at_index news jn = Some n ->
  strict_eq (key_value (key a)) (key_value (key n)) = true ->
  no_reorder ps ->
  oldHead st <= oh' -> ot' <= oldTail st ->
  (forall i, i < oh' \/ ot' < i -> i < oldHead st \/ oldTail st < i \/ i = io) ->
  newHead st <= nh' -> nt' <= newTail st ->
  (jn < nh' \/ nt' < jn) ->
  ends_matched olds news (mkLoop (oldChildren st) oh' ot' nh' nt' (moves st) ps).
Proof.
  intros (I1 & I2 & I3 & I4 & I5 & I6 & I7 & I8) Ha Hn Heq Hps Ho1 Ho2 Ho3 Hn1 Hn2 Hn3.
  repeat split; cbn [oldChildren moves patches oldHead oldTail newHead newTail];
    try assumption; try lia.
  intros i o Hi Hio. destruct (Ho3 i Hi) as [H|[H| ->]].
  - destruct (I8 i o (or_introl H) Hio) as (j & m & Hj & Hm & He).
    exists j, m. split; [lia|]. split; assumption.
  - destruct (I8 i o (or_intror H) Hio) as (j & m & Hj & Hm & He).
    exists j, m. split; [lia|]. split; assumption.
  - rewrite Ha in Hio. injection Hio as <-. exists jn, n. split; [exact Hn3|].
    split; assumption.
Qed.

Lemma ends_matched_skip (olds news : list VNode) (st : LoopState) (ps : list Patch) :
  ends_matched olds news st -> no_reorder ps ->
  ends_matched olds news
    (mkLoop (oldChildren st) (oldHead st) (oldTail st) (newHead st + 1) (newTail st)
       (moves st) ps).
Proof.
  intros (I1 & I2 & I3 & I4 & I5 & I6 & I7 & I8) Hps.
  repeat split; cbn [oldChildren moves patches oldHead oldTail newHead newTail];
    try assumption; try lia.
  intros i o Hi Hio. destruct (I8 i o Hi Hio) as (j & m & Hj & Hm & He).
  exists j, m. split; [lia|]. split; assumption.
Qed.

Lemma old_end_Some (olds : list VNode) (st : LoopState) :
  oldChildren st = map Some olds ->
  (forall a, oldHeadVNode st = Some a ->
     oldHead st <= oldTail st /\ at_index olds (oldHead st) = Some a) /\
  (forall a, oldTailVNode st = Some a ->
     oldHead st <= oldTail st /\ at_index olds (oldTail st) = Some a).
Proof.
  intros H. unfold oldHeadVNode, oldTailVNode. rewrite H, !at_index_Some.
  destruct (Z.leb_spec (oldHead st) (oldTail st)); split; intros a Ha;
    try discriminate; split; assumption.
Qed.

Lemma new_end_Some (news : list VNode) (st : LoopState) :
  (forall a, newHeadVNode news st = Some a ->
     newHead st <= newTail st /\ at_index news (newHead st) = Some a) /\
  (forall a, newTailVNode news st = Some a ->
     newHead st <= newTail st /\ at_index news (newTail st) = Some a).
Proof.
  unfold newHeadVNode, newTailVNode.
  destruct (Z.leb_spec (newHead st) (newTail st)); split; intros a Ha;
    try discriminate; split; assumption.
Qed.

Lemma distinct_keys_children (t : VNode) :
  distinct_keys t = true ->
  NoDup (map key_name (omap key (children t))) /\
  forallb distinct_keys (children t) = true.
Proof.
  destruct t as [ty ps cs k d]. cbn [distinct_keys children].
  intros H. apply andb_true_iff in H as [H1 H2]. split; [|exact H2].
  apply bool_decide_eq_true in H1. exact H1.
Qed.

Lemma at_index_lookup {X} (l : list X) (i : Z) (x : X) :
  at_index l i = Some x -> 0 <= i /\ l !! Z.to_nat i = Some x.
Proof.
  unfold at_index. destruct (Z.ltb_spec i 0) as [Hneg|Hpos]; [discriminate|]. auto.
Qed.

Lemma returns_without_moves (fuel : nat) :
  String_respects_eq ->
  (forall o n p ps r,
      (forall t, n = Some t -> distinct_keys t = true) ->
      no_reorder ps ->
      diffNode fuel o n p ps = Some r -> no_reorder r) /\
  (forall p olds news keyed st r,
      NoDup (map key_name (omap key news)) ->
      forallb distinct_keys news = true ->
      keyed_ok olds keyed ->
      ends_matched olds news st ->
      diffChildren_loop fuel p news keyed st = Some r ->
      ends_matched olds news r).
Proof.
  intros HS. induction fuel as [|fuel [IHn IHl]]; [split; intros; discriminate|].
  split.
  - intros o n p ps r Hn Hps H. cbn [diffNode] in H.
    destruct n as [n|].
    2:{ destruct o as [o|]; [|injection H as <-; exact Hps].
        destruct (_dom o); injection H as <-; [|exact Hps].
        apply no_reorder_app; [exact Hps|]. repeat constructor. }
    destruct o as [o|].
    2:{ injection H as <-. apply no_reorder_app; [exact Hps|]. repeat constructor. }
    destruct (negb (bool_decide (type o = type n))).
    { destruct (_dom o); injection H as <-; [|exact Hps].
      apply no_reorder_app; [exact Hps|]. repeat constructor. }
    destruct (_dom o) as [d|]; [|injection H as <-; exact Hps].
    unfold diffChildren_body in H.
    match type of H with context [diffChildren_loop fuel ?a ?b ?c ?e] =>
      destruct (diffChildren_loop fuel a b c e) as [st|] eqn:E; [|discriminate] end.
    injection H as <-.
    destruct (distinct_keys_children n (Hn n eq_refl)) as [Hnd Hall].
    apply (IHl _ (children o) _ _ _ _ Hnd Hall) in E.
    + destruct E as (I1 & I2 & I3 & _). unfold finish_children. rewrite I2.
      apply remove_old_no_reorder, I3.
    + apply (build_oldKeyed_keyed_ok [] (children o) ∅).
      intros name v idx Hk. rewrite lookup_empty in Hk. discriminate.
    + repeat split; cbn [oldChildren moves patches oldHead oldTail newHead newTail];
        try lia.
      * apply diffProps_no_reorder, Hps.
      * rewrite length_map. lia.
      * intros i o' Hi Hio. apply at_index_range in Hio. rewrite length_map in Hi. lia.
  - intros p olds news keyed st r Hnd Hall Hk Hinv H. cbn [diffChildren_loop] in H.
    destruct (negb (loop_cond st)); [injection H as <-; exact Hinv|].
    pose proof Hinv as (I1 & I2 & I3 & I4 & I5 & I6 & I7 & I8).
    assert (Hdk : forall j n, at_index news j = Some n ->
                    forall t, Some n = Some t -> distinct_keys t = true).
    { intros j n Hj t [= <-]. apply at_index_elem in Hj.
      rewrite forallb_forall in Hall. apply Hall, list_elem_of_In, Hj. }
    destruct (same_key (oldHeadVNode st) (newHeadVNode news st)) eqn:E1.
    { destruct (same_key_true _ _ E1) as (a & n & Ea & En & Heq).
      destruct (proj1 (old_end_Some olds st I1) a Ea) as [Ho1 Ho2].
      destruct (proj1 (new_end_Some news st) n En) as [Hn1 Hn2].
      rewrite Ea, En in H.
      destruct (diffNode fuel (Some a) (Some n) p (patches st)) as [ps'|] eqn:Ed;
        [|discriminate].
      apply (IHl _ olds _ _ _ _ Hnd Hall Hk) in H; [exact H|].
      apply (ends_matched_step olds news st _ _ _ _ (oldHead st) (newHead st) a n);
        try assumption; try lia.
      apply (IHn _ _ _ _ _ (Hdk _ _ Hn2) I3 Ed). }
    destruct (same_key (oldTailVNode st) (newTailVNode news st)) eqn:E2.
    { destruct (same_key_true _ _ E2) as (a & n & Ea & En & Heq).
      destruct (proj2 (old_end_Some olds st I1) a Ea) as [Ho1 Ho2].
      destruct (proj2 (new_end_Some news st) n En) as [Hn1 Hn2].
      rewrite Ea, En in H.
      destruct (diffNode fuel (Some a) (Some n) p (patches st)) as [ps'|] eqn:Ed;
        [|discriminate].
      apply (IHl _ olds _ _ _ _ Hnd Hall Hk) in H; [exact H|].
      apply (ends_matched_step olds news st _ _ _ _ (oldTail st) (newTail st) a n);
        try assumption; try lia.
      apply (IHn _ _ _ _ _ (Hdk _ _ Hn2) I3 Ed). }
    destruct (same_key (oldHeadVNode st) (newTailVNode news st)) eqn:E3.
    { destruct (same_key_true _ _ E3) as (a & n & Ea & En & Heq).
      destruct (proj1 (old_end_Some olds st I1) a Ea) as [Ho1 Ho2].
      destruct (proj2 (new_end_Some news st) n En) as [Hn1 Hn2].
      rewrite Ea, En in H.
      destruct (diffNode fuel (Some a) (Some n) p (patches st)) as [ps'|] eqn:Ed;
        [|discriminate].
      apply (IHl _ olds _ _ _ _ Hnd Hall Hk) in H; [exact H|].
      apply (ends_matched_step olds news st _ _ _ _ (oldHead st) (newTail st) a n);
        try assumption; try lia.
      apply (IHn _ _ _ _ _ (Hdk _ _ Hn2) I3 Ed). }
    destruct (same_key (oldTailVNode st) (newHeadVNode news st)) eqn:E4.
    { destruct (same_key_true _ _ E4) as (a & n & Ea & En & Heq).
      destruct (proj2 (old_end_Some olds st I1) a Ea) as [Ho1 Ho2].
      destruct (proj1 (new_end_Some news st) n En) as [Hn1 Hn2].
      rewrite Ea, En in H.
      destruct (diffNode fuel (Some a) (Some n) p (patches st)) as [ps'|] eqn:Ed;
        [|discriminate].
      apply (IHl _ olds _ _ _ _ Hnd Hall Hk) in H; [exact H|].
      apply (ends_matched_step olds news st _ _ _ _ (oldTail st) (newHead st) a n);
        try assumption; try lia.
      apply (IHn _ _ _ _ _ (Hdk _ _ Hn2) I3 Ed). }
    destruct (newHeadVNode news st) as [n|] eqn:En.
    2:{ apply (IHl _ olds _ _ _ _ Hnd Hall Hk) in H; [exact H|].
        apply ends_matched_skip; assumption. }
    assert (Hcreate : ends_matched olds news
              (mkLoop (oldChildren st) (oldHead st) (oldTail st) (newHead st + 1)
                 (newTail st) (moves st) (patches st ++ [CREATE n p]))).
    { apply ends_matched_skip; [exact Hinv|].
      apply no_reorder_app; [exact I3|]. repeat constructor. }
    destruct (key n) as [k|] eqn:Ekey.
    2:{ apply (IHl _ olds _ _ _ _ Hnd Hall Hk) in H; [exact H|exact Hcreate]. }
    destruct (keyed !! key_name k) as [[v idx]|] eqn:Elk.
    2:{ apply (IHl _ olds _ _ _ _ Hnd Hall Hk) in H; [exact H|exact Hcreate]. }
    exfalso.
    destruct (diffNode fuel (Some v) (Some n) p (patches st)) as [ps'|] eqn:Ed;
      [|discriminate].
    destruct (Hk _ _ _ Elk) as (Hv & k' & Hk' & Hname).
    destruct (proj1 (new_end_Some news st) n En) as [Hn1 Hn2].
    destruct (decide (oldHead st <= idx <= oldTail st)) as [Hin|Hout].
    + rewrite (tombstone_loop fuel p news keyed _ idx) in H; [discriminate|cbn; lia|].
      cbn [oldChildren]. rewrite I1.
      destruct (at_index_lookup _ _ _ Hv) as [Hpos Hl].
      unfold at_index. replace (idx <? 0) with false by (symmetry; apply Z.ltb_ge; lia).
      apply list_lookup_insert_eq. rewrite length_map. apply lookup_lt_is_Some. eauto.
    + destruct (I8 idx v ltac:(lia) Hv) as (j & m & Hj & Hm & He).
      rewrite Hk' in He. apply (same_key_name k' _ HS) in He as (km & Hkm & Hsame).
      destruct (at_index_lookup _ _ _ Hm) as [Hjpos Hjl].
      destruct (at_index_lookup _ _ _ Hn2) as [Hnpos Hnl].
      pose proof (NoDup_key_names news _ _ m n km k Hnd Hjl Hnl Hkm Ekey
                    (eq_trans (eq_sym Hsame) Hname)).
      lia.
Qed.

(** X21. When no two siblings of the new tree carry keys with the same
    property name [String(key)], at any level, a [diff] that returns holds
    no [REORDER_CHILDREN] patch: every run that finds a child through the
    table of keyed old children is a run that does not end.  Keys that
    differ as values and agree as names, such as [1] and ['1'], are not
    covered. *)
Theorem diff_returns_without_moves (fuel : nat) (o n : option VNode) (p : Node)
    (r : list Patch) :
  String_respects_eq ->
  (forall t, n = Some t -> distinct_keys t = true) ->
  diff fuel o n p = Some r ->
  forall parentDom moves, REORDER_CHILDREN parentDom moves ∉ r.
Proof.
  intros HS Hn H pd mv Hin. unfold diff in H.
  apply (proj1 (returns_without_moves fuel HS) o n p [] r Hn) in H; [|constructor].
  unfold no_reorder in H. rewrite Forall_forall in H. specialize (H _ Hin). discriminate.
Qed.


(** X23. When no two siblings of the new tree carry keys with the same
    property name [String(key)], at any level, the old node is bound and
    the types agree, a [diff] that returns ends with a [REMOVE] for every
    bound child of the old node, in order, whether the new node still has
    that child or not. *)
Theorem diff_returns_removing_old_children (fuel : nat) (o n : VNode) (d p : Node)
    (r : list Patch) :
  String_respects_eq ->
  distinct_keys n = true ->
  type o = type n -> _dom o = Some d ->
  diff fuel (Some o) (Some n) p = Some r ->
  exists pre, no_reorder pre /\
    r = pre ++ omap (fun c => option_map REMOVE (_dom c)) (children o).
Proof.
  intros HS Hn Ht Hd H. unfold diff in H. destruct fuel as [|fuel]; [discriminate|].
  cbn [diffNode] in H. rewrite bool_decide_eq_true_2 in H by exact Ht.
  cbn [negb] in H. rewrite Hd in H. unfold diffChildren_body in H.
  match type of H with context [diffChildren_loop fuel ?a ?b ?c ?e] =>
    destruct (diffChildren_loop fuel a b c e) as [st|] eqn:E; [|discriminate] end.
  injection H as <-.
  destruct (distinct_keys_children n Hn) as [Hnd Hall].
  apply (proj2 (returns_without_moves fuel HS) _ (children o) _ _ _ _ Hnd Hall) in E.
  - destruct E as (I1 & I2 & I3 & _). exists (patches st). split; [exact I3|].
    unfold finish_children. rewrite I2, I1. apply remove_old_Some.
  - apply (build_oldKeyed_keyed_ok [] (children o) ∅).
    intros name v idx Hk. rewrite lookup_empty in Hk. discriminate.
  - repeat split; cbn [oldChildren moves patches oldHead oldTail newHead newTail];
      try lia.
    + apply diffProps_no_reorder. constructor.
    + rewrite length_map. lia.
    + intros i o' Hi Hio. apply at_index_range in Hio. rewrite length_map in Hi. lia.
Qed.

End WithHost.

(** *** The theorems at inputs *)

#[local] Existing Instance host_for_strings.

Lemma host_for_strings_respects_eq : String_respects_eq.
Proof. intros x y _. reflexivity. Qed.

(** [{id: '1', title: 't'}] against [{id: '2'}]. *)
Lemma diffProps_spec_witness :
  forallb plain_name (map fst props_id_title ++ map fst props_id) = true /\
  SET_PROP 5%positive "id" (VString "2")
    ∈ diffProps 5%positive props_id_title props_id [] /\
  REMOVE_PROP 5%positive "title" (VString "t")
    ∈ diffProps 5%positive props_id_title props_id [].
Proof.
  split; [reflexivity|]. split.
  - apply (diffProps_spec 5%positive props_id_title props_id _ eq_refl).
    left. exists "id"%string. split; [left|]. split; reflexivity.
  - apply (diffProps_spec 5%positive props_id_title props_id _ eq_refl).
    right. exists "title"%string. split; [right; left|]. split; [|reflexivity].
    cbn. intros H. apply list_elem_of_singleton in H. discriminate.
Defined.

Lemma diffChildren_appended_witness :
  forallb NaN_free [li "a" (Some 1%positive)] = true /\
  forallb plain_names [li "a" (Some 1%positive)] = true /\
  forallb plain_key [li "b" None] = true /\
  (forall x k, x ∈ [li "b" None] -> key x = Some k ->
     key_name k ∉ map key_name (omap key [li "a" (Some 1%positive)])) /\
  exists fuel, forall more ps,
    diffChildren (more + fuel) 10%positive
      [li "a" (Some 1%positive)] ([li "a" (Some 1%positive)] ++ [li "b" None]) ps =
    Some (ps ++ [CREATE (li "b" None) 10%positive; REMOVE 1%positive]).
Proof.
  assert (Hk : forall x k, x ∈ [li "b" None] -> key x = Some k ->
     key_name k ∉ map key_name (omap key [li "a" (Some 1%positive)])).
  { intros x k Hx Hk. apply list_elem_of_singleton in Hx. subst x.
    cbn in Hk. injection Hk as <-. cbn.
    intros Hc. apply list_elem_of_singleton in Hc. discriminate. }
  split; [reflexivity|]. split; [reflexivity|]. split; [reflexivity|].
  split; [exact Hk|].
  exact (diffChildren_appended 10%positive [li "a" (Some 1%positive)] [li "b" None]
           eq_refl eq_refl eq_refl Hk).
Defined.

Lemma diff_names_old_bindings_witness :
  diff 10 (Some old_abc) (Some (new_cab None (Some 21%positive) None None)) 99%positive
    = Some [REMOVE 1%positive; REMOVE 2%positive; REMOVE 3%positive] /\
  (2%positive = 99%positive \/
   exists t, Some old_abc = Some t /\ 2%positive ∈ bindings t).
Proof.
  split; [reflexivity|].
  apply (diff_names_old_bindings 10 (Some old_abc)
           (Some (new_cab None (Some 21%positive) None None)) 99%positive
           [REMOVE 1%positive; REMOVE 2%positive; REMOVE 3%positive]
           (REMOVE 2%positive) 2%positive eq_refl).
  - apply list_elem_of_In. cbn. tauto.
  - apply list_elem_of_singleton. reflexivity.
Defined.

Lemma diff_fewer_children_diverges_witness :
  type old_abc = type (ul [li "a" None; li "c" None] None) /\
  _dom old_abc = Some 10%positive /\
  (length (children (ul [li "a" None; li "c" None] None)) < length (children old_abc))%nat /\
  diff 1000 (Some old_abc) (Some (ul [li "a" None; li "c" None] None)) 99%positive = None.
Proof.
  split; [reflexivity|]. split; [reflexivity|]. split; [cbn; lia|].
  apply (diff_fewer_children_diverges 1000 old_abc _ 10%positive 99%positive);
    [reflexivity|reflexivity|cbn; lia].
Defined.

Lemma tombstone_in_window_diverges_witness :
  let st := mkLoop [Some (li "a" (Some 1%positive)); None; Some (li "c" (Some 3%positive))]
              0 2 1 2 [mkChildMove MOVE 2%positive 0] [] in
  oldHead st <= 1 <= oldTail st /\
  at_index (oldChildren st) 1 = Some None /\
  diffChildren_loop 1000 10%positive
    [li "b" None; li "a" None; li "c" None] ∅ st = None.
Proof.
  cbn zeta. split; [cbn; lia|]. split; [reflexivity|].
  apply (tombstone_in_window_diverges 1000 10%positive _ ∅ _ 1); [cbn; lia|reflexivity].
Defined.

Lemma diff_returns_without_moves_witness :
  String_respects_eq /\
  (forall t, Some (new_cab None None None None) = Some t -> distinct_keys t = true) /\
  diff 10 (Some old_abc) (Some (new_cab None None None None)) 99%positive
    = Some [REMOVE 1%positive; REMOVE 2%positive; REMOVE 3%positive] /\
  forall parentDom moves,
    REORDER_CHILDREN parentDom moves
      ∉ [REMOVE 1%positive; REMOVE 2%positive; REMOVE 3%positive].
Proof.
  assert (Hd : forall t, Some (new_cab None None None None) = Some t ->
                 distinct_keys t = true).
  { intros t [= <-]. vm_compute. reflexivity. }
  split; [exact host_for_strings_respects_eq|].
  split; [exact Hd|]. split; [reflexivity|].
  apply (diff_returns_without_moves 10 (Some old_abc)
           (Some (new_cab None None None None)) 99%positive _
           host_for_strings_respects_eq Hd eq_refl).
Defined.

Lemma diff_returns_removing_old_children_witness :
  String_respects_eq /\
  distinct_keys (new_cab None None None None) = true /\
  type old_abc = type (new_cab None None None None) /\
  _dom old_abc = Some 10%positive /\
  diff 10 (Some old_abc) (Some (new_cab None None None None)) 99%positive
    = Some [REMOVE 1%positive; REMOVE 2%positive; REMOVE 3%positive] /\
  exists pre, no_reorder pre /\
    [REMOVE 1%positive; REMOVE 2%positive; REMOVE 3%positive] =
    pre ++ omap (fun c => option_map REMOVE (_dom c)) (children old_abc).
Proof.
  split; [exact host_for_strings_respects_eq|].
  split; [vm_compute; reflexivity|]. split; [reflexivity|]. split; [reflexivity|].
  split; [reflexivity|].
  apply (diff_returns_removing_old_children 10 old_abc (new_cab None None None None)
           10%positive 99%positive _ host_for_strings_respects_eq);
    [vm_compute|..]; reflexivity.
Defined.

End DomExtra.

(* ===================================================================== *)
(** ** The reactive store stays well formed *)
(* ===================================================================== *)

Module ReactiveExtra.
Import JS Reactive ReactiveScenarios ReactiveInvariants JSProperties ReactiveProperties.

(** *** Reading *)

Lemma atom_at_set_atom w a obj x :
  atom_at (set_atom a obj w) x = if decide (a = x) then obj else atom_at w x.
Proof.
  unfold atom_at. cbn. destruct (decide (a = x)) as [->|Hne].
  - apply lookup_total_insert_eq.
  - apply lookup_total_insert_ne. exact Hne.
Qed.

Lemma effect_at_set_effect w e obj x :
  effect_at (set_effect e obj w) x = if decide (e = x) then obj else effect_at w x.
Proof.
  unfold effect_at. cbn. destruct (decide (e = x)) as [->|Hne].
  - apply lookup_total_insert_eq.
  - apply lookup_total_insert_ne. exact Hne.
Qed.

(** What [_addDependent] does to the dependents of every atom. *)
Lemma addDependent_dependents a d w x :
  _dependents (atom_at (Atom__addDependent a d w) x) =
  if decide (a = x)
  then (if has_dependent d (atom_at w a) then _dependents (atom_at w a)
        else _dependents (atom_at w a) ++ [mkDependentNode d (globalEpoch w)])
  else _dependents (atom_at w x).
Proof.
  unfold Atom__addDependent.
  destruct (has_dependent d (atom_at w a)) eqn:E.
  - destruct (decide (a = x)) as [->|]; reflexivity.
  - change (atom_at (set_globalEpoch (globalEpoch w + 1) ?w0) x) with (atom_at w0 x).
    rewrite atom_at_set_atom. destruct (decide (a = x)); reflexivity.
Qed.

Lemma has_dependent_app d obj n :
  has_dependent d (with_dependents (_dependents obj ++ [n]) obj) =
  has_dependent d obj || bool_decide (atomOrEffect n = d).
Proof.
  unfold has_dependent. cbn. rewrite map_app. cbn.
  apply eq_true_iff_eq. rewrite orb_true_iff, !bool_decide_eq_true.
  rewrite elem_of_app, list_elem_of_singleton. intuition congruence.
Qed.

Lemma addDependent_has_other a d w x d' :
  has_dependent d' (atom_at (Atom__addDependent a d w) x) =
  has_dependent d' (atom_at w x) || (bool_decide (a = x) && bool_decide (d = d')).
Proof.
  apply eq_true_iff_eq.
  rewrite orb_true_iff, andb_true_iff, !bool_decide_eq_true.
  unfold has_dependent. rewrite !bool_decide_eq_true, addDependent_dependents.
  destruct (decide (a = x)) as [->|Hne]; [|intuition congruence].
  destruct (has_dependent d (atom_at w x)) eqn:E.
  - unfold has_dependent in E. apply bool_decide_eq_true in E.
    split; [auto|]. intros [H|[_ <-]]; assumption.
  - rewrite map_app, elem_of_app. cbn. rewrite list_elem_of_singleton.
    intuition congruence.
Qed.

Lemma addDependent_effect_at a d w x :
  effect_at (Atom__addDependent a d w) x = effect_at w x.
Proof. unfold effect_at. rewrite (proj2 (proj2 (addDependent_frame a d w a))). reflexivity. Qed.

(** [get] returns the stored value, whoever the consumer is. *)
Lemma get_value a w : fst (Atom_get a w) = Normal (_value (atom_at w a)).
Proof.
  unfold Atom_get. cbn [fst]. f_equal.
  destruct (currentConsumer w) as [[c|e]|]; [| |reflexivity].
  - unfold Atom__addDependency. case_bool_decide; [reflexivity|].
    rewrite (proj1 (addDependent_frame _ _ _ _)).
    change (atom_at (set_globalEpoch ?n ?w0) a) with (atom_at w0 a).
    rewrite atom_at_set_atom. destruct (decide (c = a)) as [->|]; reflexivity.
  - unfold AtomEffect__addDependency. case_bool_decide; [reflexivity|].
    rewrite (proj1 (addDependent_frame _ _ _ _)). reflexivity.
Qed.

Lemma get_context a w :
  currentConsumer (snd (Atom_get a w)) = currentConsumer w /\
  consumerStack (snd (Atom_get a w)) = consumerStack w.
Proof.
  unfold Atom_get. cbn [snd].
  destruct (currentConsumer w) as [[c|e]|] eqn:E; [| |split; auto].
  - unfold Atom__addDependency. case_bool_decide; [split; auto|].
    unfold Atom__addDependent. destruct (has_dependent _ _); cbn; split; auto.
  - unfold AtomEffect__addDependency. case_bool_decide; [split; auto|].
    unfold Atom__addDependent. destruct (has_dependent _ _); cbn; split; auto.
Qed.

(** X1. Reading an atom a second time under the same consumer changes
    nothing: the edge is registered once and the epoch counter stays. *)
Theorem get_twice_registers_once (a : AtomId) (w : World) :
  snd (Atom_get a (snd (Atom_get a w))) = snd (Atom_get a w).
Proof.
  pose proof (get_context a w) as [Hc _].
  unfold Atom_get at 1. cbn [snd]. rewrite Hc.
  unfold Atom_get. cbn [snd].
  destruct (currentConsumer w) as [[c|e]|]; [| |reflexivity].
  - unfold Atom__addDependency at 1.
    rewrite bool_decide_eq_true_2; [reflexivity|].
    unfold Atom__addDependency. case_bool_decide as H; [exact H|].
    rewrite (proj1 (proj2 (addDependent_frame _ _ _ _))).
    change (atom_at (set_globalEpoch ?n ?w0) c) with (atom_at w0 c).
    rewrite atom_at_set_atom, decide_True by reflexivity. cbn.
    rewrite map_app. apply elem_of_app. right. apply list_elem_of_singleton. reflexivity.
  - unfold AtomEffect__addDependency at 1.
    rewrite bool_decide_eq_true_2; [reflexivity|].
    unfold AtomEffect__addDependency. case_bool_decide as H; [exact H|].
    rewrite addDependent_effect_at, effect_at_set_effect, decide_True by reflexivity. cbn.
    apply elem_of_app. right. apply list_elem_of_singleton. reflexivity.
Qed.

(** *** Edges held on both sides *)

Lemma linked_same_objects w w' :
  atoms w' = atoms w -> effects w' = effects w -> linked w -> linked w'.
Proof.
  intros Ha He H a e. unfold atom_at, effect_at. rewrite Ha, He. apply H.
Qed.

Lemma setCurrentConsumer_objects c w :
  atoms (setCurrentConsumer c w) = atoms w /\
  effects (setCurrentConsumer c w) = effects w.
Proof. split; reflexivity. Qed.

Lemma effect_addDependency_deps e a w x :
  _deps (effect_at (AtomEffect__addDependency e a w) x) =
  if decide (e = x)
  then (if bool_decide (a ∈ _deps (effect_at w e)) then _deps (effect_at w e)
        else _deps (effect_at w e) ++ [a])
  else _deps (effect_at w x).
Proof.
  unfold AtomEffect__addDependency. case_bool_decide as H.
  - destruct (decide (e = x)) as [->|]; reflexivity.
  - rewrite addDependent_effect_at, effect_at_set_effect.
    destruct (decide (e = x)); reflexivity.
Qed.

Lemma effect_addDependency_has e a w x d :
  has_dependent d (atom_at (AtomEffect__addDependency e a w) x) =
  has_dependent d (atom_at w x) ||
  (negb (bool_decide (a ∈ _deps (effect_at w e))) &&
   bool_decide (a = x) && bool_decide (CEffect e = d)).
Proof.
  unfold AtomEffect__addDependency. case_bool_decide as H; cbn [negb andb].
  - rewrite orb_false_r. reflexivity.
  - rewrite addDependent_has_other. reflexivity.
Qed.

Lemma effect_addDependency_linked e a w :
  linked w -> linked (AtomEffect__addDependency e a w).
Proof.
  intros H x e'. rewrite effect_addDependency_has, effect_addDependency_deps.
  rewrite orb_true_iff, !andb_true_iff, negb_true_iff, !bool_decide_eq_true,
    bool_decide_eq_false.
  specialize (H x e').
  destruct (decide (e = e')) as [<-|Hne].
  - case_bool_decide as Hin.
    + rewrite H. intuition.
    + rewrite elem_of_app, list_elem_of_singleton, H. intuition congruence.
  - rewrite H. intuition congruence.
Qed.

Lemma atom_addDependency_has c a w x e :
  has_dependent (CEffect e) (atom_at (Atom__addDependency c a w) x) =
  has_dependent (CEffect e) (atom_at w x).
Proof.
  unfold Atom__addDependency. case_bool_decide; [reflexivity|].
  rewrite addDependent_has_other.
  rewrite (bool_decide_eq_false_2 (CAtom c = CEffect e)) by discriminate.
  rewrite andb_false_r, orb_false_r.
  change (atom_at (set_globalEpoch ?n ?w0) x) with (atom_at w0 x).
  rewrite atom_at_set_atom. destruct (decide (c = x)) as [->|]; reflexivity.
Qed.

Lemma atom_addDependency_effects c a w :
  effects (Atom__addDependency c a w) = effects w.
Proof.
  unfold Atom__addDependency. case_bool_decide; [reflexivity|].
  rewrite (proj2 (proj2 (addDependent_frame _ _ _ a))). reflexivity.
Qed.

Lemma get_keeps_linked_aux (a : AtomId) (w : World) :
  linked w -> linked (snd (Atom_get a w)).
Proof.
  intros H. unfold Atom_get. cbn [snd].
  destruct (currentConsumer w) as [[c|e]|]; [| |exact H].
  - intros x e'. rewrite atom_addDependency_has. unfold effect_at.
    rewrite atom_addDependency_effects. apply H.
  - apply effect_addDependency_linked. exact H.
Qed.

(** The loop of [_removeDependent] calls: the effect leaves the dependents
    of the listed atoms, and nothing else changes. *)
Lemma remove_loop_dependents e l w x :
  _dependents (atom_at (fold_left
      (fun acc dep => Atom__removeDependent dep (CEffect e) acc) l w) x) =
  if bool_decide (x ∈ l)
  then filter (fun n => atomOrEffect n ≠ CEffect e) (_dependents (atom_at w x))
  else _dependents (atom_at w x).
Proof.
  revert w. induction l as [|d l IH]; intros w; [reflexivity|].
  cbn [fold_left]. rewrite IH.
  unfold Atom__removeDependent at 1 2. rewrite !atom_at_set_atom.
  destruct (decide (d = x)) as [->|Hne].
  - rewrite (bool_decide_eq_true_2 (x ∈ x :: l)) by left. cbn.
    case_bool_decide; [|reflexivity].
    rewrite list_filter_filter. apply list_filter_iff. intuition.
  - case_bool_decide as Hin.
    + rewrite bool_decide_eq_true_2 by (right; exact Hin). reflexivity.
    + rewrite bool_decide_eq_false_2; [reflexivity|].
      intros Hc. apply elem_of_cons in Hc as [->|Hc]; [congruence|contradiction].
Qed.

Lemma remove_loop_effects e l w :
  effects (fold_left (fun acc dep => Atom__removeDependent dep (CEffect e) acc) l w)
  = effects w.
Proof.
  revert w. induction l as [|d l IH]; intros w; [reflexivity|].
  cbn [fold_left]. rewrite IH. reflexivity.
Qed.

Lemma has_dependent_filter d d' ds :
  bool_decide (d' ∈ map atomOrEffect (filter (fun n => atomOrEffect n ≠ d) ds)) =
  bool_decide (d' ∈ map atomOrEffect ds) && negb (bool_decide (d' = d)).
Proof.
  apply eq_true_iff_eq.
  rewrite andb_true_iff, negb_true_iff, !bool_decide_eq_true, bool_decide_eq_false.
  rewrite !list_elem_of_fmap. split.
  - intros (n & -> & Hn). apply list_elem_of_filter in Hn as [Hne Hn]. eauto.
  - intros [(n & -> & Hn) Hne]. exists n. split; [reflexivity|].
    apply list_elem_of_filter. auto.
Qed.

(** The first half of [_execute]: afterwards the effect holds no atom and
    no atom holds the effect; the other effects are as before. *)
Lemma unsubscribe_spec e w :
  linked w ->
  let w1 := unsubscribe e w in
  _deps (effect_at w1 e) = [] /\
  _isDisposed (effect_at w1 e) = _isDisposed (effect_at w e) /\
  (forall x, has_dependent (CEffect e) (atom_at w1 x) = false) /\
  (forall e', e' <> e -> effect_at w1 e' = effect_at w e') /\
  (forall x d, d <> CEffect e ->
     has_dependent d (atom_at w1 x) = has_dependent d (atom_at w x)) /\
  linked w1.
Proof.
  intros H w1.
  assert (Hdeps : forall x, _dependents (atom_at w1 x) =
            if bool_decide (x ∈ _deps (effect_at w e))
            then filter (fun n => atomOrEffect n ≠ CEffect e) (_dependents (atom_at w x))
            else _dependents (atom_at w x)).
  { intros x. subst w1. unfold unsubscribe.
    change (atom_at (set_effect ?a ?b ?w0) x) with (atom_at w0 x).
    apply remove_loop_dependents. }
  assert (Heff : forall x, effect_at w1 x =
            if decide (e = x) then with_deps [] (effect_at w e) else effect_at w x).
  { intros x. subst w1. unfold unsubscribe. rewrite effect_at_set_effect.
    unfold effect_at. rewrite remove_loop_effects. reflexivity. }
  assert (Hself : forall x, has_dependent (CEffect e) (atom_at w1 x) = false).
  { intros x. unfold has_dependent. rewrite Hdeps.
    destruct (bool_decide (x ∈ _deps (effect_at w e))) eqn:Hin.
    - rewrite has_dependent_filter, (bool_decide_eq_true_2 (CEffect e = CEffect e)) by reflexivity.
      apply andb_false_r.
    - apply bool_decide_eq_false in Hin.
      apply bool_decide_eq_false_2. intros Hc. apply Hin, H.
      unfold has_dependent. apply bool_decide_eq_true_2. exact Hc. }
  assert (Hother : forall x d, d <> CEffect e ->
            has_dependent d (atom_at w1 x) = has_dependent d (atom_at w x)).
  { intros x d Hd. unfold has_dependent. rewrite Hdeps.
    destruct (bool_decide (x ∈ _deps (effect_at w e))); [|reflexivity].
    rewrite has_dependent_filter, (bool_decide_eq_false_2 _ Hd). apply andb_true_r. }
  repeat split.
  - rewrite Heff, decide_True; reflexivity.
  - rewrite Heff, decide_True; reflexivity.
  - exact Hself.
  - intros e' Hne. rewrite Heff, decide_False; [reflexivity|congruence].
  - exact Hother.
  - destruct (decide (e0 = e)) as [->|Hne].
    + rewrite Hself. discriminate.
    + rewrite Hother by congruence. rewrite Heff, decide_False by congruence. apply H.
  - destruct (decide (e0 = e)) as [->|Hne].
    + rewrite Heff, decide_True by reflexivity. cbn. intros Hc. inversion Hc.
    + rewrite Hother by congruence. rewrite Heff, decide_False by congruence. apply H.
Qed.

(** *** Clear and re-track *)

Lemma for_of_cons {X} (x : X) (xs : list X) (body : X -> M unit) (w : World) :
  for_of (x :: xs) body w =
  match body x w with
  | (Normal _, w1) => for_of xs body w1
  | (Throw exn, w1) => (Throw exn, w1)
  end.
Proof. reflexivity. Qed.

Lemma get_then_ret a w :
  (let* _ := Atom_get a in ret tt) w = (Normal tt, snd (Atom_get a w)).
Proof. reflexivity. Qed.

Lemma reads_spec (e : EffectId) (l : list AtomId) (w : World) :
  currentConsumer w = Some (CEffect e) ->
  linked w ->
  let w' := snd (reads l w) in
  fst (reads l w) = Normal tt /\
  linked w' /\
  (forall a, a ∈ _deps (effect_at w' e) <-> a ∈ _deps (effect_at w e) \/ a ∈ l) /\
  currentConsumer w' = currentConsumer w /\
  consumerStack w' = consumerStack w.
Proof.
  revert w. induction l as [|a l IH]; intros w Hc Hl.
  - cbn. split; [reflexivity|]. split; [exact Hl|]. split; [|split; reflexivity].
    intros a. split; [auto|]. intros [H|H]; [exact H|inversion H].
  - unfold reads. rewrite for_of_cons, get_then_ret.
    pose proof (get_value a w) as Hv.
    pose proof (get_context a w) as [Hcc Hcs].
    pose proof (get_keeps_linked_aux a w Hl) as Hl1.
    assert (Hd : forall x, x ∈ _deps (effect_at (snd (Atom_get a w)) e) <->
                           x ∈ _deps (effect_at w e) \/ x = a).
    { intros x. unfold Atom_get. cbn [snd]. rewrite Hc.
      rewrite effect_addDependency_deps, decide_True by reflexivity.
      case_bool_decide as Hin.
      - split; [auto|]. intros [H| ->]; assumption.
      - rewrite elem_of_app, list_elem_of_singleton. reflexivity. }
    destruct (Atom_get a w) as [r w1]. cbn [fst snd] in *. subst r.
    specialize (IH w1). rewrite Hcc in IH. specialize (IH Hc Hl1).
    cbn zeta in IH. unfold reads in IH.
    destruct IH as (I1 & I2 & I3 & I4 & I5).
    split; [exact I1|]. split; [exact I2|]. split; [|split; congruence].
    intros x. rewrite I3, Hd, elem_of_cons. tauto.
Qed.

Lemma linked_empty : linked empty_world.
Proof. intros a e. cbn. split; [discriminate|]. intros H. inversion H. Qed.

(** X2. A run of an effect that is not disposed, whose function reads the
    atoms of [l], ends normally and leaves the effect subscribed to the
    atoms of [l] and to no other, whatever it was subscribed to before;
    the two directions of the edges still agree. *)
Theorem execute_retracks (e : EffectId) (l : list AtomId) (w : World) :
  linked w ->
  _isDisposed (effect_at w e) = false ->
  let w' := snd (AtomEffect__execute e (reads l) w) in
  fst (AtomEffect__execute e (reads l) w) = Normal tt /\
  (forall a, a ∈ _deps (effect_at w' e) <-> a ∈ l) /\
  (forall a, has_dependent (CEffect e) (atom_at w' a) = true <-> a ∈ l) /\
  linked w'.
Proof.
  intros Hl Hd. unfold AtomEffect__execute. rewrite Hd. unfold try_finally.
  destruct (unsubscribe_spec e w Hl) as (U1 & _ & _ & _ & _ & U6).
  set (w1 := unsubscribe e w) in *.
  set (w2 := setCurrentConsumer (Some (CEffect e)) w1).
  assert (Hc2 : currentConsumer w2 = Some (CEffect e)).
  { unfold w2. rewrite setCurrentConsumer_current, setCurrentConsumer_stack.
    apply last_snoc. }
  assert (Hl2 : linked w2) by (apply (linked_same_objects w1); [reflexivity..|exact U6]).
  destruct (reads_spec e l w2 Hc2 Hl2) as (R1 & R2 & R3 & _).
  destruct (reads l w2) as [r w3]. cbn [fst snd] in *. subst r.
  assert (Hl4 : linked (setCurrentConsumer (currentConsumer w1) w3))
    by (apply (linked_same_objects w3); [reflexivity..|exact R2]).
  assert (Hdeps : forall a, a ∈ _deps (effect_at (setCurrentConsumer (currentConsumer w1) w3) e)
                            <-> a ∈ l).
  { intros a. change (effect_at (setCurrentConsumer ?c w3) e) with (effect_at w3 e).
    rewrite R3. change (effect_at w2 e) with (effect_at w1 e). rewrite U1.
    split; [intros [H|H]; [inversion H|exact H]|auto]. }
  split; [reflexivity|]. split; [exact Hdeps|]. split; [|exact Hl4].
  intros a. rewrite (Hl4 a e). apply Hdeps.
Qed.

Lemma execute_retracks_witness :
  linked empty_world /\
  _isDisposed (effect_at empty_world effect_1) = false /\
  fst (AtomEffect__execute effect_1 (reads [atom_a; atom_b; atom_a]) empty_world) = Normal tt.
Proof.
  split; [exact linked_empty|]. split; [reflexivity|].
  apply (execute_retracks effect_1 [atom_a; atom_b; atom_a] empty_world linked_empty).
  reflexivity.
Defined.

(** *** The invariant through the scheduler *)

Lemma for_of_invariant {X} (P : World -> Prop) (body : X -> M unit) (l : list X) :
  (forall x w, P w -> P (snd (body x w))) ->
  forall w, P w -> P (snd (for_of l body w)).
Proof.
  intros Hb. induction l as [|x l IH]; intros w Hw; [exact Hw|].
  rewrite for_of_cons. specialize (Hb x w Hw).
  destruct (body x w) as [[[]|exn] w1]; cbn [snd] in *; [apply IH|]; exact Hb.
Qed.

Lemma reads_keeps_linked (l : list AtomId) (w : World) :
  linked w -> linked (snd (reads l w)).
Proof.
  apply for_of_invariant. intros a w0 H0. rewrite get_then_ret.
  apply get_keeps_linked_aux. exact H0.
Qed.

Lemma execute_keeps_linked (e : EffectId) (fn : M unit) (w : World) :
  (forall w0, linked w0 -> linked (snd (fn w0))) ->
  linked w -> linked (snd (AtomEffect__execute e fn w)).
Proof.
  intros Hfn Hl. unfold AtomEffect__execute.
  destruct (_isDisposed (effect_at w e)); [exact Hl|].
  unfold try_finally.
  destruct (unsubscribe_spec e w Hl) as (_ & _ & _ & _ & _ & U6).
  set (w2 := setCurrentConsumer (Some (CEffect e)) (unsubscribe e w)).
  assert (Hl2 : linked w2) by (apply (linked_same_objects (unsubscribe e w)); [reflexivity..|exact U6]).
  specialize (Hfn w2 Hl2). destruct (fn w2) as [r w3]. cbn [snd] in *.
  apply (linked_same_objects w3); [reflexivity..|exact Hfn].
Qed.

(** *** Disposal *)

(** X3. Disposing an effect marks it disposed, empties its dependencies
    and takes it out of the dependents of every atom; from then on
    [_execute] does nothing, whatever the function, and neither does a
    second [dispose]. *)
Theorem dispose_unsubscribes (e : EffectId) (w : World) :
  linked w ->
  _isDisposed (effect_at w e) = false ->
  let w' := snd (AtomEffect_dispose e w) in
  _isDisposed (effect_at w' e) = true /\
  _deps (effect_at w' e) = [] /\
  (forall a, has_dependent (CEffect e) (atom_at w' a) = false) /\
  linked w' /\
  (forall fn, AtomEffect__execute e fn w' = (Normal tt, w')) /\
  AtomEffect_dispose e w' = (Normal tt, w').
Proof.
  intros Hl Hd. cbn zeta.
  set (w1 := set_effect e (mkAtomEffect (_deps (effect_at w e)) true) w).
  assert (Hw : snd (AtomEffect_dispose e w) = unsubscribe e w1).
  { unfold AtomEffect_dispose. rewrite Hd. reflexivity. }
  rewrite Hw. clear Hw.
  assert (Hl1 : linked w1).
  { intros a x. change (atom_at w1 a) with (atom_at w a).
    unfold w1. rewrite effect_at_set_effect.
    destruct (decide (e = x)) as [<-|]; apply Hl. }
  destruct (unsubscribe_spec e w1 Hl1) as (U1 & U2 & U3 & _ & _ & U6).
  assert (Hdis : _isDisposed (effect_at (unsubscribe e w1) e) = true).
  { rewrite U2. unfold w1. rewrite effect_at_set_effect, decide_True by reflexivity.
    reflexivity. }
  split; [exact Hdis|]. split; [exact U1|]. split; [exact U3|]. split; [exact U6|].
  split.
  - intros fn. unfold AtomEffect__execute. rewrite Hdis. reflexivity.
  - unfold AtomEffect_dispose. rewrite Hdis. reflexivity.
Qed.

Lemma dispose_unsubscribes_witness :
  let w := snd (AtomEffect__execute effect_1 (reads [atom_a]) empty_world) in
  linked w /\
  _isDisposed (effect_at w effect_1) = false /\
  _deps (effect_at w effect_1) = [atom_a] /\
  _deps (effect_at (snd (AtomEffect_dispose effect_1 w)) effect_1) = [].
Proof.
  assert (Hl : linked (snd (AtomEffect__execute effect_1 (reads [atom_a]) empty_world))).
  { apply execute_keeps_linked; [apply reads_keeps_linked|exact linked_empty]. }
  split; [exact Hl|]. split; [reflexivity|]. split; [reflexivity|].
  apply (dispose_unsubscribes effect_1 _ Hl). reflexivity.
Defined.

(** *** A write is visible at once *)


(** *** The consumer stack *)

Lemma set_consumer_same w :
  set_consumer (currentConsumer w) (consumerStack w) w = w.
Proof. destruct w; reflexivity. Qed.

(** X5. When the current consumer is the top of the stack, entering a
    consumer makes it the current one and leaving it gives back the state
    from before. *)
Theorem pop_after_push_restores (c : Consumer) (w : World) :
  currentConsumer w = last (consumerStack w) ->
  currentConsumer (setCurrentConsumer (Some c) w) = Some c /\
  setCurrentConsumer None (setCurrentConsumer (Some c) w) = w.
Proof.
  intros H. split.
  - rewrite setCurrentConsumer_current, setCurrentConsumer_stack. apply last_snoc.
  - unfold setCurrentConsumer at 1.
    rewrite setCurrentConsumer_stack. rewrite length_app. cbn [length].
    replace (0 <? length (consumerStack w) + 1)%nat with true
      by (symmetry; apply Nat.ltb_lt; lia).
    rewrite removelast_last, <- H.
    unfold setCurrentConsumer, set_consumer. cbn. destruct w; reflexivity.
Qed.

Lemma pop_after_push_restores_witness :
  currentConsumer empty_world = last (consumerStack empty_world) /\
  setCurrentConsumer None (setCurrentConsumer (Some (CEffect effect_1)) empty_world)
  = empty_world.
Proof.
  split; [reflexivity|].
  apply (pop_after_push_restores (CEffect effect_1) empty_world). reflexivity.
Defined.

(** *** Registration order *)

Lemma sort_by_sorted_id {X} (f : X -> Z) (l : list X) :
  StronglySorted Z.lt (map f l) -> sort_by f l = l.
Proof.
  induction l as [|x l IH]; [reflexivity|].
  cbn [map]. intros H. apply StronglySorted_inv in H as [Hs Hall].
  cbn [sort_by foldr]. fold (sort_by f l). rewrite IH by exact Hs.
  destruct l as [|y l]; [reflexivity|]. cbn [sort_insert].
  cbn [map] in Hall. apply Forall_cons in Hall as [Hxy _].
  replace (f x <=? f y) with true by (symmetry; apply Z.leb_le; lia).
  reflexivity.
Qed.

(** X6. In a store whose dependents carry the stamps [_addDependent] gave
    them, the list [_notifyDependents] walks is the dependents in the
    order they subscribed, each once. *)
Theorem notified_in_subscription_order (w : World) (a : AtomId) :
  registration_ordered w ->
  sortedDependents (atom_at w a) = map atomOrEffect (_dependents (atom_at w a)) /\
  NoDup (sortedDependents (atom_at w a)).
Proof.
  intros H. destruct (H a) as (Hnd & Hs & _).
  unfold sortedDependents. rewrite sort_by_sorted_id by exact Hs.
  split; [reflexivity|exact Hnd].
Qed.

Lemma registration_ordered_empty : registration_ordered empty_world.
Proof. intros a. cbn. repeat split; constructor. Qed.

(** *** The three invariants together *)

Lemma ordered_same_dependents w w' :
  (forall x, _dependents (atom_at w' x) = _dependents (atom_at w x)) ->
  globalEpoch w <= globalEpoch w' ->
  registration_ordered w -> registration_ordered w'.
Proof.
  intros Hd He H x. rewrite Hd. destruct (H x) as (H1 & H2 & H3).
  repeat split; [exact H1|exact H2|].
  eapply Forall_impl; [exact H3|]. cbn. intros n Hn. lia.
Qed.

Lemma stamps_same w w' :
  (forall x, _lastChangedEpoch (atom_at w' x) = _lastChangedEpoch (atom_at w x)) ->
  globalEpoch w <= globalEpoch w' ->
  stamps_bounded w -> stamps_bounded w'.
Proof. intros Hs He H x. rewrite Hs. specialize (H x). lia. Qed.

Lemma addDependent_globalEpoch a d w :
  globalEpoch (Atom__addDependent a d w) =
  if has_dependent d (atom_at w a) then globalEpoch w else globalEpoch w + 1.
Proof. unfold Atom__addDependent. destruct (has_dependent d (atom_at w a)); reflexivity. Qed.

Lemma addDependent_ordered a d w :
  registration_ordered w -> registration_ordered (Atom__addDependent a d w).
Proof.
  intros H x. rewrite addDependent_dependents, addDependent_globalEpoch.
  destruct (H x) as (H1 & H2 & H3).
  destruct (has_dependent d (atom_at w a)) eqn:E.
  - destruct (decide (a = x)) as [->|]; repeat split; assumption.
  - assert (H3' : Forall (fun n => order n < globalEpoch w + 1) (_dependents (atom_at w x))).
    { eapply Forall_impl; [exact H3|]. cbn. intros n Hn. lia. }
    destruct (decide (a = x)) as [->|]; [|repeat split; assumption].
    rewrite !map_app. cbn [map atomOrEffect order]. repeat split.
    + apply NoDup_app. split; [exact H1|]. split; [|apply NoDup_singleton].
      intros y Hy Hy'. apply list_elem_of_singleton in Hy'. subst y.
      unfold has_dependent in E. apply bool_decide_eq_false in E. contradiction.
    + apply StronglySorted_app_2; [|exact H2|repeat constructor].
      intros o1 o2 Ho1 Ho2. apply list_elem_of_singleton in Ho2. subst o2.
      apply list_elem_of_fmap in Ho1 as (n & -> & Hn).
      rewrite Forall_forall in H3. apply H3. exact Hn.
    + apply Forall_app. split; [exact H3'|]. repeat constructor. cbn. lia.
Qed.

Lemma StronglySorted_map_filter {X} (R : relation Z) (f : X -> Z)
    (P : X -> Prop) `{!forall x, Decision (P x)} (l : list X) :
  StronglySorted R (map f l) -> StronglySorted R (map f (filter P l)).
Proof.
  induction l as [|x l IH]; [intros; constructor|].
  cbn [map]. intros Hss. apply StronglySorted_inv in Hss as [Hs Hall].
  rewrite filter_cons. destruct (decide (P x)); [|apply IH; exact Hs].
  cbn [map]. constructor; [apply IH; exact Hs|].
  rewrite Forall_forall in Hall |- *. intros y Hy. apply Hall.
  apply list_elem_of_fmap in Hy as (n & -> & Hn).
  apply list_elem_of_filter in Hn as [_ Hn].
  apply list_elem_of_fmap. eauto.
Qed.

Lemma removeDependent_ordered a d w :
  registration_ordered w -> registration_ordered (Atom__removeDependent a d w).
Proof.
  intros H x. unfold Atom__removeDependent. rewrite atom_at_set_atom.
  change (globalEpoch (set_atom ?a0 ?o w)) with (globalEpoch w).
  destruct (decide (a = x)) as [->|]; [|apply H].
  destruct (H x) as (H1 & H2 & H3). cbn [_dependents with_dependents]. repeat split.
  - eapply sublist_NoDup; [exact H1|]. apply fmap_sublist, sublist_filter.
  - apply StronglySorted_map_filter. exact H2.
  - apply Forall_forall. intros n Hn. apply list_elem_of_filter in Hn as [_ Hn].
    rewrite Forall_forall in H3. apply H3. exact Hn.
Qed.

Lemma removeDependent_stamps a d w x :
  _lastChangedEpoch (atom_at (Atom__removeDependent a d w) x) =
  _lastChangedEpoch (atom_at w x).
Proof.
  unfold Atom__removeDependent. rewrite atom_at_set_atom.
  destruct (decide (a = x)) as [->|]; reflexivity.
Qed.

Lemma remove_loop_ordered e l w :
  registration_ordered w ->
  registration_ordered
    (fold_left (fun acc dep => Atom__removeDependent dep (CEffect e) acc) l w).
Proof.
  revert w. induction l as [|d l IH]; intros w H; [exact H|].
  cbn [fold_left]. apply IH, removeDependent_ordered, H.
Qed.

Lemma remove_loop_stamps e l w :
  stamps_bounded w ->
  stamps_bounded
    (fold_left (fun acc dep => Atom__removeDependent dep (CEffect e) acc) l w).
Proof.
  revert w. induction l as [|d l IH]; intros w H; [exact H|].
  cbn [fold_left]. apply IH.
  apply (stamps_same w); [apply removeDependent_stamps|reflexivity|exact H].
Qed.

Lemma store_ok_same_store w w' :
  atoms w' = atoms w -> effects w' = effects w -> globalEpoch w' = globalEpoch w ->
  store_ok w -> store_ok w'.
Proof.
  intros Ha He Hg (H1 & H2 & H3). split; [|split].
  - apply (linked_same_objects w); assumption.
  - apply (ordered_same_dependents w); [|lia|exact H2].
    intros x. unfold atom_at. rewrite Ha. reflexivity.
  - apply (stamps_same w); [|lia|exact H3].
    intros x. unfold atom_at. rewrite Ha. reflexivity.
Qed.

Lemma unsubscribe_store_ok e w : store_ok w -> store_ok (unsubscribe e w).
Proof.
  intros (H1 & H2 & H3). split; [|split].
  - apply unsubscribe_spec. exact H1.
  - unfold unsubscribe.
    eapply ordered_same_dependents;
      [intros x; reflexivity|reflexivity|apply (remove_loop_ordered e _ w H2)].
  - unfold unsubscribe.
    eapply stamps_same;
      [intros x; reflexivity|reflexivity|apply (remove_loop_stamps e _ w H3)].
Qed.

Lemma get_keeps_ordered a w :
  registration_ordered w -> registration_ordered (snd (Atom_get a w)).
Proof.
  intros H. unfold Atom_get. cbn [snd].
  destruct (currentConsumer w) as [[c|e]|]; [| |exact H].
  - unfold Atom__addDependency. case_bool_decide; [exact H|].
    apply addDependent_ordered.
    apply (ordered_same_dependents w); [|cbn; lia|exact H].
    intros x. change (atom_at (set_globalEpoch ?n ?w0) x) with (atom_at w0 x).
    rewrite atom_at_set_atom. destruct (decide (c = x)) as [->|]; reflexivity.
  - unfold AtomEffect__addDependency. case_bool_decide; [exact H|].
    apply addDependent_ordered.
    apply (ordered_same_dependents w); [intros x; reflexivity|reflexivity|exact H].
Qed.

(** X7. [get] keeps the store well formed: the edges agree in both
    directions, dependents stay in subscription order with stamps below
    the epoch counter, and change stamps stay bounded. *)
Theorem get_keeps_store_ok (a : AtomId) (w : World) :
  store_ok w -> store_ok (snd (Atom_get a w)).
Proof.
  intros (H1 & H2 & H3). split; [|split].
  - apply get_keeps_linked_aux. exact H1.
  - apply get_keeps_ordered. exact H2.
  - apply get_keeps_stamps_bounded. exact H3.
Qed.

Lemma store_ok_empty : store_ok empty_world.
Proof.
  split; [exact linked_empty|]. split; [exact registration_ordered_empty|].
  exact stamps_bounded_empty.
Qed.

Lemma set_frame JSON a v w x :
  _dependents (atom_at (snd (set_resolved JSON a v w)) x) = _dependents (atom_at w x) /\
  _dependencies (atom_at (snd (set_resolved JSON a v w)) x) = _dependencies (atom_at w x) /\
  globalEpoch w <= globalEpoch (snd (set_resolved JSON a v w)) /\
  effects (snd (set_resolved JSON a v w)) = effects w.
Proof.
  unfold set_resolved.
  destruct (negb (Atom__isEqual JSON _ _)); [|repeat split; reflexivity].
  cbn [snd].
  assert (Hs : forall w0, atoms (scheduleFlush w0) = atoms w0 /\
                          globalEpoch (scheduleFlush w0) = globalEpoch w0 /\
                          effects (scheduleFlush w0) = effects w0).
  { intros w0. unfold scheduleFlush. destruct (isBatchScheduled w0); repeat split. }
  cbn zeta.
  match goal with |- context [scheduleFlush ?w2] =>
    set (w2' := w2); destruct (Hs w2') as (Ha & Hg & He);
    unfold atom_at; rewrite Ha, Hg, He; subst w2' end.
  destruct (bool_decide (a ∈ _)); cbn;
    (destruct (decide (a = x)) as [->|Hne];
     [rewrite lookup_total_insert_eq|rewrite lookup_total_insert_ne by exact Hne]);
    repeat split; try reflexivity; lia.
Qed.

Lemma set_resolved_keeps_store_ok JSON a v w :
  store_ok w -> store_ok (snd (set_resolved JSON a v w)).
Proof.
  intros (H1 & H2 & H3).
  split; [|split].
  - intros x e. unfold has_dependent, effect_at.
    destruct (set_frame JSON a v w x) as (Hd & _ & _ & He).
    rewrite Hd, He. apply H1.
  - apply (ordered_same_dependents w); [apply set_frame|apply (set_frame JSON a v w a)|exact H2].
  - apply set_resolved_keeps_stamps_bounded. exact H3.
Qed.

Lemma set_keeps_store_ok JSON call a nv w :
  (forall f v w0, store_ok w0 -> store_ok (snd (call f v w0))) ->
  store_ok w -> store_ok (snd (Atom_set JSON call a nv w)).
Proof.
  intros Hcall. apply Atom_set_invariant; [exact Hcall|].
  intros v w0. apply set_resolved_keeps_store_ok.
Qed.

Lemma no_calls_keeps (P : World -> Prop) (f : positive) (v : Value) (w : World) :
  P w -> P (snd (no_calls f v w)).
Proof. intros H. exact H. Qed.

Lemma execute_keeps_store_ok (e : EffectId) (fn : M unit) (w : World) :
  (forall w0, store_ok w0 -> store_ok (snd (fn w0))) ->
  store_ok w -> store_ok (snd (AtomEffect__execute e fn w)).
Proof.
  intros Hfn H. unfold AtomEffect__execute.
  destruct (_isDisposed (effect_at w e)); [exact H|].
  unfold try_finally.
  set (w2 := setCurrentConsumer (Some (CEffect e)) (unsubscribe e w)).
  assert (H2 : store_ok w2)
    by (apply (store_ok_same_store (unsubscribe e w)); [reflexivity..|];
        apply unsubscribe_store_ok, H).
  specialize (Hfn w2 H2). destruct (fn w2) as [r w3]. cbn [snd] in *.
  apply (store_ok_same_store w3); [reflexivity..|exact Hfn].
Qed.

(** X10. A flush keeps the store well formed when the effect functions
    do. *)
Theorem flush_keeps_store_ok (fns : EffectId -> M unit) (w : World) :
  (forall e w0, store_ok w0 -> store_ok (snd (fns e w0))) ->
  store_ok w -> store_ok (snd (flushPendingAtoms fns w)).
Proof.
  intros Hfns H. unfold flushPendingAtoms.
  apply for_of_invariant.
  - intros a w0 H0. unfold Atom__notifyDependents.
    destruct (_isDirty (atom_at w0 a)); [|exact H0].
    apply for_of_invariant.
    + intros [c|e] w1 H1; [exact H1|].
      apply execute_keeps_store_ok; [apply Hfns|exact H1].
    + destruct H0 as (A1 & A2 & A3). split; [|split].
      * intros x e. rewrite atom_at_set_atom.
        change (effect_at (set_atom ?a0 ?o w0) e) with (effect_at w0 e).
        destruct (decide (a = x)) as [->|]; apply A1.
      * apply (ordered_same_dependents w0); [|reflexivity|exact A2].
        intros x. rewrite atom_at_set_atom. destruct (decide (a = x)) as [->|]; reflexivity.
      * apply (stamps_same w0); [|reflexivity|exact A3].
        intros x. rewrite atom_at_set_atom. destruct (decide (a = x)) as [->|]; reflexivity.
  - apply (store_ok_same_store w); [reflexivity..|exact H].
Qed.

Lemma reads_keeps_store_ok (l : list AtomId) (w : World) :
  store_ok w -> store_ok (snd (reads l w)).
Proof.
  apply for_of_invariant. intros a w0 H0. rewrite get_then_ret.
  destruct H0 as (A1 & A2 & A3). split; [|split].
  - apply get_keeps_linked_aux, A1.
  - apply get_keeps_ordered, A2.
  - apply get_keeps_stamps_bounded, A3.
Qed.

(** A world with two effects subscribed to [a], reached from the empty one. *)
Lemma two_subscribers_store_ok :
  store_ok (snd (AtomEffect__execute effect_2 (reads [atom_a])
              (snd (AtomEffect__execute effect_1 (reads [atom_a; atom_b]) empty_world)))).
Proof.
  apply execute_keeps_store_ok; [intros w0; apply reads_keeps_store_ok|].
  apply execute_keeps_store_ok; [intros w0; apply reads_keeps_store_ok|].
  exact store_ok_empty.
Qed.

Lemma notified_in_subscription_order_witness :
  let w := snd (AtomEffect__execute effect_2 (reads [atom_a])
             (snd (AtomEffect__execute effect_1 (reads [atom_a; atom_b]) empty_world))) in
  registration_ordered w /\
  sortedDependents (atom_at w atom_a) = [CEffect effect_1; CEffect effect_2].
Proof.
  split; [apply two_subscribers_store_ok|].
  rewrite (proj1 (notified_in_subscription_order _ atom_a
                    (proj1 (proj2 two_subscribers_store_ok)))).
  reflexivity.
Defined.

Lemma get_keeps_store_ok_witness :
  let w := setCurrentConsumer (Some (CEffect effect_1)) empty_world in
  store_ok w /\ store_ok (snd (Atom_get atom_a w)).
Proof.
  assert (H : store_ok (setCurrentConsumer (Some (CEffect effect_1)) empty_world))
    by (apply (store_ok_same_store empty_world); [reflexivity..|exact store_ok_empty]).
  split; [exact H|]. apply (get_keeps_store_ok atom_a _ H).
Defined.

Lemma flush_keeps_store_ok_witness :
  let w := snd (Atom_set no_JSON no_calls atom_a (num 1)
             (snd (AtomEffect__execute effect_1 (reads [atom_a]) empty_world))) in
  pendingAtoms w = [atom_a] /\
  store_ok w /\
  store_ok (snd (flushPendingAtoms (fun _ => reads [atom_a]) w)).
Proof.
  assert (H : store_ok (snd (Atom_set no_JSON no_calls atom_a (num 1)
             (snd (AtomEffect__execute effect_1 (reads [atom_a]) empty_world))))).
  { apply set_keeps_store_ok; [apply no_calls_keeps|].
    apply execute_keeps_store_ok;
      [intros w0; apply reads_keeps_store_ok|exact store_ok_empty]. }
  split; [reflexivity|]. split; [exact H|].
  apply (flush_keeps_store_ok (fun _ => reads [atom_a]) _);
    [intros e w0; apply reads_keeps_store_ok|exact H].
Defined.

(** X8. [set] keeps the store well formed, provided the functions it may
    be given as updaters do. *)
Theorem set_preserves_store_ok (JSON_stringify : Value -> option (option string))
    (call : positive -> Value -> M Value)
    (a : AtomId) (newValue : Value) (w : World) :
  (forall f v w0, store_ok w0 -> store_ok (snd (call f v w0))) ->
  store_ok w -> store_ok (snd (Atom_set JSON_stringify call a newValue w)).
Proof. apply set_keeps_store_ok. Qed.

Lemma set_preserves_store_ok_witness :
  let w := snd (AtomEffect__execute effect_1 (reads [atom_a; atom_b]) empty_world) in
  store_ok w /\
  _lastChangedEpoch (atom_at (snd (Atom_set no_JSON no_calls atom_a (num 1) w)) atom_a) = 3 /\
  store_ok (snd (Atom_set no_JSON no_calls atom_a (num 1) w)).
Proof.
  assert (H : store_ok (snd (AtomEffect__execute effect_1 (reads [atom_a; atom_b])
                               empty_world))).
  { apply execute_keeps_store_ok; [intros w0; apply reads_keeps_store_ok|].
    exact store_ok_empty. }
  split; [exact H|]. split; [reflexivity|].
  apply (set_preserves_store_ok no_JSON no_calls atom_a (num 1) _
           (no_calls_keeps store_ok) H).
Defined.

(** X9. A run of an effect keeps the store well formed when its function
    does, also when the function throws. *)
Theorem execute_preserves_store_ok (e : EffectId) (fn : M unit) (w : World) :
  (forall w0, store_ok w0 -> store_ok (snd (fn w0))) ->
  store_ok w -> store_ok (snd (AtomEffect__execute e fn w)).
Proof. apply execute_keeps_store_ok. Qed.

Lemma execute_preserves_store_ok_witness :
  store_ok empty_world /\
  fst (AtomEffect__execute effect_1
         (fun w => (Throw (VString "boom"), snd (reads [atom_a] w))) empty_world)
    = Throw (VString "boom") /\
  store_ok (snd (AtomEffect__execute effect_1
         (fun w => (Throw (VString "boom"), snd (reads [atom_a] w))) empty_world)).
Proof.
  split; [exact store_ok_empty|]. split; [reflexivity|].
  apply (execute_preserves_store_ok effect_1 _ empty_world);
    [intros w0; apply reads_keeps_store_ok|exact store_ok_empty].
Defined.

(** *** The order of a flush *)

Lemma sort_insert_sorted {X} (f : X -> Z) (x : X) (l : list X) :
  StronglySorted Z.le (map f l) -> StronglySorted Z.le (map f (sort_insert f x l)).
Proof.
  induction l as [|y l IH]; [intros; repeat constructor|].
  cbn [map sort_insert]. intros H. pose proof H as H0.
  apply StronglySorted_inv in H as [Hs Hall].
  destruct (Z.leb_spec (f x) (f y)) as [Hle|Hgt].
  - cbn [map]. constructor; [exact H0|].
    constructor; [exact Hle|]. eapply Forall_impl; [exact Hall|]. cbn. lia.
  - cbn [map]. constructor; [apply IH; exact Hs|].
    rewrite Forall_forall in Hall |- *. intros z Hz.
    apply list_elem_of_fmap in Hz as (n & -> & Hn).
    rewrite sort_insert_perm in Hn. apply elem_of_cons in Hn as [->|Hn]; [lia|].
    apply Hall. apply list_elem_of_fmap. eauto.
Qed.

Lemma sort_by_sorted {X} (f : X -> Z) (l : list X) :
  StronglySorted Z.le (map f (sort_by f l)).
Proof.
  induction l as [|x l IH]; [constructor|].
  cbn [sort_by foldr]. apply sort_insert_sorted. exact IH.
Qed.

(** X11. A flush clears the batch flag and the pending set, then notifies
    the atoms that were pending, each once, by increasing change stamp. *)
Theorem flush_in_epoch_order (fns : EffectId -> M unit) (w : World) :
  exists l,
    l ≡ₚ pendingAtoms w /\
    StronglySorted Z.le (map (fun a => _lastChangedEpoch (atom_at w a)) l) /\
    flushPendingAtoms fns w =
      for_of l (Atom__notifyDependents fns)
        (set_pendingAtoms [] (set_isBatchScheduled false w)).
Proof.
  exists (sort_by (fun a => _lastChangedEpoch (atom_at w a)) (pendingAtoms w)).
  split; [apply sort_by_perm|]. split; [apply sort_by_sorted|reflexivity].
Qed.

(** *** Subscribing and unsubscribing *)

Lemma filter_snoc_dependent d ds n :
  atomOrEffect n = d ->
  d ∉ map atomOrEffect ds ->
  filter (fun m => atomOrEffect m ≠ d) (ds ++ [n]) = ds.
Proof.
  intros Hn Hd. rewrite filter_app, filter_cons, decide_False by (intros H; apply H, Hn).
  rewrite filter_nil, app_nil_r.
  induction ds as [|m ds IH]; [reflexivity|].
  cbn [map] in Hd. apply not_elem_of_cons in Hd as [Hm Hd].
  rewrite filter_cons, decide_True by congruence. f_equal. apply IH. exact Hd.
Qed.

(** X12. [_removeDependent] after [_addDependent] of a new dependent gives
    the atom back as it was; only the epoch counter has advanced by one. *)
Theorem removeDependent_undoes_add (a : AtomId) (d : Consumer) (w : World) :
  has_dependent d (atom_at w a) = false ->
  let w1 := Atom__addDependent a d w in
  let w2 := Atom__removeDependent a d w1 in
  has_dependent d (atom_at w1 a) = true /\
  has_dependent d (atom_at w2 a) = false /\
  atom_at w2 a = atom_at w a /\
  (forall x, x <> a -> atom_at w2 x = atom_at w x) /\
  globalEpoch w2 = globalEpoch w + 1.
Proof.
  intros H w1 w2.
  assert (Hw1 : w1 = set_globalEpoch (globalEpoch w + 1)
            (set_atom a (with_dependents
               (_dependents (atom_at w a) ++ [mkDependentNode d (globalEpoch w)])
               (atom_at w a)) w)).
  { unfold w1, Atom__addDependent. rewrite H. reflexivity. }
  assert (Hat : atom_at w2 a = atom_at w a).
  { unfold w2, Atom__removeDependent. rewrite atom_at_set_atom, decide_True by reflexivity.
    rewrite Hw1. change (atom_at (set_globalEpoch ?n ?w0) a) with (atom_at w0 a).
    rewrite atom_at_set_atom, decide_True by reflexivity.
    cbn [_dependents with_dependents].
    rewrite filter_snoc_dependent; [destruct (atom_at w a); reflexivity|reflexivity|].
    unfold has_dependent in H. apply bool_decide_eq_false in H. exact H. }
  split; [apply addDependent_has|]. split; [rewrite Hat; exact H|].
  split; [exact Hat|]. split.
  - intros x Hx. unfold w2, Atom__removeDependent.
    rewrite atom_at_set_atom, decide_False by congruence.
    rewrite Hw1. change (atom_at (set_globalEpoch ?n ?w0) x) with (atom_at w0 x).
    rewrite atom_at_set_atom, decide_False by congruence. reflexivity.
  - unfold w2, Atom__removeDependent. rewrite Hw1. reflexivity.
Qed.

Lemma removeDependent_undoes_add_witness :
  has_dependent (CEffect effect_1) (atom_at empty_world atom_a) = false /\
  atom_at (Atom__removeDependent atom_a (CEffect effect_1)
             (Atom__addDependent atom_a (CEffect effect_1) empty_world)) atom_a
  = atom_at empty_world atom_a.
Proof.
  split; [reflexivity|].
  exact (proj1 (proj2 (proj2
    (removeDependent_undoes_add atom_a (CEffect effect_1) empty_world eq_refl)))).
Defined.

(** *** Every write gets its flush *)

Lemma schedule_ok_same w w' :
  pendingAtoms w' = pendingAtoms w -> isBatchScheduled w' = isBatchScheduled w ->
  microtasks w' = microtasks w -> schedule_ok w -> schedule_ok w'.
Proof. unfold schedule_ok. intros -> -> ->. auto. Qed.

Lemma remove_loop_schedule e l w :
  let w' := fold_left (fun acc dep => Atom__removeDependent dep (CEffect e) acc) l w in
  pendingAtoms w' = pendingAtoms w /\ isBatchScheduled w' = isBatchScheduled w /\
  microtasks w' = microtasks w.
Proof.
  revert w. induction l as [|d l IH]; intros w; [repeat split|].
  cbn [fold_left]. cbn zeta in *.
  destruct (IH (Atom__removeDependent d (CEffect e) w)) as (-> & -> & ->).
  repeat split.
Qed.

Lemma unsubscribe_schedule_ok e w : schedule_ok w -> schedule_ok (unsubscribe e w).
Proof.
  intros H. unfold unsubscribe.
  destruct (remove_loop_schedule e (_deps (effect_at w e)) w) as (H1 & H2 & H3).
  cbn zeta in *. apply (schedule_ok_same w); assumption.
Qed.

Lemma scheduleFlush_schedule_ok w :
  NoDup (pendingAtoms w) ->
  (isBatchScheduled w = true -> (0 < microtasks w)%nat) ->
  schedule_ok (scheduleFlush w) /\ isBatchScheduled (scheduleFlush w) = true.
Proof.
  intros Hnd Hq. unfold scheduleFlush, schedule_ok.
  destruct (isBatchScheduled w) eqn:E; [rewrite E; auto|].
  cbn. repeat split; auto; lia.
Qed.

Lemma set_resolved_keeps_schedule_ok JSON a v w :
  schedule_ok w -> schedule_ok (snd (set_resolved JSON a v w)).
Proof.
  intros (H1 & H2 & H3). unfold set_resolved.
  destruct (negb (Atom__isEqual JSON _ _)); cbn [snd]; [|repeat split; assumption].
  apply scheduleFlush_schedule_ok.
  - case_bool_decide as Hin; cbn; [exact H3|].
    apply NoDup_app. split; [exact H3|]. split; [|apply NoDup_singleton].
    intros x Hx Hx'. apply list_elem_of_singleton in Hx'. subst x. exact (Hin Hx).
  - case_bool_decide; exact H2.
Qed.

Lemma set_keeps_schedule_ok JSON call a nv w :
  (forall f v w0, schedule_ok w0 -> schedule_ok (snd (call f v w0))) ->
  schedule_ok w -> schedule_ok (snd (Atom_set JSON call a nv w)).
Proof.
  intros Hcall. apply Atom_set_invariant; [exact Hcall|].
  intros v w0. apply set_resolved_keeps_schedule_ok.
Qed.

Lemma get_keeps_schedule_ok a w : schedule_ok w -> schedule_ok (snd (Atom_get a w)).
Proof.
  intros H. unfold Atom_get. cbn [snd].
  destruct (currentConsumer w) as [[c|e]|]; [| |exact H].
  - unfold Atom__addDependency. case_bool_decide; [exact H|].
    unfold Atom__addDependent. destruct (has_dependent _ _);
      apply (schedule_ok_same w); try reflexivity; exact H.
  - unfold AtomEffect__addDependency. case_bool_decide; [exact H|].
    unfold Atom__addDependent. destruct (has_dependent _ _);
      apply (schedule_ok_same w); try reflexivity; exact H.
Qed.

Lemma execute_keeps_schedule_ok (e : EffectId) (fn : M unit) (w : World) :
  (forall w0, schedule_ok w0 -> schedule_ok (snd (fn w0))) ->
  schedule_ok w -> schedule_ok (snd (AtomEffect__execute e fn w)).
Proof.
  intros Hfn H. unfold AtomEffect__execute.
  destruct (_isDisposed (effect_at w e)); [exact H|].
  unfold try_finally.
  set (w2 := setCurrentConsumer (Some (CEffect e)) (unsubscribe e w)).
  assert (H2 : schedule_ok w2)
    by (apply (schedule_ok_same (unsubscribe e w)); [reflexivity..|];
        apply unsubscribe_schedule_ok, H).
  specialize (Hfn w2 H2). destruct (fn w2) as [r w3]. cbn [snd] in *.
  apply (schedule_ok_same w3); [reflexivity..|exact Hfn].
Qed.

Lemma flush_keeps_schedule_ok (fns : EffectId -> M unit) (w : World) :
  (forall e w0, schedule_ok w0 -> schedule_ok (snd (fns e w0))) ->
  schedule_ok (snd (flushPendingAtoms fns w)).
Proof.
  intros Hfns. unfold flushPendingAtoms. apply for_of_invariant.
  - intros a w0 H0. unfold Atom__notifyDependents.
    destruct (_isDirty (atom_at w0 a)); [|exact H0].
    apply for_of_invariant.
    + intros [c|e] w1 H1; [exact H1|].
      apply execute_keeps_schedule_ok; [apply Hfns|exact H1].
    + apply (schedule_ok_same w0); [reflexivity..|exact H0].
  - unfold schedule_ok. cbn. repeat split; [congruence|discriminate|constructor].
Qed.

(** X22. In a store where every pending atom has its flush queued, the
    host finds a callback to run whenever an atom is pending, and the
    store is in that state again after the callback, also when an effect
    wrote an atom during the flush or threw. *)
Theorem microtask_keeps_schedule_ok (fns : EffectId -> M unit) (w : World) :
  (forall e w0, schedule_ok w0 -> schedule_ok (snd (fns e w0))) ->
  schedule_ok w ->
  (pendingAtoms w <> [] -> is_Some (run_microtask fns w)) /\
  (forall r, run_microtask fns w = Some r -> schedule_ok (snd r)).
Proof.
  intros Hfns (H1 & H2 & H3). unfold run_microtask. split.
  - intros Hp. specialize (H2 (H1 Hp)). destruct (microtasks w); [lia|eauto].
  - intros r Hr. destruct (microtasks w); [discriminate|]. injection Hr as <-.
    apply flush_keeps_schedule_ok, Hfns.
Qed.

Lemma microtask_keeps_schedule_ok_witness :
  let fns := fun _ : EffectId =>
    let* v := Atom_get atom_a in Atom_set no_JSON no_calls atom_b v in
  let w := snd (Atom_set no_JSON no_calls atom_a (num 1)
             (snd (AtomEffect__execute effect_1 (fns effect_1) empty_world))) in
  schedule_ok w /\
  pendingAtoms w = [atom_a] /\
  (exists r, run_microtask fns w = Some r /\
             pendingAtoms (snd r) = [atom_b] /\ microtasks (snd r) = 1%nat /\
             schedule_ok (snd r)).
Proof.
  cbn zeta.
  assert (Hfns : forall (e : EffectId) w0, schedule_ok w0 ->
            schedule_ok (snd ((let* v := Atom_get atom_a in
                               Atom_set no_JSON no_calls atom_b v) w0))).
  { intros e w0 H0. unfold bind. pose proof (get_keeps_schedule_ok atom_a w0 H0) as Hg.
    rewrite (surjective_pairing (Atom_get atom_a w0)). rewrite get_value.
    apply set_keeps_schedule_ok; [apply no_calls_keeps|exact Hg]. }
  assert (Hw : schedule_ok (snd (Atom_set no_JSON no_calls atom_a (num 1)
             (snd (AtomEffect__execute effect_1
                     (let* v := Atom_get atom_a in Atom_set no_JSON no_calls atom_b v)
                     empty_world))))).
  { apply set_keeps_schedule_ok; [apply no_calls_keeps|].
    apply execute_keeps_schedule_ok; [apply (Hfns effect_1)|].
    unfold schedule_ok. cbn. repeat split; [congruence|discriminate|constructor]. }
  split; [exact Hw|]. split; [vm_compute; reflexivity|].
  destruct (proj1 (microtask_keeps_schedule_ok _ _ Hfns Hw)) as [r Hr];
    [vm_compute; discriminate|].
  exists r. split; [exact Hr|].
  pose proof (proj2 (microtask_keeps_schedule_ok _ _ Hfns Hw) r Hr) as Hok.
  vm_compute in Hr. injection Hr as <-.
  split; [vm_compute; reflexivity|]. split; [vm_compute; reflexivity|]. exact Hok.
Defined.

(** *** The writes of one turn and the flush that follows *)














End ReactiveExtra.

(* ===================================================================== *)
(** ** Properties of the reordering of DOM children (dom/WebShellRenderer.ts) *)
(* ===================================================================== *)

Module RendererExtra.
Import JS Dom Renderer.

Lemma indexOf_lookup (node : Node) (cs : list Node) (i : nat) (k : Z) :
  NoDup cs -> cs !! i = Some node -> indexOf node cs k = k + Z.of_nat i.
Proof.
  revert i k. induction cs as [|c cs IH]; intros i k Hnd Hi; [discriminate|].
  apply NoDup_cons in Hnd as [Hc Hnd]. cbn [indexOf].
  destruct i as [|i]; cbn in Hi.
  - injection Hi as ->. rewrite decide_True by reflexivity. lia.
  - rewrite decide_False.
    + rewrite (IH i (k + 1) Hnd Hi). lia.
    + intros ->. apply Hc. apply list_elem_of_lookup. eauto.
Qed.

Lemma filter_other_all (node : Node) (cs : list Node) :
  node ∉ cs -> filter (fun c => c <> node) cs = cs.
Proof.
  induction cs as [|c cs IH]; intros H; [reflexivity|].
  apply not_elem_of_cons in H as [Hne Hin].
  rewrite filter_cons, decide_True by congruence. f_equal. apply IH, Hin.
Qed.

Lemma filter_other_lookup (node : Node) (cs : list Node) (i : nat) :
  NoDup cs -> cs !! i = Some node ->
  filter (fun c => c <> node) cs = take i cs ++ drop (S i) cs.
Proof.
  revert i. induction cs as [|c cs IH]; intros i Hnd Hi; [discriminate|].
  apply NoDup_cons in Hnd as [Hc Hnd].
  destruct i as [|i]; cbn in Hi.
  - injection Hi as ->. rewrite filter_cons, decide_False by (intros H; apply H; reflexivity).
    cbn. apply filter_other_all, Hc.
  - assert (c <> node).
    { intros ->. apply Hc. apply list_elem_of_lookup. eauto. }
    rewrite filter_cons, decide_True by assumption. cbn. f_equal. apply IH; assumption.
Qed.

Lemma insert_before_lookup (node ref : Node) (cs : list Node) (k : nat) :
  NoDup cs -> cs !! k = Some ref ->
  insert_before node ref cs = Some (take k cs ++ node :: drop k cs).
Proof.
  revert k. induction cs as [|c cs IH]; intros k Hnd Hk; [discriminate|].
  apply NoDup_cons in Hnd as [Hc Hnd]. cbn [insert_before].
  destruct k as [|k]; cbn in Hk.
  - injection Hk as ->. rewrite decide_True by reflexivity. reflexivity.
  - rewrite decide_False.
    + rewrite (IH k Hnd Hk). reflexivity.
    + intros ->. apply Hc. apply list_elem_of_lookup. eauto.
Qed.

Lemma reorder_move_closed_form (ty : MoveType) (node : Node) (index : Z)
    (cs : list Node) (i : nat) :
  NoDup cs -> cs !! i = Some node ->
  let rest := take i cs ++ drop (S i) cs in
  let k := landing (length cs) i index in
  reorder_move (mkChildMove ty node index) cs =
    Some (take k rest ++ node :: drop k rest).
Proof.
  intros Hnd Hi rest k.
  assert (Hlen : (i < length cs)%nat) by (apply lookup_lt_is_Some; eauto).
  assert (Hrest : length rest = (length cs - 1)%nat).
  { unfold rest. rewrite length_app, length_take, length_drop. lia. }
  assert (Hcs : cs = take i cs ++ node :: drop (S i) cs).
  { rewrite <- (take_drop_middle cs i node Hi) at 1. reflexivity. }
  unfold reorder_move. cbn [move_node move_index].
  rewrite bool_decide_eq_true_2 by (apply list_elem_of_lookup; eauto). cbn [negb].
  rewrite (indexOf_lookup node cs i 0 Hnd Hi).
  replace (0 + Z.of_nat i =? -1) with false by (symmetry; apply Z.eqb_neq; lia).
  unfold k, landing.
  destruct (Z.eqb_spec (0 + Z.of_nat i) index) as [E|E]; cbn [negb].
  - subst index.
    replace (0 + Z.of_nat i <? 0) with false by (symmetry; apply Z.ltb_ge; lia).
    replace (Z.of_nat (length cs) <=? 0 + Z.of_nat i) with false
      by (symmetry; apply Z.leb_gt; lia).
    replace (0 + Z.of_nat i <=? Z.of_nat i) with true by (symmetry; apply Z.leb_le; lia).
    cbn [orb]. replace (Z.to_nat (0 + Z.of_nat i)) with i by lia.
    unfold rest. rewrite take_app_length', drop_app_length' by (rewrite length_take; lia).
    f_equal. exact Hcs.
  - unfold at_index, insertBefore.
    destruct (Z.ltb_spec index 0) as [Hneg|Hpos]; cbn [orb].
    { rewrite (filter_other_lookup node cs i Hnd Hi). fold rest.
      rewrite <- Hrest, firstn_all, drop_all. reflexivity. }
    destruct (Z.leb_spec (Z.of_nat (length cs)) index) as [Hbig|Hsmall].
    { rewrite lookup_ge_None_2 by lia.
      rewrite (filter_other_lookup node cs i Hnd Hi). fold rest.
      rewrite <- Hrest, firstn_all, drop_all. reflexivity. }
    destruct (lookup_lt_is_Some_2 cs (Z.to_nat index)) as [r Hr]; [lia|].
    rewrite Hr.
    assert (Hne : r <> node).
    { intros ->. apply E. pose proof (NoDup_lookup cs _ _ node Hnd Hr Hi). lia. }
    rewrite decide_False by exact Hne.
    rewrite (filter_other_lookup node cs i Hnd Hi). fold rest.
    assert (Hndr : NoDup rest).
    { unfold rest. rewrite Hcs in Hnd. apply NoDup_app in Hnd as (N1 & N2 & N3).
      apply NoDup_cons in N3 as [N3 N4]. apply NoDup_app. split; [exact N1|].
      split; [|exact N4]. intros x Hx Hx'. apply (N2 x Hx). right. exact Hx'. }
    apply insert_before_lookup; [exact Hndr|].
    destruct (Z.leb_spec index (Z.of_nat i)) as [Hle|Hgt].
    + unfold rest. rewrite lookup_app_l by (rewrite length_take; lia).
      rewrite lookup_take_lt by lia. exact Hr.
    + unfold rest. rewrite lookup_app_r by (rewrite length_take; lia).
      rewrite length_take, lookup_drop. rewrite <- Hr. f_equal. lia.
Qed.

Lemma middle_perm (node : Node) (cs : list Node) (i k : nat) :
  cs !! i = Some node ->
  take k (take i cs ++ drop (S i) cs) ++ node :: drop k (take i cs ++ drop (S i) cs) ≡ₚ cs.
Proof.
  intros Hi. rewrite <- Permutation_middle, take_drop.
  rewrite <- (take_drop_middle cs i node Hi) at 3.
  rewrite <- Permutation_middle. reflexivity.
Qed.

Lemma reorder_move_perm (mv : ChildMove) (cs : list Node) :
  NoDup cs -> exists cs', reorder_move mv cs = Some cs' /\ cs' ≡ₚ cs.
Proof.
  intros Hnd. destruct (decide (move_node mv ∈ cs)) as [Hin|Hout].
  - apply list_elem_of_lookup in Hin as [i Hi]. destruct mv as [ty node index].
    cbn in Hi. eexists. split.
    + apply (reorder_move_closed_form ty node index cs i Hnd Hi).
    + apply middle_perm, Hi.
  - exists cs. split; [|reflexivity]. unfold reorder_move.
    rewrite bool_decide_eq_false_2 by exact Hout. reflexivity.
Qed.

(** X17. A move of a child of the parent takes the node out of the list and
    puts it back at [landing]: at [index] when that is at or before the
    place the node has, one place before [index] when it is further on,
    and at the end when [index] is no position of the list.  The other
    children keep their order. *)
Theorem reorder_move_lands (ty : MoveType) (node : Node) (index : Z)
    (cs : list Node) (i : nat) :
  NoDup cs -> cs !! i = Some node ->
  exists cs',
    reorder_move (mkChildMove ty node index) cs = Some cs' /\
    cs' !! landing (length cs) i index = Some node /\
    filter (fun c => c <> node) cs' = filter (fun c => c <> node) cs /\
    (0 <= index < Z.of_nat (length cs) -> Z.of_nat i < index ->
     cs' !! (Z.to_nat index - 1)%nat = Some node).
Proof.
  intros Hnd Hi. eexists. split; [apply (reorder_move_closed_form ty node index cs i Hnd Hi)|].
  set (rest := take i cs ++ drop (S i) cs).
  set (k := landing (length cs) i index).
  assert (Hlen : (i < length cs)%nat) by (apply lookup_lt_is_Some; eauto).
  assert (Hrest : length rest = (length cs - 1)%nat).
  { unfold rest. rewrite length_app, length_take, length_drop. lia. }
  assert (Hk : (k <= length rest)%nat).
  { unfold k, landing.
    destruct (Z.ltb_spec index 0); cbn [orb]; [lia|].
    destruct (Z.leb_spec (Z.of_nat (length cs)) index); [lia|].
    destruct (Z.leb_spec index (Z.of_nat i)); lia. }
  assert (Hat : (take k rest ++ node :: drop k rest) !! k = Some node).
  { rewrite lookup_app_r by (rewrite length_take; lia).
    rewrite length_take. replace (k - k `min` length rest)%nat with 0%nat by lia.
    reflexivity. }
  split; [exact Hat|]. split.
  - rewrite filter_app, filter_cons, decide_False by (intros H; apply H; reflexivity).
    rewrite <- filter_app, take_drop.
    rewrite (filter_other_lookup node cs i Hnd Hi). fold rest.
    apply filter_other_all. unfold rest. intros Hin.
    rewrite <- (take_drop_middle cs i node Hi) in Hnd.
    apply NoDup_app in Hnd as (N1 & N2 & N3). apply NoDup_cons in N3 as [N3 N4].
    apply elem_of_app in Hin as [Hin|Hin]; [|exact (N3 Hin)].
    apply (N2 node Hin). left.
  - intros Hrange Hfwd. rewrite <- Hat. f_equal. unfold k, landing.
    replace (index <? 0) with false by (symmetry; apply Z.ltb_ge; lia).
    replace (Z.of_nat (length cs) <=? index) with false by (symmetry; apply Z.leb_gt; lia).
    replace (index <=? Z.of_nat i) with false by (symmetry; apply Z.leb_gt; lia).
    reflexivity.
Qed.

Lemma reorder_move_lands_witness :
  NoDup [1; 2; 3; 4]%positive /\ [1; 2; 3; 4]%positive !! 0%nat = Some 1%positive /\
  reorder_move (mkChildMove MOVE 1%positive 2) [1; 2; 3; 4]%positive =
    Some [2; 1; 3; 4]%positive /\
  exists cs',
    reorder_move (mkChildMove MOVE 1%positive 2) [1; 2; 3; 4]%positive = Some cs' /\
    cs' !! 1%nat = Some 1%positive.
Proof.
  assert (Hnd : NoDup [1; 2; 3; 4]%positive) by (apply (bool_decide_unpack _); reflexivity).
  split; [exact Hnd|]. split; [reflexivity|]. split; [reflexivity|].
  destruct (reorder_move_lands MOVE 1%positive 2 [1; 2; 3; 4]%positive 0 Hnd eq_refl)
    as (cs' & H & Hat & _).
  exists cs'. split; [exact H|exact Hat].
Defined.

(** X18. Whatever the moves, [_patchReorderChildren] ends without an
    exception and leaves the parent with the children it had: none lost,
    none added, none twice. *)
Theorem reorder_keeps_children (moves : list ChildMove) (cs : list Node) :
  NoDup cs ->
  exists cs', _patchReorderChildren moves cs = Some cs' /\ cs' ≡ₚ cs /\ NoDup cs'.
Proof.
  revert cs. induction moves as [|mv moves IH]; intros cs Hnd.
  - exists cs. repeat split; [reflexivity|exact Hnd].
  - destruct (reorder_move_perm mv cs Hnd) as (cs1 & H1 & P1).
    assert (Hnd1 : NoDup cs1) by (rewrite P1; exact Hnd).
    destruct (IH cs1 Hnd1) as (cs' & H & P & N).
    exists cs'. cbn [_patchReorderChildren]. rewrite H1.
    split; [exact H|]. split; [rewrite P; exact P1|exact N].
Qed.

Lemma reorder_keeps_children_witness :
  NoDup [1; 2; 3]%positive /\
  exists cs', _patchReorderChildren
                [mkChildMove MOVE 3%positive 0; mkChildMove MOVE 9%positive 1]
                [1; 2; 3]%positive = Some cs' /\
              cs' ≡ₚ [1; 2; 3]%positive /\ NoDup cs'.
Proof.
  assert (Hnd : NoDup [1; 2; 3]%positive) by (apply (bool_decide_unpack _); reflexivity).
  split; [exact Hnd|]. apply (reorder_keeps_children _ _ Hnd).
Defined.

End RendererExtra.
